(** * Papyrus-lite: the link-substitution engine ([src/LinkProcessor.js])

    A shallow embedding of [LinkProcessor] and of the JavaScript and Node
    primitives it is written with, followed by the properties of the
    specification that concern it.

    Conventions of the embedding.
    - A JavaScript string is a sequence of code units; the embedding uses
      [string], whose characters cover the code units 0..255.  Offsets and
      lengths are counted in code units.
    - [async]/[await] is sequential here: every [await] is an ordinary call.
    - An exception is a value of type [error]; a computation returns an
      [outcome] together with the trace of the log lines and file-system
      requests it issued, in order.  Debug-level log lines are not traced.
    - [path] is Node's POSIX implementation; the process working directory
      is a field of the environment.
    - The substitute mapping is the list of the own properties of the object
      returned by [getSubstitutes()], in [Object.keys] order, each with a
      string value.  Properties inherited from [Object.prototype] are outside
      the embedding. *)

From Stdlib Require Import Ascii String NArith Lia.
From stdpp Require Import base strings list gmap sorting.

Local Open Scope string_scope.
Local Open Scope list_scope.
Local Open Scope stdpp_scope.

(** ** Strings *)

Module Str.

Fixpoint all (p : ascii -> bool) (s : string) : bool :=
  match s with
  | EmptyString => true
  | String c t => p c && all p t
  end.

Fixpoint map (f : ascii -> ascii) (s : string) : string :=
  match s with
  | EmptyString => EmptyString
  | String c t => String (f c) (map f t)
  end.

(** [drop n s] is [s.slice(n)] for [0 <= n]. *)
Fixpoint drop (n : nat) (s : string) : string :=
  match n, s with
  | O, _ => s
  | S _, EmptyString => EmptyString
  | S k, String _ t => drop k t
  end.

(** [take n s] is [s.slice(0, n)] for [0 <= n]. *)
Fixpoint take (n : nat) (s : string) : string :=
  match n, s with
  | O, _ => EmptyString
  | S _, EmptyString => EmptyString
  | S k, String c t => String c (take k t)
  end.

(** [strip p s]: the rest of [s] after its prefix [p], when [p] is one. *)
Fixpoint strip (p s : string) : option string :=
  match p, s with
  | EmptyString, _ => Some s
  | String _ _, EmptyString => None
  | String a p', String b s' => if Ascii.eqb a b then strip p' s' else None
  end.

(** [cut p s]: the text before and the text after the first occurrence
    of [p] in [s] ([s.indexOf(p)] and the two slices around it). *)
Fixpoint cut (p s : string) : option (string * string) :=
  match strip p s with
  | Some rest => Some (EmptyString, rest)
  | None =>
      match s with
      | EmptyString => None
      | String c t =>
          match cut p t with
          | Some (before, after) => Some (String c before, after)
          | None => None
          end
      end
  end.

(** [split sep s]: [s.split(sep)] for a one-character separator. *)
Fixpoint split (sep : ascii) (s : string) : list string :=
  match s with
  | EmptyString => [EmptyString]
  | String c t =>
      if Ascii.eqb c sep then EmptyString :: split sep t
      else match split sep t with
           | [] => [String c EmptyString]
           | w :: ws => String c w :: ws
           end
  end.

Definition contains (c : ascii) (s : string) : bool :=
  negb (all (fun x => negb (Ascii.eqb x c)) s).

End Str.

(** ** The JavaScript string methods the processor calls *)

Module Js.

Definition code (c : ascii) : N := N_of_ascii c.

(** White space and line terminators among the code units 0..255:
    TAB, LF, VT, FF, CR, SP and NBSP. *)
Definition isWhiteSpace (c : ascii) : bool :=
  let n := code c in
  ((9 <=? n) && (n <=? 13) || (n =? 32) || (n =? 160))%N.

Fixpoint trimStart (s : string) : string :=
  match s with
  | EmptyString => EmptyString
  | String c t => if isWhiteSpace c then trimStart t else s
  end.

Fixpoint trimEnd (s : string) : string :=
  match s with
  | EmptyString => EmptyString
  | String c t =>
      match trimEnd t with
      | EmptyString => if isWhiteSpace c then EmptyString else String c EmptyString
      | t' => String c t'
      end
  end.

(** [s.trim()] *)
Definition trim (s : string) : string := trimEnd (trimStart s).

(** Upper-case code units below 256: A-Z, and the Latin-1 capitals
    U+00C0..U+00DE without the multiplication sign U+00D7. *)
Definition lowerChar (c : ascii) : ascii :=
  let n := code c in
  if ((65 <=? n) && (n <=? 90)
      || (192 <=? n) && (n <=? 222) && negb (n =? 215))%N
  then ascii_of_N (n + 32) else c.

(** [s.toLowerCase()] *)
Definition toLowerCase (s : string) : string := Str.map lowerChar s.

(** [s.startsWith(p)] *)
Definition startsWith (s p : string) : bool := String.prefix p s.

(** [s.endsWith(p)] *)
Definition endsWith (s p : string) : bool :=
  (String.length p <=? String.length s)%nat
  && String.eqb (Str.drop (String.length s - String.length p) s) p.

(** [s.slice(0, -k)] for [0 < k]. *)
Definition sliceEnd (k : nat) (s : string) : string :=
  Str.take (String.length s - k) s.

(** [GetSubstitution] of ECMA-262 for a pattern that is a string, so
    that there is no capture: in the replacement template [$$] stands for
    a dollar, [$&] for the matched text, [$`] for the text before the match
    and [$'] for the text after it; any other [$] is literal. *)
Fixpoint getSubstitution (matched before after template : string) : string :=
  match template with
  | EmptyString => EmptyString
  | String c rest =>
      if Ascii.eqb c "$" then
        match rest with
        | EmptyString => String c EmptyString
        | String d rest' =>
            if Ascii.eqb d "$" then
              String "$" (getSubstitution matched before after rest')
            else if Ascii.eqb d "&" then
              matched +:+ getSubstitution matched before after rest'
            else if Ascii.eqb d "`" then
              before +:+ getSubstitution matched before after rest'
            else if Ascii.eqb d "'" then
              after +:+ getSubstitution matched before after rest'
            else String c (getSubstitution matched before after rest)
        end
      else String c (getSubstitution matched before after rest)
  end.

(** [s.replace(pattern, replacement)] with both arguments strings: only
    the first occurrence of [pattern] is replaced. *)
Definition replace (s pattern replacement : string) : string :=
  match Str.cut pattern s with
  | None => s
  | Some (before, after) =>
      before +:+ getSubstitution pattern before after replacement +:+ after
  end.

(** [parts.join('')] *)
Definition join (parts : list string) : string :=
  foldr String.append EmptyString parts.

End Js.

(** ** Node's [path] module, POSIX flavour *)

Module Path.

(** [path.isAbsolute(p)] *)
Definition isAbsolute (p : string) : bool :=
  match p with
  | String c _ => Ascii.eqb c "/"
  | EmptyString => false
  end.

(** [normalizeString]: the segments of a path are read from left to right
    onto a stack (kept reversed); empty segments and [.] are dropped, [..]
    removes the segment before it, and when there is none it is kept only
    if the path may climb above its start. *)
Fixpoint normalizeSegments (allowAboveRoot : bool)
    (segments stack : list string) : list string :=
  match segments with
  | [] => rev stack
  | seg :: rest =>
      if String.eqb seg "" || String.eqb seg "." then
        normalizeSegments allowAboveRoot rest stack
      else if String.eqb seg ".." then
        match stack with
        | top :: below =>
            if String.eqb top ".." then
              normalizeSegments allowAboveRoot rest
                (if allowAboveRoot then seg :: stack else stack)
            else normalizeSegments allowAboveRoot rest below
        | [] =>
            normalizeSegments allowAboveRoot rest
              (if allowAboveRoot then [seg] else [])
        end
      else normalizeSegments allowAboveRoot rest (seg :: stack)
  end.

Definition normalizeString (p : string) (allowAboveRoot : bool) : string :=
  String.concat "/" (normalizeSegments allowAboveRoot (Str.split "/" p) []).

(** The loop of [path.resolve]: arguments are taken from the last to the
    first, then the working directory, until the accumulated path is
    absolute. *)
Fixpoint resolveLoop (cwd : string) (reversedArgs : list string)
    (resolvedPath : string) : string * bool :=
  match reversedArgs with
  | [] =>
      if String.eqb cwd "" then (resolvedPath, false)
      else (cwd +:+ "/" +:+ resolvedPath, isAbsolute cwd)
  | p :: before =>
      if String.eqb p "" then resolveLoop cwd before resolvedPath
      else if isAbsolute p then (p +:+ "/" +:+ resolvedPath, true)
      else resolveLoop cwd before (p +:+ "/" +:+ resolvedPath)
  end.

(** [path.resolve(...args)] *)
Definition resolve (cwd : string) (args : list string) : string :=
  let '(resolvedPath, resolvedAbsolute) := resolveLoop cwd (rev args) "" in
  let normalized := normalizeString resolvedPath (negb resolvedAbsolute) in
  if resolvedAbsolute then "/" +:+ normalized
  else if String.eqb normalized "" then "." else normalized.

(** [path.normalize(p)] *)
Definition normalize (p : string) : string :=
  if String.eqb p "" then "." else
  let absolute := isAbsolute p in
  let trailingSeparator := Js.endsWith p "/" in
  let normalized := normalizeString p (negb absolute) in
  if String.eqb normalized "" then
    (if absolute then "/" else if trailingSeparator then "./" else ".")
  else
    let normalized :=
      if trailingSeparator then normalized +:+ "/" else normalized in
    if absolute then "/" +:+ normalized else normalized.

(** [path.join(...args)] *)
Definition join (args : list string) : string :=
  match filter (fun a => a ≠ "") args with
  | [] => "."
  | parts => normalize (String.concat "/" parts)
  end.

(** The part of [s] from its last dot on. *)
Fixpoint fromLastDot (s : string) : option string :=
  match s with
  | EmptyString => None
  | String c t =>
      match fromLastDot t with
      | Some e => Some e
      | None => if Ascii.eqb c "." then Some s else None
      end
  end.

(** The last component of a path, trailing separators ignored. *)
Definition lastComponent (p : string) : string :=
  match filter (fun seg => seg ≠ "") (rev (Str.split "/" p)) with
  | seg :: _ => seg
  | [] => ""
  end.

(** [path.extname(p)]: the last component from its last dot on; empty
    when that component has no dot, when its only dot is its first
    character, and when it is [..]. *)
Definition extname (p : string) : string :=
  match lastComponent p with
  | EmptyString => ""
  | String c rest =>
      match fromLastDot rest with
      | None => ""
      | Some ext => if String.eqb (String c rest) ".." then "" else ext
      end
  end.

End Path.

(** ** The link pattern [/\{\{([^}]+)\}\}/g] *)

Module LinkPattern.

Definition notClosingBrace (c : ascii) : bool := negb (Ascii.eqb c "}").

(** The longest prefix of [s] whose characters satisfy [p], and the rest. *)
Fixpoint span (p : ascii -> bool) (s : string) : string * string :=
  match s with
  | EmptyString => (EmptyString, EmptyString)
  | String c t =>
      if p c then let '(run, rest) := span p t in (String c run, rest)
      else (EmptyString, s)
  end.

(** A match of the pattern at the very start of [s]; the result is the
    text of the capture group.  The group [[^}]+] is followed by a closing
    brace in the pattern, so it can only be the whole run of characters
    other than a closing brace that follows the two opening braces: no
    shorter run is followed by a closing brace. *)
Definition matchAt (s : string) : option string :=
  match Str.strip "{{" s with
  | None => None
  | Some t =>
      let '(group, rest) := span notClosingBrace t in
      match group, Str.strip "}}" rest with
      | String _ _, Some _ => Some group
      | _, _ => None
      end
  end.

(** What [matchAll] and the [exec] loop read from a match object:
    [match[0]], [match[1]] and [match.index]. *)
Record regexMatch := {
  m_full : string;
  m_group : string;
  m_index : nat;
}.

Definition fullMatch (group : string) : string := "{{" +:+ group +:+ "}}".

(** The successive matches of the global pattern.  [skip] counts the
    characters still covered by the previous match (the search resumes at
    [lastIndex], the end of that match); where no match starts, the search
    moves one character to the right. *)
Fixpoint matchesFrom (s : string) (skip index : nat) : list regexMatch :=
  match s with
  | EmptyString => []
  | String _ t =>
      match skip with
      | S k => matchesFrom t k (S index)
      | O =>
          match matchAt s with
          | Some group =>
              {| m_full := fullMatch group; m_group := group; m_index := index |}
              :: matchesFrom t (String.length group + 3) (S index)
          | None => matchesFrom t 0 (S index)
          end
      end
  end.

(** [[...content.matchAll(linkPattern)]] *)
Definition matchAll (content : string) : list regexMatch :=
  matchesFrom content 0 0.

End LinkPattern.

Export LinkPattern (regexMatch, m_full, m_group, m_index).

(** ** Exceptions, traces and the file system *)

(** One constructor for each [throw new Error(...)] of the processor, and
    one for the errors raised by the file system itself. *)
Inductive error :=
  | RootPathNotSet
  | FilePathOutsideRoot (linkContent : string)
  | FileNotFound (linkContent : string)
  | UnsupportedFileType (ext : string)
  | FailedToReadFile (linkContent cause : string)
  | FolderPathOutsideRoot (folderPath : string)
  | FolderNotFound (folderPath : string)
  | PathIsNotADirectory (folderPath : string)
  | FailedToReadFolder (folderPath cause : string)
  | IoError (cause : string).

(** [error.message] *)
Definition message (e : error) : string :=
  match e with
  | RootPathNotSet =>
      "Root path not set. Use /root command to set the root directory."
  | FilePathOutsideRoot linkContent =>
      "File path outside root directory: " +:+ linkContent
  | FileNotFound linkContent => "File not found: " +:+ linkContent
  | UnsupportedFileType ext =>
      "Unsupported file type: " +:+ ext
      +:+ ". Only .md and .txt files are supported."
  | FailedToReadFile linkContent cause =>
      "Failed to read file: " +:+ linkContent +:+ " - " +:+ cause
  | FolderPathOutsideRoot folderPath =>
      "Folder path outside root directory: " +:+ folderPath
  | FolderNotFound folderPath => "Folder not found: " +:+ folderPath
  | PathIsNotADirectory folderPath =>
      "Path is not a directory: " +:+ folderPath
  | FailedToReadFolder folderPath cause =>
      "Failed to read folder: " +:+ folderPath +:+ " - " +:+ cause
  | IoError cause => cause
  end.

Inductive outcome (A : Type) :=
  | Return (a : A)
  | Throw (e : error).
Arguments Return {A} a.
Arguments Throw {A} e.

(** What a computation does that is visible from outside: warnings and
    errors sent to the logger, and requests to the file system, each with
    the path it was given. *)
Inductive event :=
  | LogWarn (msg : string)
  | LogError (msg : string)
  | PathExists (p : string)
  | Stat (p : string)
  | Readdir (p : string)
  | ReadFile (p : string).

(** The file system as the processor sees it during one call. *)
Record fileSystem := {
  fs_pathExists : string -> bool;
  fs_isDirectory : string -> outcome bool;
  fs_readdir : string -> outcome (list string);
  fs_readFile : string -> outcome string;
}.

(** The collaborators of the processor: [dataManager.getSubstitutes()],
    [dataManager.getRootPath()], [process.cwd()] and [fs]. *)
Record environment := {
  substitutes : list (string * string);
  rootPath : string;
  cwd : string;
  fs : fileSystem;
}.

(** [obj[key]] on the substitute mapping; [None] is [undefined]. *)
Fixpoint getProperty (obj : list (string * string)) (key : string)
    : option string :=
  match obj with
  | [] => None
  | (k, v) :: rest => if String.eqb k key then Some v else getProperty rest key
  end.

(** The value of [obj[key]] when it is truthy: present and not empty. *)
Definition truthyProperty (obj : list (string * string)) (key : string)
    : option string :=
  match getProperty obj key with
  | Some (String c t) => Some (String c t)
  | _ => None
  end.

(** ** Computations *)

Definition M (A : Type) : Type := outcome A * list event.

Definition ret {A} (a : A) : M A := (Return a, []).

Definition throw {A} (e : error) : M A := (Throw e, []).

Definition emit (ev : event) : M unit := (Return tt, [ev]).

Definition bind {A B} (m : M A) (k : A -> M B) : M B :=
  match m with
  | (Return a, t1) => let '(r, t2) := k a in (r, t1 ++ t2)
  | (Throw e, t1) => (Throw e, t1)
  end.

(** [try { m } catch (error) { handler error }] *)
Definition tryCatch {A} (m : M A) (handler : error -> M A) : M A :=
  match m with
  | (Return a, t1) => (Return a, t1)
  | (Throw e, t1) => let '(r, t2) := handler e in (r, t1 ++ t2)
  end.

Notation "'let*' x ':=' m 'in' k" := (bind m (fun x => k))
  (at level 10, x name, m at level 100, k at level 200).

(** [for (const x of xs) { acc = body(acc, x) }] *)
Fixpoint forEach {A S} (xs : list A) (body : S -> A -> M S) (acc : S) : M S :=
  match xs with
  | [] => ret acc
  | x :: rest => let* acc' := body acc x in forEach rest body acc'
  end.

Definition result {A} (m : M A) : outcome A := fst m.
Definition trace {A} (m : M A) : list event := snd m.

Section FileSystemRequests.

Variable env : environment.

Definition pathExists (p : string) : M bool :=
  (Return (fs_pathExists (fs env) p), [PathExists p]).

(** [(await fs.stat(p)).isDirectory()] *)
Definition statIsDirectory (p : string) : M bool :=
  (fs_isDirectory (fs env) p, [Stat p]).

Definition readdir (p : string) : M (list string) :=
  (fs_readdir (fs env) p, [Readdir p]).

Definition readFile (p : string) : M string :=
  (fs_readFile (fs env) p, [ReadFile p]).

End FileSystemRequests.

(** ** The link processor *)

Section LinkProcessor.

Variable env : environment.

(** [this.maxDepth] *)
Definition maxDepth : nat := 10.

Definition maxDepthWarning : string :=
  "Maximum recursion depth (10) reached while processing links".

Definition supportedExtensions : list string := [".md"; ".txt"].

(** [['.md', '.txt'].includes(path.extname(p).toLowerCase())] *)
Definition isSupported (p : string) : bool :=
  bool_decide (Js.toLowerCase (Path.extname p) ∈ supportedExtensions).

(** The text that takes the place of a marker whose resolution threw. *)
Definition errorReplacement (linkContent : string) (e : error) : string :=
  "{{" +:+ linkContent +:+ "}} [ERROR: " +:+ message e +:+ "]".

Definition fileHeader (file : string) : string :=
  String "010" ("--- " +:+ file +:+ " ---" +:+ String "010" "").

(** The body of the loop over the supported files of a folder: what it
    pushes onto [combinedContent] for one file. *)
Definition readFolderFile (folderPath fullFolderPath file : string)
    : M (list string) :=
  let filePath := Path.join [fullFolderPath; file] in
  tryCatch
    (let* fileContent := readFile env filePath in
     ret [fileHeader file; fileContent])
    (fun e =>
       let* _ := emit (LogError ("Failed to read file " +:+ file
                                 +:+ " from folder " +:+ folderPath +:+ ":")) in
       ret [fileHeader file +:+ "[ERROR: Failed to read file - "
            +:+ message e +:+ "]" +:+ String "010" ""]).

(** [files.filter(...).sort()] *)
Definition supportedFiles (files : list string) : list string :=
  merge_sort String.le (filter (fun file => isSupported file = true) files).

(** [resolveFolderWildcard(linkContent, depth)]; [processLinksAt] is
    [content => this.processLinks(content, depth)]. *)
Definition resolveFolderWildcardWith (processLinksAt : string -> M string)
    (linkContent : string) : M string :=
  let folderPath := Js.sliceEnd 2 linkContent in
  let rootPath := rootPath env in
  if String.eqb rootPath "" then throw RootPathNotSet else
  let fullFolderPath :=
    if Path.isAbsolute folderPath then folderPath
    else Path.resolve (cwd env) [rootPath; folderPath] in
  let normalizedRoot := Path.resolve (cwd env) [rootPath] in
  let normalizedFolder := Path.resolve (cwd env) [fullFolderPath] in
  if negb (Js.startsWith normalizedFolder normalizedRoot)
  then throw (FolderPathOutsideRoot folderPath) else
  let* found := pathExists env fullFolderPath in
  if negb found then throw (FolderNotFound folderPath) else
  let* isDir := statIsDirectory env fullFolderPath in
  if negb isDir then throw (PathIsNotADirectory folderPath) else
  tryCatch
    (let* files := readdir env fullFolderPath in
     let supported := supportedFiles files in
     match supported with
     | [] =>
         let* _ := emit (LogWarn
           ("No supported files (.md, .txt) found in folder: " +:+ folderPath)) in
         ret ("[No supported files found in " +:+ folderPath +:+ "]")
     | _ =>
         let* combinedContent :=
           forEach supported
             (fun combined file =>
                let* pushed := readFolderFile folderPath fullFolderPath file in
                ret (combined ++ pushed))
             [] in
         processLinksAt (Js.join combinedContent)
     end)
    (fun e => throw (FailedToReadFolder folderPath (message e))).

(** [resolveLink(linkContent, depth)], with [processLinksAt] as above. *)
Definition resolveLinkWith (processLinksAt : string -> M string)
    (linkContent : string) : M string :=
  match truthyProperty (substitutes env) linkContent with
  | Some value => processLinksAt value
  | None =>
      if Js.endsWith linkContent "/*"
      then resolveFolderWildcardWith processLinksAt linkContent else
      let rootPath := rootPath env in
      if String.eqb rootPath "" then throw RootPathNotSet else
      let filePath :=
        if Path.isAbsolute linkContent then linkContent
        else Path.resolve (cwd env) [rootPath; linkContent] in
      let normalizedRoot := Path.resolve (cwd env) [rootPath] in
      let normalizedFile := Path.resolve (cwd env) [filePath] in
      if negb (Js.startsWith normalizedFile normalizedRoot)
      then throw (FilePathOutsideRoot linkContent) else
      let* found := pathExists env filePath in
      if negb found then throw (FileNotFound linkContent) else
      let ext := Js.toLowerCase (Path.extname filePath) in
      if negb (bool_decide (ext ∈ supportedExtensions))
      then throw (UnsupportedFileType ext) else
      tryCatch
        (let* fileContent := readFile env filePath in
         processLinksAt fileContent)
        (fun e => throw (FailedToReadFile linkContent (message e)))
  end.

(** The body of the loop of [processLinks] for one match; [resolve] is
    [linkContent => this.resolveLink(linkContent, depth + 1)]. *)
Definition processMatch (resolve : string -> M string)
    (processed : string) (m : regexMatch) : M string :=
  let linkContent := Js.trim (m_group m) in
  let fullMatch := m_full m in
  tryCatch
    (let* replacement := resolve linkContent in
     ret (Js.replace processed fullMatch replacement))
    (fun e =>
       let* _ := emit (LogError ("Failed to resolve link: " +:+ linkContent)) in
       ret (Js.replace processed fullMatch (errorReplacement linkContent e))).

(** [processLinks(content, depth)] by recursion on the number of levels
    left, [maxDepth + 1 - depth]: none is left exactly when
    [depth > maxDepth], and one level lower [depth] is one more. *)
Fixpoint processLinksWithin (levels : nat) (content : string) : M string :=
  match levels with
  | O =>
      let* _ := emit (LogWarn maxDepthWarning) in
      ret content
  | S below =>
      forEach (LinkPattern.matchAll content)
        (processMatch (resolveLinkWith (processLinksWithin below)))
        content
  end.

Definition processLinks (content : string) (depth : nat) : M string :=
  processLinksWithin (S maxDepth - depth) content.

Definition resolveLink (linkContent : string) (depth : nat) : M string :=
  resolveLinkWith (fun content => processLinks content depth) linkContent.

Definition resolveFolderWildcard (linkContent : string) (depth : nat)
    : M string :=
  resolveFolderWildcardWith (fun content => processLinks content depth)
    linkContent.

(** The objects [extractLinks] returns. *)
Record link := {
  link_full : string;
  link_content : string;
  link_index : nat;
}.

Definition toLink (m : regexMatch) : link :=
  {| link_full := m_full m;
     link_content := Js.trim (m_group m);
     link_index := m_index m |}.

Definition extractLinks (content : string) : list link :=
  map toLink (LinkPattern.matchAll content).

(** The objects [validateLinks] returns. *)
Record validation := {
  v_link : string;
  v_valid : bool;
  v_error : option string;
}.

Definition validateLinks (content : string) : M (list validation) :=
  forEach (extractLinks content)
    (fun results l =>
       tryCatch
         (let* _ := resolveLink (link_content l) 0 in
          ret (results ++ [{| v_link := link_content l;
                              v_valid := true; v_error := None |}]))
         (fun e =>
            ret (results ++ [{| v_link := link_content l;
                                v_valid := false;
                                v_error := Some (message e) |}])))
    [].

End LinkProcessor.

(** ** The analyses: dependency tree and circular dependencies

    [getDependencyTree] and the [dfs] of [checkCircularDependencies] recurse
    without a depth counter.  They are defined with a number of nested calls
    allowed, [fuel]; [None] says that this number was not enough. *)

Definition F (A : Type) : Type := option (M A).

Definition liftF {A} (m : M A) : F A := Some m.

Definition bindF {A B} (m : F A) (k : A -> F B) : F B :=
  match m with
  | None => None
  | Some (Throw e, t1) => Some (Throw e, t1)
  | Some (Return a, t1) =>
      match k a with
      | None => None
      | Some (r, t2) => Some (r, t1 ++ t2)
      end
  end.

Definition tryCatchF {A} (m : F A) (handler : error -> F A) : F A :=
  match m with
  | None => None
  | Some (Return a, t1) => Some (Return a, t1)
  | Some (Throw e, t1) =>
      match handler e with
      | None => None
      | Some (r, t2) => Some (r, t1 ++ t2)
      end
  end.

Notation "'let+' x ':=' m 'in' k" := (bindF m (fun x => k))
  (at level 10, x name, m at level 100, k at level 200).

Fixpoint forEachF {A S} (xs : list A) (body : S -> A -> F S) (acc : S) : F S :=
  match xs with
  | [] => liftF (ret acc)
  | x :: rest => let+ acc' := body acc x in forEachF rest body acc'
  end.

(** The [type] of an entry of [tree.links], with the fields that go with it. *)
Inductive linkType :=
  | Circular
  | Substitute
  | File (path : string)
  | Missing
  | Failed (error : string).

Inductive tree :=
  | Tree (content : string) (links : list treeLink)
with treeLink :=
  | TreeLink (name : string) (type : linkType) (children : option tree).

(** [[...path.slice(cycleStart), key]] with [cycleStart = path.indexOf(key)];
    [indexOf] is [-1] when [key] is not in [path], and [slice(-1)] keeps the
    last element. *)
Fixpoint indexOf (key : string) (path : list string) : option nat :=
  match path with
  | [] => None
  | k :: rest =>
      if String.eqb k key then Some 0
      else match indexOf key rest with
           | Some i => Some (S i)
           | None => None
           end
  end.

Definition sliceFromIndexOf (key : string) (path : list string) : list string :=
  match indexOf key path with
  | Some cycleStart => drop cycleStart path
  | None => drop (length path - 1) path
  end.

(** The three variables [dfs] closes over. *)
Record dfsState := {
  visited : gset string;
  recursionStack : gset string;
  cycles : list (list string);
}.

Section Analyses.

Variable env : environment.

(** [content.substring(0, 100) + (content.length > 100 ? '...' : '')] *)
Definition excerpt (content : string) : string :=
  Str.take 100 content
  +:+ (if (100 <? String.length content)%nat then "..." else "").

(** The body of the [try] block of [getDependencyTree] for one link;
    [subtreeOf] is the recursive call on a copy of [visited]. *)
Definition describeLink (subtreeOf : string -> F tree) (name : string)
    : F treeLink :=
  match truthyProperty (substitutes env) name with
  | Some value =>
      let+ subtree := subtreeOf value in
      liftF (ret (TreeLink name Substitute (Some subtree)))
  | None =>
      let filePath :=
        if Path.isAbsolute name then name
        else Path.resolve (cwd env) [rootPath env; name] in
      let+ found := liftF (pathExists env filePath) in
      if found then
        let+ fileContent := liftF (readFile env filePath) in
        let+ subtree := subtreeOf fileContent in
        liftF (ret (TreeLink name (File filePath) (Some subtree)))
      else liftF (ret (TreeLink name Missing None))
  end.

(** [getDependencyTree(content, visited)].  The loop state is the set
    [visited] and [tree.links]. *)
Fixpoint getDependencyTree (fuel : nat) (content : string)
    (visited : gset string) : F tree :=
  match fuel with
  | O => None
  | S fuel' =>
      let+ st :=
        forEachF (extractLinks content)
          (fun '(visited, links) l =>
             let name := link_content l in
             if decide (name ∈ visited) then
               liftF (ret (visited, links ++ [TreeLink name Circular None]))
             else
               let visited := visited ∪ {[name]} in
               let+ entry :=
                 tryCatchF
                   (describeLink
                      (fun text => getDependencyTree fuel' text visited) name)
                   (fun e =>
                      liftF (ret (TreeLink name (Failed (message e)) None))) in
               liftF (ret (visited ∖ {[name]}, links ++ [entry])))
          (visited, []) in
      liftF (ret (Tree (excerpt content) (snd st)))
  end.

(** The loop of [dfs] over the links of a substitute:
    [if (substitutes[link.content]) dfs(link.content, [...path, key])];
    [dfsBelow] is the recursive call and [extended] is [[...path, key]]. *)
Definition dfsLinks
    (dfsBelow : string -> list string -> dfsState -> option dfsState)
    (extended : list string) (links : list link) (st : dfsState)
    : option dfsState :=
  foldl
    (fun acc l =>
       match acc with
       | None => None
       | Some st =>
           match truthyProperty (substitutes env) (link_content l) with
           | Some _ => dfsBelow (link_content l) extended st
           | None => Some st
           end
       end)
    (Some st) links.

(** The local function [dfs(key, path)] of [checkCircularDependencies]. *)
Fixpoint dfs (fuel : nat) (key : string) (path : list string)
    (st : dfsState) : option dfsState :=
  match fuel with
  | O => None
  | S fuel' =>
      if decide (key ∈ recursionStack st) then
        Some {| visited := visited st;
                recursionStack := recursionStack st;
                cycles := cycles st ++ [sliceFromIndexOf key path ++ [key]] |}
      else if decide (key ∈ visited st) then Some st
      else
        let st := {| visited := visited st ∪ {[key]};
                     recursionStack := recursionStack st ∪ {[key]};
                     cycles := cycles st |} in
        let explored :=
          match truthyProperty (substitutes env) key with
          | Some content =>
              dfsLinks (dfs fuel') (path ++ [key]) (extractLinks content) st
          | None => Some st
          end in
        match explored with
        | None => None
        | Some st =>
            Some {| visited := visited st;
                    recursionStack := recursionStack st ∖ {[key]};
                    cycles := cycles st |}
        end
  end.

(** The loop of [checkCircularDependencies] over [Object.keys(substitutes)]. *)
Definition dfsKeys (fuel : nat) (keys : list string) (st : dfsState)
    : option dfsState :=
  foldl
    (fun acc key =>
       match acc with
       | None => None
       | Some st =>
           if decide (key ∈ visited st) then Some st
           else dfs fuel key [] st
       end)
    (Some st) keys.

(** [checkCircularDependencies()].  No call of [dfs] nests deeper than the
    number of substitutes, plus one. *)
Definition checkCircularDependencies : option (list (list string)) :=
  match dfsKeys (S (length (substitutes env))) (map fst (substitutes env))
          {| visited := ∅; recursionStack := ∅; cycles := [] |} with
  | None => None
  | Some st => Some (cycles st)
  end.

End Analyses.

(** ** Vocabulary of the properties *)

Module Marker.

(** A text the capture group of the pattern can match: one character at
    least, none of them a closing brace. *)
Definition isGroup (g : string) : Prop :=
  g <> "" /\ Str.all LinkPattern.notClosingBrace g = true.

(** A marker with inner text [g] starts at offset [i] of [content]. *)
Definition occursAt (content : string) (i : nat) (g : string) : Prop :=
  isGroup g
  /\ exists before after,
       content = before +:+ "{{" +:+ g +:+ "}}" +:+ after
       /\ String.length before = i.

(** The same, told by the scanner's own test at offset [i]. *)
Definition matchesAt (s : string) (i : nat) (g : string) : Prop :=
  LinkPattern.matchAt (Str.drop i s) = Some g.

(** The links come one after the other, none starting before [from] nor
    before the end of the link that precedes it. *)
Fixpoint inOrderFrom (from : nat) (links : list link) : Prop :=
  match links with
  | [] => True
  | l :: rest =>
      from <= link_index l
      /\ inOrderFrom (link_index l + String.length (link_full l)) rest
  end.

End Marker.

(** What [validateLinks] reports for a link whose resolution ended with [r]. *)
Definition validationOf (l : link) (r : outcome string) : validation :=
  match r with
  | Return _ =>
      {| v_link := link_content l; v_valid := true; v_error := None |}
  | Throw e =>
      {| v_link := link_content l; v_valid := false;
         v_error := Some (message e) |}
  end.


(** The part of the text of a folder that one file gives: its heading,
    then its content or, when it cannot be read, the error. *)
Definition fileSection (env : environment) (fullFolderPath file : string)
    : string :=
  fileHeader file
  +:+ match fs_readFile (fs env) (Path.join [fullFolderPath; file]) with
      | Return fileContent => fileContent
      | Throw e =>
          "[ERROR: Failed to read file - " +:+ message e +:+ "]"
          +:+ String "010" ""
      end.

Definition folderText (env : environment) (fullFolderPath : string)
    (files : list string) : string :=
  Js.join (map (fileSection env fullFolderPath) files).

(** What reading one file of a folder asks and logs. *)
Definition fileRequests (env : environment)
    (folderPath fullFolderPath file : string) : list event :=
  ReadFile (Path.join [fullFolderPath; file])
  :: match fs_readFile (fs env) (Path.join [fullFolderPath; file]) with
     | Return _ => []
     | Throw _ =>
         [LogError ("Failed to read file " +:+ file
                    +:+ " from folder " +:+ folderPath +:+ ":")]
     end.

(** The graph of the substitutes. *)
Module Graph.

(** The names with a value to expand. *)
Definition nodes (subs : list (string * string)) : gset string :=
  list_to_set (map fst subs).

(** The names [dfs] has not visited yet. *)
Definition unvisited (subs : list (string * string)) (st : dfsState)
    : gset string :=
  nodes subs ∖ visited st.

(** From [a] to [b]: a marker in the value of the substitute [a] names [b],
    and [b] is a substitute too. *)
Definition edge (subs : list (string * string)) (a b : string) : Prop :=
  exists content,
    truthyProperty subs a = Some content
    /\ b ∈ map link_content (extractLinks content)
    /\ is_Some (truthyProperty subs b).

(** Each name has an edge to the next one. *)
Fixpoint walk (subs : list (string * string)) (names : list string) : Prop :=
  match names with
  | a :: rest =>
      match rest with
      | b :: _ => edge subs a b /\ walk subs rest
      | [] => True
      end
  | [] => True
  end.

(** A walk that comes back to the name it starts from. *)
Definition isCycle (subs : list (string * string)) (c : list string) : Prop :=
  (exists key inner, c = key :: inner ++ [key]) /\ walk subs c.

End Graph.

(** The events that are requests to the file system. *)
Definition isRequest (ev : event) : bool :=
  match ev with
  | LogWarn _ | LogError _ => false
  | PathExists _ | Stat _ | Readdir _ | ReadFile _ => true
  end.

(** ** Environments of the examples *)

Module Examples.

(** A file system with nothing in it. *)
Definition emptyFs : fileSystem := {|
  fs_pathExists := fun _ => false;
  fs_isDirectory := fun _ => Throw (IoError "ENOENT: no such file or directory");
  fs_readdir := fun _ => Throw (IoError "ENOENT: no such file or directory");
  fs_readFile := fun _ => Throw (IoError "ENOENT: no such file or directory");
|}.

(** Substitutes only: no root is configured and there is no file. *)
Definition substitutesOnly (subs : list (string * string)) : environment := {|
  substitutes := subs;
  rootPath := "";
  cwd := "/srv/app";
  fs := emptyFs;
|}.

(** A file system given by the list of its files, with their contents, and
    the list of its directories, with their entries. *)
Definition listedFs (files : list (string * string))
    (directories : list (string * list string)) : fileSystem := {|
  fs_pathExists := fun p =>
    bool_decide (p ∈ files.*1) || bool_decide (p ∈ directories.*1);
  fs_isDirectory := fun p =>
    if bool_decide (p ∈ directories.*1) then Return true
    else if bool_decide (p ∈ files.*1) then Return false
    else Throw (IoError "ENOENT: no such file or directory");
  fs_readdir := fun p =>
    match list_find (fun d => d.1 = p) directories with
    | Some (_, d) => Return d.2
    | None => Throw (IoError "ENOTDIR: not a directory")
    end;
  fs_readFile := fun p =>
    match getProperty files p with
    | Some text => Return text
    | None => Throw (IoError "ENOENT: no such file or directory")
    end;
|}.

Definition chain : environment :=
  substitutesOnly [("top", "{{mid}}"); ("mid", "{{leaf}}"); ("leaf", "done")].

Definition twoCycle : environment :=
  substitutesOnly [("A", "{{B}}"); ("B", "{{A}}")].

Definition greeting : environment := substitutesOnly [("ok", "hello")].

Definition shellSnippet : environment :=
  substitutesOnly [("pid", "echo $$")].

Definition braces : environment :=
  substitutesOnly [("A", "{{L}}{B}}"); ("L", "{"); ("B", "hello")].

Definition emptyDraft : environment := substitutesOnly [("draft", "")].

(** The root is [/root]; next to it lies [/root-evil]. *)
Definition siblingOfRoot : environment := {|
  substitutes := [];
  rootPath := "/root";
  cwd := "/srv/app";
  fs := listedFs [("/root-evil/secret.md", "secret")]
                 [("/root-evil", ["secret.md"])];
|}.

(** The root is [/data/root]; [/etc/passwd] is a file outside of it. *)
Definition passwd (root : string) : environment := {|
  substitutes := [];
  rootPath := root;
  cwd := "/srv/app";
  fs := listedFs [("/etc/passwd", "root:x:0:0")] [];
|}.

(** A directory with the files [b.txt], [a.md] and [c.png]; [b.txt] cannot
    be read. *)
Definition notes : environment := {|
  substitutes := [];
  rootPath := "/data/root";
  cwd := "/srv/app";
  fs := listedFs [("/data/root/notes/a.md", "alpha");
                  ("/data/root/notes/c.png", "PNG")]
                 [("/data/root/notes", ["b.txt"; "a.md"; "c.png"]);
                  ("/data/root/empty", ["c.png"])];
|}.

End Examples.

(** ** Vocabulary of further properties *)

(** A match, and a link, found [offset] characters further to the right. *)
Definition shiftMatch (offset : nat) (m : regexMatch) : regexMatch :=
  {| m_full := m_full m; m_group := m_group m; m_index := offset + m_index m |}.

Definition shiftLink (offset : nat) (l : link) : link :=
  {| link_full := link_full l;
     link_content := link_content l;
     link_index := offset + link_index l |}.

(** The path [p] has passed the test of the root that [resolveLink] and
    [resolveFolderWildcard] make: a root is configured, and the resolved
    path starts with the text of the resolved root. *)
Definition passedRootTest (env : environment) (p : string) : Prop :=
  rootPath env <> ""
  /\ Js.startsWith (Path.resolve (cwd env) [p])
       (Path.resolve (cwd env) [rootPath env]) = true.

(** What [processLinks] may ask of the file system: whether a path that
    passed the test exists, what kind of entry it is and what it lists; the
    content of such a path when its extension is supported, and the content
    of a supported entry that the listing of a folder that passed the test
    returned, at the path of the folder joined with the name of the
    entry. *)
Definition allowedEvent (env : environment) (ev : event) : Prop :=
  match ev with
  | LogWarn _ | LogError _ => True
  | PathExists p | Stat p | Readdir p => passedRootTest env p
  | ReadFile p =>
      (passedRootTest env p /\ isSupported p = true)
      \/ exists folder files file,
           passedRootTest env folder
           /\ fs_readdir (fs env) folder = Return files
           /\ file ∈ files
           /\ isSupported file = true
           /\ p = Path.join [folder; file]
  end.

(** The fields of an entry of [tree.links]. *)
Definition linkName (entry : treeLink) : string :=
  match entry with TreeLink name _ _ => name end.

Definition linkKind (entry : treeLink) : linkType :=
  match entry with TreeLink _ type _ => type end.

Definition linkChildren (entry : treeLink) : option tree :=
  match entry with TreeLink _ _ children => children end.

Definition treeLinks (t : tree) : list treeLink :=
  match t with Tree _ links => links end.

Definition treeContent (t : tree) : string :=
  match t with Tree content _ => content end.

(** The names of the members that every object inherits from
    [Object.prototype].  Where the substitute mapping has no property of its
    own by such a name, [substitutes[name]] is the inherited member, which
    is truthy and is no string.  The embedding of the link processor takes
    the mapping by its own properties, and the properties below say where
    they are about references that are no such names. *)
Definition objectPrototypeNames : list string :=
  ["constructor"; "__defineGetter__"; "__defineSetter__"; "hasOwnProperty";
   "__lookupGetter__"; "__lookupSetter__"; "isPrototypeOf";
   "propertyIsEnumerable"; "toString"; "valueOf"; "__proto__";
   "toLocaleString"].

(** [name] is found in the mapping only as an inherited member. *)
Definition inheritedOnly (subs : list (string * string)) (name : string)
    : bool :=
  bool_decide (name ∈ objectPrototypeNames)
  && match getProperty subs name with
     | Some _ => false
     | None => true
     end.

(** A continuation of the resolver that always returns. *)
Definition neverThrows (processLinksAt : string -> M string) : Prop :=
  forall content, exists text t, processLinksAt content = (Return text, t).

(** The path that [getDependencyTree] gives to the file system for a link
    that is not a substitute. *)
Definition dependencyPath (env : environment) (name : string) : string :=
  if Path.isAbsolute name then name
  else Path.resolve (cwd env) [rootPath env; name].

(** The [type] that [getDependencyTree] gives to a link, told from the
    names above it, the substitutes and the file system. *)
Definition expectedKind (env : environment) (visited : gset string)
    (name : string) : linkType :=
  if decide (name ∈ visited) then Circular
  else match truthyProperty (substitutes env) name with
       | Some _ => Substitute
       | None =>
           if fs_pathExists (fs env) (dependencyPath env name) then
             match fs_readFile (fs env) (dependencyPath env name) with
             | Return _ => File (dependencyPath env name)
             | Throw e => Failed (message e)
             end
           else Missing
       end.

(** An entry of the tree has children when it is a substitute or a file. *)
Definition hasChildren (kind : linkType) : bool :=
  match kind with
  | Substitute | File _ => true
  | Circular | Missing | Failed _ => false
  end.

(** What holds of the entry that [getDependencyTree] makes for the link [l]
    under the names [visited]. *)
Definition entryFor (env : environment) (visited : gset string) (l : link)
    (entry : treeLink) : Prop :=
  linkName entry = link_content l
  /\ linkKind entry = expectedKind env visited (link_content l)
  /\ (is_Some (linkChildren entry) <-> hasChildren (linkKind entry) = true).

(** ** Vocabulary of the cycle detection *)

(** No walk along the edges of the substitutes comes back to where it
    starts. *)
Definition acyclic (subs : list (string * string)) : Prop :=
  forall c, ~ Graph.isCycle subs c.

(** The names [dfs] is done with, visited and no longer on the recursion
    stack, are closed under the edges, and [rank] goes down along every edge
    that leaves one of them. *)
Definition settled (subs : list (string * string)) (st : dfsState)
    (rank : string -> nat) : Prop :=
  forall a b,
    a ∈ visited st -> a ∉ recursionStack st -> Graph.edge subs a b ->
    b ∈ visited st /\ (b ∉ recursionStack st) /\ rank b < rank a.

(** A reported cycle that names its first substitute again at its end and
    nowhere else, and every other substitute once. *)
Definition simpleCycle (c : list string) : Prop :=
  exists key inner, c = key :: inner ++ [key] /\ NoDup (key :: inner).

(** ** [DataManager.validateData]

    The data manager has a traversal of its own for the circular references
    of the substitutes.  It reads the same two fields that [getSubstitutes()]
    and [getRootPath()] hand to the link processor, the fields [substitutes]
    and [rootPath] of the environment.  Its info-level log line is not
    traced. *)

Module DataManager.

(** [parts.join(sep)] *)
Fixpoint joinWith (sep : string) (parts : list string) : string :=
  match parts with
  | [] => ""
  | p :: rest =>
      match rest with
      | [] => p
      | _ :: _ => p +:+ sep +:+ joinWith sep rest
      end
  end.

(** [link.slice(2, -2)] *)
Definition sliceInner (link : string) : string :=
  Js.sliceEnd 2 (Str.drop 2 link).

(** [content.match(/\{\{([^}]+)\}\}/g) || []]: the texts of the matches. *)
Definition matchTexts (content : string) : list string :=
  map m_full (LinkPattern.matchAll content).

(** What [this.substitutes[key]] gives: the value of a property of the
    mapping's own, the member that every object inherits under that name,
    or [undefined]. *)
Inductive member :=
  | Own (value : string)
  | Inherited
  | Undefined.

Definition getMember (obj : list (string * string)) (key : string) : member :=
  match getProperty obj key with
  | Some value => Own value
  | None =>
      if bool_decide (key ∈ objectPrototypeNames) then Inherited
      else Undefined
  end.

(** The three variables [checkCircular] closes over. *)
Record checkState := {
  visited : gset string;
  recursionStack : gset string;
  issues : list string;
}.

(** A call of [checkCircular] ends with the three variables in some state,
    or with the [TypeError] of [content.match] where [content] is no
    string. *)
Inductive checked :=
  | Checked (st : checkState)
  | TypeError (message : string).

(** What [validateData] comes to: the issues it returns, with what it
    logged and asked, or the error that leaves it. *)
Inductive validated :=
  | Returns (issues : list string) (t : list event)
  | Throws (message : string).

Section ValidateData.

Variable env : environment.

Definition circularIssue (path : list string) (key : string) : string :=
  "Circular reference detected in substitutes: "
  +:+ joinWith " -> " path +:+ " -> " +:+ key.

(** The loop of [checkCircular] over the matches of a substitute:
    [if (this.substitutes[linkKey]) checkCircular(linkKey, [...path, key])];
    an inherited member is truthy, like a value that is not empty. *)
Definition checkLinks
    (checkBelow : string -> list string -> checkState -> option checked)
    (extended : list string) (links : list string) (st : checkState)
    : option checked :=
  foldl
    (fun acc link =>
       match acc with
       | Some (Checked st) =>
           let linkKey := sliceInner link in
           match getMember (substitutes env) linkKey with
           | Own (String _ _) | Inherited => checkBelow linkKey extended st
           | Own EmptyString | Undefined => Some (Checked st)
           end
       | Some (TypeError message) => Some (TypeError message)
       | None => None
       end)
    (Some (Checked st)) links.

(** The local function [checkCircular(key, path)] of [validateData].  Where
    [content] is an inherited member, [content.match] is not a function. *)
Fixpoint checkCircular (fuel : nat) (key : string) (path : list string)
    (st : checkState) : option checked :=
  match fuel with
  | O => None
  | S fuel' =>
      if decide (key ∈ recursionStack st) then
        Some (Checked
                {| visited := visited st;
                   recursionStack := recursionStack st;
                   issues := issues st ++ [circularIssue path key] |})
      else if decide (key ∈ visited st) then Some (Checked st)
      else
        let st := {| visited := visited st ∪ {[key]};
                     recursionStack := recursionStack st ∪ {[key]};
                     issues := issues st |} in
        let explored :=
          match getMember (substitutes env) key with
          | Own (String c s) =>
              checkLinks (checkCircular fuel') (path ++ [key])
                (matchTexts (String c s)) st
          | Inherited => Some (TypeError "content.match is not a function")
          | Own EmptyString | Undefined => Some (Checked st)
          end in
        match explored with
        | Some (Checked st) =>
            Some (Checked
                    {| visited := visited st;
                       recursionStack := recursionStack st ∖ {[key]};
                       issues := issues st |})
        | Some (TypeError message) => Some (TypeError message)
        | None => None
        end
  end.

(** [for (const key of Object.keys(this.substitutes)) checkCircular(key)] *)
Definition checkKeys (fuel : nat) (keys : list string) (st : checkState)
    : option checked :=
  foldl
    (fun acc key =>
       match acc with
       | Some (Checked st) => checkCircular fuel key [] st
       | Some (TypeError message) => Some (TypeError message)
       | None => None
       end)
    (Some (Checked st)) keys.

Definition rootIssue : string :=
  "Root path does not exist: " +:+ rootPath env.

(** What follows the traversal: the test of the root path, the warning, and
    the return. *)
Definition reportIssues (st : checkState) : M (list string) :=
  let* issues :=
    match rootPath env with
    | EmptyString => ret (issues st)
    | String _ _ =>
        let* found := pathExists env (rootPath env) in
        ret (if found then issues st else issues st ++ [rootIssue])
    end in
  let* _ :=
    match issues with
    | [] => ret tt
    | _ :: _ => emit (LogWarn "Validation issues:")
    end in
  ret issues.

(** [validateData()], with as many nested calls of [checkCircular] allowed
    as [checkCircularDependencies] allows to its [dfs].  Nothing in it
    catches an error. *)
Definition validateData : option validated :=
  match checkKeys (S (length (substitutes env))) (map fst (substitutes env))
          {| visited := ∅; recursionStack := ∅; issues := [] |} with
  | None => None
  | Some (TypeError message) => Some (Throws message)
  | Some (Checked st) =>
      match reportIssues st with
      | (Return issues, t) => Some (Returns issues t)
      | (Throw e, _) => Some (Throws (message e))
      end
  end.

End ValidateData.

End DataManager.

(** The markers of the values carry no white space around their names. *)
Definition trimmedMarkers (subs : list (string * string)) : bool :=
  forallb
    (fun entry =>
       forallb (fun m => String.eqb (Js.trim (m_group m)) (m_group m))
         (LinkPattern.matchAll (snd entry)))
    subs.

(** No marker of a value gives the name of an inherited member alone. *)
Definition ownMarkers (subs : list (string * string)) : bool :=
  forallb
    (fun entry =>
       forallb (fun m => negb (inheritedOnly subs (m_group m)))
         (LinkPattern.matchAll (snd entry)))
    subs.

(** The issue [validateData] writes for a cycle: after its heading it ends
    with the names of the cycle, joined by arrows. *)
Definition reports (cycle : list string) (issue : string) : Prop :=
  exists prefix,
    issue = "Circular reference detected in substitutes: "
            +:+ prefix +:+ DataManager.joinWith " -> " cycle.

(** The two traversals are in step. *)
Definition inStep (st : dfsState) (cs : DataManager.checkState) : Prop :=
  visited st = DataManager.visited cs
  /\ recursionStack st = DataManager.recursionStack cs
  /\ Forall2 reports (cycles st) (DataManager.issues cs).

Definition inStepOption (r : option dfsState)
    (c : option DataManager.checked) : Prop :=
  match r, c with
  | Some st, Some (DataManager.Checked cs) => inStep st cs
  | None, None => True
  | _, _ => False
  end.

(** The root path is set and nothing exists there. *)
Definition rootMissing (env : environment) : bool :=
  negb (String.eqb (rootPath env) "")
  && negb (fs_pathExists (fs env) (rootPath env)).

(** A substitute that names itself, with spaces inside the braces. *)
Definition spacedSelfReference : environment :=
  Examples.substitutesOnly [("A", "see {{ A }}")].

(** A substitute whose marker gives the name of an inherited member. *)
Definition inheritedMarker : environment :=
  Examples.substitutesOnly [("A", "{{constructor}}")].

(** ** [Logger]: which calls write a line

    The processor reports through [logger.warn], [logger.error] and
    [logger.debug].  A line that is written goes to the console and to the
    log file; it is kept here as the level and the message. *)

Module Logger.

(** [process.env], as far as the logger reads it; [None] is [undefined]. *)
Record processEnv := {
  LOG_LEVEL : option string;
  DEBUG_MODE : option string;
}.

(** What [this.levels[name]] is worth in a comparison: the number of one of
    the four levels; for the name of a member that the object inherits, the
    text that this member converts to; or [undefined]. *)
Inductive levelValue :=
  | LevelNumber (n : nat)
  | MemberText (text : string)
  | NoLevel.

(** The text that an inherited member converts to, as Node prints it: the
    members are functions, but for [__proto__], which is the prototype
    object itself. *)
Definition memberText (name : string) : string :=
  if String.eqb name "__proto__" then "[object Object]"
  else if String.eqb name "constructor"
  then "function Object() { [native code] }"
  else "function " +:+ name +:+ "() { [native code] }".

Definition levels (name : string) : levelValue :=
  if String.eqb name "error" then LevelNumber 0
  else if String.eqb name "warn" then LevelNumber 1
  else if String.eqb name "info" then LevelNumber 2
  else if String.eqb name "debug" then LevelNumber 3
  else if bool_decide (name ∈ objectPrototypeNames)
  then MemberText (memberText name)
  else NoLevel.

(** [a <= b] on such values: two numbers are compared as numbers, two texts
    as texts, code unit by code unit; a text of a member is no numeral, so
    that a number and a text compare as a number with [NaN], which is
    false, as every comparison with [undefined] is. *)
Definition lessOrEqual (a b : levelValue) : bool :=
  match a, b with
  | LevelNumber x, LevelNumber y => (x <=? y)%nat
  | MemberText s, MemberText t => String.leb s t
  | _, _ => false
  end.

Section Logger.

Variable penv : processEnv.

(** [process.env.LOG_LEVEL || 'info'] *)
Definition logLevel : string :=
  match LOG_LEVEL penv with
  | Some (String c s) => String c s
  | _ => "info"
  end.

(** [process.env.DEBUG_MODE === 'true'] *)
Definition debugMode : bool :=
  match DEBUG_MODE penv with
  | Some value => String.eqb value "true"
  | None => false
  end.

(** [this.levels[level] <= this.levels[this.logLevel]] *)
Definition shouldLog (level : string) : bool :=
  lessOrEqual (levels level) (levels logLevel).

(** [log(level, message)] *)
Definition log (level message : string) : list (string * string) :=
  if shouldLog level then [(level, message)] else [].

Definition error (message : string) : list (string * string) :=
  log "error" message.

Definition warn (message : string) : list (string * string) :=
  log "warn" message.

Definition info (message : string) : list (string * string) :=
  log "info" message.

Definition debug (message : string) : list (string * string) :=
  if debugMode then log "debug" message else [].

End Logger.

(** What the logger writes for the events of a trace. *)
Definition written (penv : processEnv) (t : list event)
    : list (string * string) :=
  flat_map
    (fun ev =>
       match ev with
       | LogWarn msg => warn penv msg
       | LogError msg => error penv msg
       | _ => []
       end)
    t.

End Logger.

(** A trace of an expansion that has not met the depth bound. *)
Definition withinBound (t : list event) : Prop :=
  LogWarn maxDepthWarning ∉ t.

(** The text that [processLinks], called at [depth], puts in the place of a
    marker with inner text [group]: what [resolveLink] returned for the
    trimmed reference, or the marker written again with the error. *)
Definition replacementOf (env : environment) (depth : nat) (group : string)
    : string :=
  match result (resolveLink env (Js.trim group) (depth + 1)) with
  | Return replacement => replacement
  | Throw e => errorReplacement (Js.trim group) e
  end.

(** A directory whose only file, [a.md], holds a marker of the substitute
    [ok]. *)
Definition linkedNotes : environment := {|
  substitutes := [("ok", "hello")];
  rootPath := "/data/root";
  cwd := "/srv/app";
  fs := Examples.listedFs [("/data/root/notes/a.md", "see {{ok}}")]
                          [("/data/root/notes", ["a.md"])];
|}.

(** * Properties *)

(** ** Sanity checks of the primitives *)

Example resolve_relative :
  Path.resolve "/srv/app" ["/data/root"; "notes/../a.md"] = "/data/root/a.md".
Proof. reflexivity. Qed.

Example resolve_climbs_out :
  Path.resolve "/srv/app" ["/data/root"; "../../etc/passwd"] = "/etc/passwd".
Proof. reflexivity. Qed.

Example resolve_uses_cwd :
  Path.resolve "/srv/app" [""; "a//b/./c/"] = "/srv/app/a/b/c".
Proof. reflexivity. Qed.

Example join_folder_file :
  Path.join ["/data/root/notes"; "a.md"] = "/data/root/notes/a.md".
Proof. reflexivity. Qed.

Example extname_cases :
  map Path.extname ["a.md"; "dir.d/b.TXT"; ".hidden"; "c."; "d"; ".."; "e.md/"; "x/.y.z"]
  = [".md"; ".TXT"; ""; "."; ""; ""; ".md"; ".z"].
Proof. reflexivity. Qed.

Example trim_and_lower :
  Js.trim "  a b	 " = "a b" /\ Js.toLowerCase ".MD" = ".md".
Proof. split; reflexivity. Qed.

Example replace_first_only :
  Js.replace "x {{a}} y {{a}}" "{{a}}" "A" = "x A y {{a}}".
Proof. reflexivity. Qed.

Example replace_dollar_patterns :
  Js.replace "x {{a}} y" "{{a}}" "[$$|$&|$`|$'|$1]" = "x [$|{{a}}|x | y|$1] y".
Proof. reflexivity. Qed.

(** ** Facts about strings *)

Module StrFacts.

Lemma app_nil_l s : "" +:+ s = s.
Proof. reflexivity. Qed.

Lemma app_cons c s t : String c s +:+ t = String c (s +:+ t).
Proof. reflexivity. Qed.

Lemma app_nil_r s : s +:+ "" = s.
Proof. induction s as [|c s IH]; [done|]. by rewrite app_cons, IH. Qed.

Lemma app_assoc s t u : (s +:+ t) +:+ u = s +:+ t +:+ u.
Proof. induction s as [|c s IH]; [done|]. by rewrite !app_cons, IH. Qed.

Lemma length_app s t :
  String.length (s +:+ t) = String.length s + String.length t.
Proof. induction s as [|c s IH]; [done|]. rewrite app_cons. simpl. by rewrite IH. Qed.

Lemma drop_app s t : Str.drop (String.length s) (s +:+ t) = t.
Proof. induction s as [|c s IH]; [by destruct t|]. by rewrite app_cons. Qed.

Lemma take_app s t : Str.take (String.length s) (s +:+ t) = s.
Proof.
  induction s as [|c s IH]; [by destruct t|].
  rewrite app_cons. simpl. by rewrite IH.
Qed.

Lemma take_drop n s : Str.take n s +:+ Str.drop n s = s.
Proof.
  revert s. induction n as [|n IH]; intros [|c s]; try done.
  simpl. by rewrite app_cons, IH.
Qed.

Lemma drop_drop n m s : Str.drop n (Str.drop m s) = Str.drop (m + n) s.
Proof.
  revert s. induction m as [|m IH]; intros s; [done|].
  destruct s as [|c s]; [by destruct n|]. simpl. apply IH.
Qed.

Lemma length_take n s : n <= String.length s -> String.length (Str.take n s) = n.
Proof.
  revert s. induction n as [|n IH]; intros [|c s] Hn; simpl in *; try done; try lia.
  rewrite IH; lia.
Qed.

Lemma strip_app p s : Str.strip p (p +:+ s) = Some s.
Proof.
  induction p as [|c p IH]; [done|].
  rewrite app_cons. simpl. by rewrite Ascii.eqb_refl.
Qed.

Lemma strip_Some p s rest : Str.strip p s = Some rest -> s = p +:+ rest.
Proof.
  revert s. induction p as [|a p IH]; intros s H.
  - simpl in H. by destruct s; inversion H.
  - destruct s as [|b s]; [done|]. simpl in H.
    destruct (Ascii.eqb_spec a b) as [->|]; [|done].
    rewrite app_cons. f_equal. by apply IH.
Qed.

Lemma strip_None p s : Str.strip p s = None -> forall rest, s <> p +:+ rest.
Proof. intros H rest ->. by rewrite strip_app in H. Qed.

(** [Str.cut] finds an occurrence, and it is the first one. *)
Lemma cut_Some p s before after :
  Str.cut p s = Some (before, after) -> s = before +:+ p +:+ after.
Proof.
  revert before. induction s as [|c s IH]; intros before H.
  - simpl in H. destruct (Str.strip p "") eqn:E; [|done].
    inversion H; subst. by apply strip_Some in E.
  - simpl in H. destruct (Str.strip p (String c s)) eqn:E.
    + inversion H; subst. by apply strip_Some in E.
    + destruct (Str.cut p s) as [[b a]|]; [|done].
      inversion H; subst. rewrite app_cons. f_equal. by apply IH.
Qed.

Lemma cut_first p s before after :
  Str.cut p s = Some (before, after) ->
  forall before' after', s = before' +:+ p +:+ after' ->
  String.length before <= String.length before'.
Proof.
  revert before. induction s as [|c s IH]; intros before H before' after' Hs.
  - simpl in H. destruct (Str.strip p ""); [|done].
    inversion H; subst. simpl; lia.
  - simpl in H. destruct (Str.strip p (String c s)) eqn:E.
    + inversion H; subst. simpl; lia.
    + destruct (Str.cut p s) as [[b a]|] eqn:Hc; [|done].
      inversion H; subst.
      destruct before' as [|c' before'].
      * exfalso. by eapply strip_None.
      * rewrite app_cons in Hs. inversion Hs; subst.
        simpl. apply le_n_S. by eapply IH.
Qed.

Lemma cut_None p s :
  Str.cut p s = None -> forall before after, s <> before +:+ p +:+ after.
Proof.
  induction s as [|c s IH]; intros H before after Hs.
  - simpl in H. destruct (Str.strip p "") eqn:E; [done|].
    destruct before; [|done]. by eapply strip_None.
  - simpl in H. destruct (Str.strip p (String c s)) eqn:E; [done|].
    destruct (Str.cut p s) as [[b a]|] eqn:Hc; [done|].
    destruct before as [|c' before].
    + by eapply strip_None.
    + rewrite app_cons in Hs. inversion Hs; subst. by eapply IH.
Qed.

(** A template without a dollar is substituted as it is. *)
Lemma getSubstitution_plain matched before after template :
  Str.contains "$" template = false ->
  Js.getSubstitution matched before after template = template.
Proof.
  unfold Str.contains. rewrite negb_false_iff.
  induction template as [|c t IH]; [done|].
  simpl. intros [Hc Ht]%andb_prop.
  apply negb_true_iff in Hc. rewrite Hc. f_equal. by apply IH.
Qed.

(** [Js.replace] puts a dollar-free replacement, as it is, in the place
    of the first occurrence of the pattern. *)
Lemma replace_first s pattern replacement before after :
  Str.cut pattern s = Some (before, after) ->
  Str.contains "$" replacement = false ->
  Js.replace s pattern replacement = before +:+ replacement +:+ after.
Proof.
  intros Hcut Hplain. unfold Js.replace. rewrite Hcut.
  by rewrite getSubstitution_plain.
Qed.

Lemma replace_absent s pattern replacement :
  Str.cut pattern s = None -> Js.replace s pattern replacement = s.
Proof. intros H. unfold Js.replace. by rewrite H. Qed.

End StrFacts.

(** ** Facts about computations *)

Section Computations.

Context {A : Type}.

Lemma bind_Return {B} (a : A) (t : list event) (k : A -> M B) :
  bind (Return a, t) k = (result (k a), t ++ trace (k a)).
Proof. unfold bind, result, trace. by destruct (k a). Qed.

Lemma bind_Throw {B} (e : error) (t : list event) (k : A -> M B) :
  bind (Throw e, t) k = (Throw e, t).
Proof. reflexivity. Qed.

Lemma tryCatch_Return (a : A) (t : list event) handler :
  tryCatch (Return a, t) handler = (Return a, t).
Proof. reflexivity. Qed.

Lemma tryCatch_Throw (e : error) (t : list event) (handler : error -> M A) :
  tryCatch (Throw e, t) handler
  = (result (handler e), t ++ trace (handler e)).
Proof. unfold tryCatch, result, trace. by destruct (handler e). Qed.

End Computations.

Section Loops.

Context {A S : Type}.

Lemma forEach_nil (body : S -> A -> M S) (acc : S) :
  forEach [] body acc = ret acc.
Proof. reflexivity. Qed.

Lemma forEach_cons (x : A) (xs : list A) (body : S -> A -> M S) (acc : S) :
  forEach (x :: xs) body acc
  = bind (body acc x) (fun acc' => forEach xs body acc').
Proof. reflexivity. Qed.

(** A loop whose body never throws does not throw. *)
Lemma forEach_returns (xs : list A) (body : S -> A -> M S) (acc : S) :
  (forall acc x, exists acc' t, body acc x = (Return acc', t)) ->
  exists final t, forEach xs body acc = (Return final, t).
Proof.
  intros Hbody. revert acc. induction xs as [|x xs IH]; intros acc.
  - by exists acc, [].
  - rewrite forEach_cons. destruct (Hbody acc x) as (acc' & t & ->).
    destruct (IH acc') as (final & t' & Hrest).
    rewrite bind_Return, Hrest. by exists final, (t ++ t').
Qed.

End Loops.

(** Runs the binds and handlers whose first computation is known. *)
Ltac run :=
  repeat first
    [ rewrite bind_Return | rewrite bind_Throw
    | rewrite tryCatch_Return | rewrite tryCatch_Throw
    | progress cbn beta iota delta [result trace fst snd ret throw emit] ].

(** ** The depth bound (C1) *)

Section DepthBound.

Variable env : environment.

(** The [try]/[catch] around one link turns every exception into text. *)
Lemma processMatch_returns resolve processed m :
  exists text t, processMatch resolve processed m = (Return text, t).
Proof.
  unfold processMatch.
  destruct (resolve (Js.trim (m_group m))) as [[replacement|e] t].
  - rewrite bind_Return. simpl. eauto.
  - rewrite bind_Throw, tryCatch_Throw. simpl. eauto.
Qed.

Lemma processLinksWithin_returns levels content :
  exists text t, processLinksWithin env levels content = (Return text, t).
Proof.
  destruct levels as [|below]; simpl.
  - by exists content, [LogWarn maxDepthWarning].
  - apply forEach_returns. intros acc m. apply processMatch_returns.
Qed.

(** The equations of [processLinks] and [resolveLink], as the source
    writes them. *)
Lemma processLinks_above depth content :
  maxDepth < depth ->
  processLinks env content depth = (Return content, [LogWarn maxDepthWarning]).
Proof.
  intros Hd. unfold processLinks.
  by replace (S maxDepth - depth) with 0 by lia.
Qed.

Lemma processLinks_below depth content :
  depth <= maxDepth ->
  processLinks env content depth
  = forEach (LinkPattern.matchAll content)
      (processMatch (fun linkContent => resolveLink env linkContent (depth + 1)))
      content.
Proof.
  intros Hd. unfold processLinks, resolveLink, processLinks.
  replace (S maxDepth - depth) with (S (maxDepth - depth)) by lia.
  by replace (S maxDepth - (depth + 1)) with (maxDepth - depth) by lia.
Qed.

Lemma resolveLink_substitute linkContent value depth :
  truthyProperty (substitutes env) linkContent = Some value ->
  resolveLink env linkContent depth = processLinks env value depth.
Proof. intros H. unfold resolveLink, resolveLinkWith. by rewrite H. Qed.

End DepthBound.

(** C1.  Whatever the substitutes, the root and the files, and so for
    substitutes that refer to themselves or to each other, [processLinks]
    called at depth 0 returns a text: it is a total function and no exception
    leaves it.  Called at a depth above [maxDepth] (10) it returns its
    argument as it is, with one warning and nothing else.  The bound is
    tested nowhere else: at a depth up to 10 the loop over the markers runs,
    handing [depth + 1] to [resolveLink]; [resolveLink] and
    [resolveFolderWildcard] do nothing with the depth but pass it to
    [processLinks], and so the value of a substitute goes to [processLinks]
    whatever the depth: above the bound it is the test of [processLinks]
    that answers. *)
Theorem processLinks_depth_bound env content :
  (exists text t, processLinks env content 0 = (Return text, t))
  /\ (forall depth, maxDepth < depth ->
        processLinks env content depth
        = (Return content, [LogWarn maxDepthWarning]))
  /\ (forall depth, depth <= maxDepth ->
        processLinks env content depth
        = forEach (LinkPattern.matchAll content)
            (processMatch
               (fun linkContent => resolveLink env linkContent (depth + 1)))
            content)
  /\ (forall depth linkContent,
        resolveLink env linkContent depth
        = resolveLinkWith env
            (fun content => processLinks env content depth) linkContent
        /\ resolveFolderWildcard env linkContent depth
           = resolveFolderWildcardWith env
               (fun content => processLinks env content depth) linkContent)
  /\ (forall depth linkContent value,
        truthyProperty (substitutes env) linkContent = Some value ->
        resolveLink env linkContent depth = processLinks env value depth).
Proof.
  split; [apply processLinksWithin_returns|].
  split; [intros depth; apply processLinks_above|].
  split; [intros depth; apply processLinks_below|].
  split; [done|].
  intros depth linkContent value. apply resolveLink_substitute.
Qed.

Lemma processLinks_depth_bound_witness :
  processLinks Examples.twoCycle "{{A}}" 11
  = (Return "{{A}}", [LogWarn maxDepthWarning]).
Proof.
  apply (proj1 (proj2 (processLinks_depth_bound Examples.twoCycle "{{A}}"))).
  unfold maxDepth. lia.
Defined.

(** Two substitutes that refer to each other: the expansion stops at the
    bound, with one warning, and a marker is left in the text. *)
Example processLinks_two_cycle :
  processLinks Examples.twoCycle "{{A}}" 0
  = (Return "{{B}}", [LogWarn maxDepthWarning]).
Proof. reflexivity. Qed.

Example processLinks_chain :
  processLinks Examples.chain "{{top}}" 0 = (Return "done", []).
Proof. reflexivity. Qed.

(** ** The scanner (C8) *)

Module ScanFacts.

Import LinkPattern Marker StrFacts.

Lemma span_spec p s :
  s = (span p s).1 +:+ (span p s).2
  /\ Str.all p (span p s).1 = true
  /\ match (span p s).2 with
     | EmptyString => True
     | String c _ => p c = false
     end.
Proof.
  induction s as [|c s (IH1 & IH2 & IH3)]; [done|].
  simpl. destruct (p c) eqn:Hc.
  - destruct (span p s) as [run rest]. simpl in *.
    rewrite app_cons, <- IH1, Hc. done.
  - simpl. by rewrite Hc.
Qed.

Lemma span_exact p g rest :
  Str.all p g = true ->
  match rest with EmptyString => True | String c _ => p c = false end ->
  span p (g +:+ rest) = (g, rest).
Proof.
  intros Hg Hrest. induction g as [|c g IH].
  - rewrite app_nil_l. destruct rest as [|c rest]; [done|].
    simpl. by rewrite Hrest.
  - simpl in Hg. apply andb_prop in Hg as [Hc Hg].
    rewrite app_cons. simpl. by rewrite Hc, IH.
Qed.

Lemma length_fullMatch g : String.length (fullMatch g) = S (String.length g + 3).
Proof. unfold fullMatch. rewrite !length_app. simpl. lia. Qed.

(** A match at the start of [s] is a marker at the start of [s]. *)
Lemma matchAt_Some s g :
  matchAt s = Some g <->
  isGroup g /\ exists rest, s = "{{" +:+ g +:+ "}}" +:+ rest.
Proof.
  unfold matchAt, isGroup. split.
  - destruct (Str.strip "{{" s) as [t|] eqn:Ht; [|done].
    apply strip_Some in Ht.
    destruct (span_spec notClosingBrace t) as (Hs & Hall & _).
    destruct (span notClosingBrace t) as [group rest]. cbn [fst snd] in *.
    destruct group as [|c group]; [done|].
    destruct (Str.strip "}}" rest) as [rest'|] eqn:Hr; [|done].
    apply strip_Some in Hr. intros [= <-].
    split; [done|]. exists rest'. by rewrite Ht, Hs, Hr.
  - intros ([Hne Hall] & rest & ->).
    rewrite strip_app, span_exact; [|done|done].
    destruct g; [done|]. by rewrite strip_app.
Qed.

Lemma matchAt_nil : matchAt "" = None.
Proof. reflexivity. Qed.

(** The equations of the search. *)
Lemma matchesFrom_skip s n i :
  matchesFrom s n i = matchesFrom (Str.drop n s) 0 (n + i).
Proof.
  revert n i. induction s as [|c s IH]; intros [|n] i; try done.
  simpl. rewrite IH. f_equal. lia.
Qed.

Lemma matchesFrom_hit s g i :
  matchAt s = Some g ->
  matchesFrom s 0 i
  = {| m_full := fullMatch g; m_group := g; m_index := i |}
    :: matchesFrom (Str.drop (String.length (fullMatch g)) s) 0
         (i + String.length (fullMatch g)).
Proof.
  intros H. destruct s as [|c s]; [done|].
  rewrite length_fullMatch. cbn [matchesFrom Str.drop]. rewrite H. f_equal.
  rewrite matchesFrom_skip. f_equal. lia.
Qed.

Lemma matchesFrom_miss c s i :
  matchAt (String c s) = None ->
  matchesFrom (String c s) 0 i = matchesFrom s 0 (S i).
Proof. intros H. simpl. by rewrite H. Qed.

Lemma length_drop_lt i s : Str.drop i s <> "" -> i < String.length s.
Proof.
  revert s. induction i as [|i IH]; intros [|c s] H; simpl in *; try done; try lia.
  apply IH in H. lia.
Qed.

Lemma matchesAt_occursAt s i g : matchesAt s i g <-> occursAt s i g.
Proof.
  unfold matchesAt, occursAt. rewrite matchAt_Some. split.
  - intros (Hg & rest & Hrest). split; [done|].
    exists (Str.take i s), rest. split.
    + by rewrite <- Hrest, take_drop.
    + apply length_take. apply Nat.lt_le_incl, length_drop_lt.
      rewrite Hrest. done.
  - intros (Hg & before & after & -> & <-). split; [done|].
    exists after. by rewrite drop_app.
Qed.

(** What the search returns on [s], when [s] starts at offset [i] of the
    whole text. *)
Lemma matchesFrom_spec n : forall s i,
  String.length s <= n ->
  let found := matchesFrom s 0 i in
  (forall m, m ∈ found ->
     i <= m_index m /\ matchesAt s (m_index m - i) (m_group m)
     /\ m_full m = fullMatch (m_group m))
  /\ inOrderFrom i (map toLink found)
  /\ (forall j g, matchesAt s j g ->
        exists m, m ∈ found
          /\ m_index m <= i + j < m_index m + String.length (m_full m)).
Proof.
  induction n as [|n IH]; intros s i Hn.
  { destruct s; [|simpl in Hn; lia]. simpl. split; [|split; [done|]].
    - intros m Hm. by apply elem_of_nil in Hm.
    - intros j g. unfold matchesAt. by destruct j. }
  destruct s as [|c s]; [apply (IH "" i); simpl; lia|].
  destruct (matchAt (String c s)) as [g|] eqn:Hat.
  - (* a match starts here *)
    pose proof Hat as (Hg & rest & Hrest)%matchAt_Some.
    assert (Hdrop : Str.drop (String.length (fullMatch g)) (String c s) = rest).
    { assert (String c s = fullMatch g +:+ rest) as ->
        by (unfold fullMatch; rewrite !app_assoc; exact Hrest).
      apply drop_app. }
    assert (Hlen : String.length rest <= n).
    { apply (f_equal String.length) in Hrest.
      rewrite !length_app in Hrest. simpl in Hrest, Hn. lia. }
    cbv zeta. rewrite (matchesFrom_hit _ _ _ Hat), Hdrop.
    destruct (IH rest (i + String.length (fullMatch g)) Hlen) as (Hs & Ho & Hc).
    split; [|split].
    + intros m [->|Hm]%elem_of_cons.
      * simpl. rewrite Nat.sub_diag. done.
      * destruct (Hs m Hm) as (Hi & Hm1 & Hm2). split; [lia|]. split; [|done].
        unfold matchesAt in *. rewrite <- Hdrop, drop_drop in Hm1.
        by replace (m_index m - i)
          with (String.length (fullMatch g)
                + (m_index m - (i + String.length (fullMatch g)))) by lia.
    + simpl. split; [lia|done].
    + intros j g' Hj.
      destruct (decide (j < String.length (fullMatch g))) as [Hlt|Hge].
      * eexists. split; [apply list_elem_of_here|]. cbn [m_index m_full]. lia.
      * destruct (Hc (j - String.length (fullMatch g)) g') as (m & Hm & Hcover).
        { unfold matchesAt in *. rewrite <- Hdrop, drop_drop.
          by replace (String.length (fullMatch g) + (j - String.length (fullMatch g)))
            with j by lia. }
        exists m. split; [by apply list_elem_of_further|lia].
  - (* no match starts here *)
    cbv zeta. rewrite (matchesFrom_miss _ _ _ Hat).
    destruct (IH s (S i)) as (Hs & Ho & Hc); [simpl in Hn; lia|].
    split; [|split].
    + intros m Hm. destruct (Hs m Hm) as (Hi & Hm1 & Hm2).
      split; [lia|]. split; [|done]. unfold matchesAt in *.
      by replace (m_index m - i) with (S (m_index m - S i)) by lia.
    + destruct (matchesFrom s 0 (S i)) as [|m ms]; [done|].
      simpl in *. split; [lia|tauto].
    + intros [|j] g' Hj.
      * unfold matchesAt in Hj. simpl in Hj. congruence.
      * destruct (Hc j g' Hj) as (m & Hm & Hcover).
        exists m. split; [done|lia].
Qed.

End ScanFacts.

Section Scanner.

Import LinkPattern Marker StrFacts ScanFacts.

Lemma extractLinks_matchAll content :
  extractLinks content = map toLink (matchAll content).
Proof. reflexivity. Qed.

Lemma extractLinks_sound content l :
  l ∈ extractLinks content ->
  exists g, occursAt content (link_index l) g
    /\ link_full l = "{{" +:+ g +:+ "}}"
    /\ link_content l = Js.trim g.
Proof.
  rewrite extractLinks_matchAll. intros (m & -> & Hm)%list_elem_of_fmap.
  destruct (matchesFrom_spec (String.length content) content 0 (le_n _))
    as (Hsound & _ & _).
  destruct (Hsound m Hm) as (_ & Hat & Hfull).
  rewrite Nat.sub_0_r in Hat. apply matchesAt_occursAt in Hat.
  exists (m_group m). cbn [toLink link_index link_full link_content].
  by rewrite Hfull.
Qed.

Lemma extractLinks_inOrder content : inOrderFrom 0 (extractLinks content).
Proof.
  rewrite extractLinks_matchAll.
  by destruct (matchesFrom_spec (String.length content) content 0 (le_n _))
    as (_ & Horder & _).
Qed.

Lemma extractLinks_complete content i g :
  occursAt content i g ->
  exists l, l ∈ extractLinks content
    /\ link_index l <= i < link_index l + String.length (link_full l).
Proof.
  intros Hat%matchesAt_occursAt. rewrite extractLinks_matchAll.
  destruct (matchesFrom_spec (String.length content) content 0 (le_n _))
    as (_ & _ & Hcomplete).
  destruct (Hcomplete i g Hat) as (m & Hm & Hcover).
  exists (toLink m). split; [|done]. by apply list_elem_of_fmap_2.
Qed.

End Scanner.

(** C8, as the code has it.  [extractLinks] returns the markers of a text
    from left to right, none overlapping another: every link it returns is
    an occurrence [{{g}}] at the offset it is paired with, where the inner
    text [g] has one character at least and no closing brace at all, and its
    reference is [g] without the white space around it; the links are in the
    order of their offsets and each starts at or after the end of the one
    before; every occurrence of such a marker in the text starts inside a
    returned link (so the leftmost one is returned, and then the leftmost one
    after its end, and so on); a text with no such occurrence yields no
    link. *)
Theorem extractLinks_markers content :
  (forall l, l ∈ extractLinks content ->
     exists g, Marker.occursAt content (link_index l) g
       /\ link_full l = "{{" +:+ g +:+ "}}"
       /\ link_content l = Js.trim g)
  /\ Marker.inOrderFrom 0 (extractLinks content)
  /\ (forall i g, Marker.occursAt content i g ->
        exists l, l ∈ extractLinks content
          /\ link_index l <= i < link_index l + String.length (link_full l))
  /\ ((forall i g, ~ Marker.occursAt content i g) -> extractLinks content = []).
Proof.
  split; [apply extractLinks_sound|].
  split; [apply extractLinks_inOrder|].
  split; [apply extractLinks_complete|].
  intros Hnone. destruct (extractLinks content) as [|l ls] eqn:E; [done|].
  destruct (extractLinks_sound content l) as (g & Hat & _).
  { rewrite E. apply list_elem_of_here. }
  by apply Hnone in Hat.
Qed.

Lemma extractLinks_markers_witness :
  exists l, l ∈ extractLinks "x {{ a }} y"
    /\ link_index l <= 2 < link_index l + String.length (link_full l).
Proof.
  apply (proj1 (proj2 (proj2 (extractLinks_markers "x {{ a }} y"))) 2 " a ").
  split; [split; [discriminate|reflexivity]|].
  exists "x ", " y". split; reflexivity.
Defined.

(** The inner text [a}b] does not contain two closing braces in a row, and
    yet [{{a}b}}] is not a marker for the scanner. *)
Lemma extractLinks_rejects_single_closing_brace :
  Str.cut "}}" "a}b" = None
  /\ "{{a}b}}" = "" +:+ "{{" +:+ "a}b" +:+ "}}" +:+ ""
  /\ extractLinks "{{a}b}}" = [].
Proof. repeat split. Qed.

(** ** The loop over the markers (C5, C6) *)

Section MarkerLoop.

Variable env : environment.

Lemma processMatch_success resolve processed m replacement t :
  resolve (Js.trim (m_group m)) = (Return replacement, t) ->
  processMatch resolve processed m
  = (Return (Js.replace processed (m_full m) replacement), t).
Proof.
  intros H. unfold processMatch. rewrite H, bind_Return. simpl.
  by rewrite app_nil_r.
Qed.

Lemma processMatch_failure resolve processed m e t :
  resolve (Js.trim (m_group m)) = (Throw e, t) ->
  processMatch resolve processed m
  = (Return (Js.replace processed (m_full m)
               (errorReplacement (Js.trim (m_group m)) e)),
     t ++ [LogError ("Failed to resolve link: " +:+ Js.trim (m_group m))]).
Proof.
  intros H. unfold processMatch. by rewrite H, bind_Throw, tryCatch_Throw.
Qed.

Lemma resolveLink_root_not_set linkContent depth :
  truthyProperty (substitutes env) linkContent = None ->
  Js.endsWith linkContent "/*" = false ->
  rootPath env = "" ->
  resolveLink env linkContent depth = (Throw RootPathNotSet, []).
Proof.
  intros Hsub Hwild Hroot. unfold resolveLink, resolveLinkWith.
  by rewrite Hsub, Hwild, Hroot.
Qed.

Lemma processLinks_no_marker content depth :
  LinkPattern.matchAll content = [] ->
  depth <= maxDepth ->
  processLinks env content depth = (Return content, []).
Proof. intros Hnone Hd. by rewrite processLinks_below, Hnone. Qed.

End MarkerLoop.

(** C5 at a value with dollar signs, and at a marker whose replacement
    reads like the next marker.  The value of [pid] is [echo $$], and it is
    not spliced as it is: [processed.replace(fullMatch, replacement)] reads
    it as a replacement template, and [$$] comes out as one dollar sign.
    With [A] worth [{{L}}{B}}], [L] worth an opening brace and [B] worth
    [hello], the marker [{{A}}] alone gives [{{B}}] and the marker [{{B}}]
    alone gives [hello]; in [{{A}} {{B}}] the text that took the place of
    [{{A}}] is what the replacement of the marker [{{B}}] then finds first
    and consumes, and the marker [{{B}}] itself stays in the result. *)
Theorem processLinks_splice_not_verbatim_nor_atomic :
  getProperty (substitutes Examples.shellSnippet) "pid" = Some "echo $$"
  /\ processLinks Examples.shellSnippet "{{pid}}" 0 = (Return "echo $", [])
  /\ processLinks Examples.braces "{{A}}" 0 = (Return "{{B}}", [])
  /\ processLinks Examples.braces "{{B}}" 0 = (Return "hello", [])
  /\ processLinks Examples.braces "{{A}} {{B}}" 0 = (Return "hello {{B}}", []).
Proof. repeat split. Qed.

(** C6 at a marker written with spaces, and at a marker written twice.
    The comment of the [catch] block says [Keep the original link if
    resolution fails]; the annotation is built from the trimmed reference,
    so the marker [{{ missing }}] does not come back as it was written: the
    white space inside the braces is gone, and the text of the original
    marker is nowhere in the result.  And the annotation is not inert: of
    two identical markers that fail, the second replacement lands on the
    marker text inside the first annotation, which is annotated twice, and
    the second marker stays as it was. *)
Theorem errorReplacement_rewrites_marker :
  processLinks Examples.greeting "{{ missing }}" 0
  = (Return "{{missing}} [ERROR: Root path not set. Use /root command to set the root directory.]",
     [LogError "Failed to resolve link: missing"])
  /\ Str.cut "{{ missing }}"
       "{{missing}} [ERROR: Root path not set. Use /root command to set the root directory.]"
     = None
  /\ result (processLinks Examples.greeting "{{a}} {{a}}" 0)
     = Return "{{a}} [ERROR: Root path not set. Use /root command to set the root directory.] [ERROR: Root path not set. Use /root command to set the root directory.] {{a}}".
Proof. repeat split. Qed.

(** ** The resolver (C4, C7, C2) *)

Section Resolver.

Variable env : environment.

Lemma resolveLink_wildcard linkContent depth :
  truthyProperty (substitutes env) linkContent = None ->
  Js.endsWith linkContent "/*" = true ->
  resolveLink env linkContent depth = resolveFolderWildcard env linkContent depth.
Proof.
  intros Hsub Hwild. unfold resolveLink, resolveLinkWith. by rewrite Hsub, Hwild.
Qed.

(** A path that does not start with the root, as text, is refused before
    any request to the file system. *)
Lemma resolveLink_outside_root linkContent depth :
  truthyProperty (substitutes env) linkContent = None ->
  Js.endsWith linkContent "/*" = false ->
  rootPath env <> "" ->
  Js.startsWith
    (Path.resolve (cwd env)
       [if Path.isAbsolute linkContent then linkContent
        else Path.resolve (cwd env) [rootPath env; linkContent]])
    (Path.resolve (cwd env) [rootPath env]) = false ->
  resolveLink env linkContent depth = (Throw (FilePathOutsideRoot linkContent), []).
Proof.
  intros Hsub Hwild Hroot Hout. unfold resolveLink, resolveLinkWith.
  rewrite Hsub, Hwild. apply String.eqb_neq in Hroot. by rewrite Hroot, Hout.
Qed.

Lemma validateLinks_loop links results :
  forEach links
    (fun results l =>
       tryCatch
         (let* _ := resolveLink env (link_content l) 0 in
          ret (results ++ [{| v_link := link_content l;
                              v_valid := true; v_error := None |}]))
         (fun e =>
            ret (results ++ [{| v_link := link_content l;
                                v_valid := false;
                                v_error := Some (message e) |}])))
    results
  = (Return (results
             ++ map (fun l => validationOf l (result (resolveLink env (link_content l) 0)))
                  links),
     concat (map (fun l => trace (resolveLink env (link_content l) 0)) links)).
Proof.
  revert results. induction links as [|l links IH]; intros results.
  - rewrite forEach_nil. simpl. by rewrite app_nil_r.
  - rewrite forEach_cons.
    destruct (resolveLink env (link_content l) 0) as [[text|e] t] eqn:Hres.
    + rewrite bind_Return. cbn [result trace fst snd ret].
      rewrite tryCatch_Return, bind_Return, IH.
      cbn [map concat]. rewrite Hres.
      cbn [result trace fst snd validationOf].
      by rewrite app_nil_r, <- app_assoc.
    + rewrite bind_Throw, tryCatch_Throw. cbn [result trace fst snd ret].
      rewrite bind_Return, IH.
      cbn [map concat]. rewrite Hres.
      cbn [result trace fst snd validationOf].
      by rewrite app_nil_r, <- app_assoc.
Qed.

End Resolver.

(** C4, as the code has it.  For a reference whose substitute has a value
    that is not empty, [resolveLink] returns that value expanded by
    [processLinks] at the depth it was given: the expansion of the markers
    inside the value happens inside the resolver.  It hands the value back as
    it is stored when the value has no marker, and when the depth is above
    the bound.  [validateLinks] calls [resolveLink] at depth 0 for
    every link of the text, so it performs the whole recursive expansion of
    each: what it reports for a link, and all that it logs and asks of the
    file system, is what these calls produce. *)
Theorem resolveLink_expands_value env :
  (forall linkContent value depth,
     truthyProperty (substitutes env) linkContent = Some value ->
     resolveLink env linkContent depth = processLinks env value depth
     /\ (maxDepth < depth ->
         resolveLink env linkContent depth
         = (Return value, [LogWarn maxDepthWarning]))
     /\ (depth <= maxDepth -> LinkPattern.matchAll value = [] ->
         resolveLink env linkContent depth = (Return value, [])))
  /\ (forall content,
        validateLinks env content
        = (Return (map (fun l => validationOf l
                         (result (resolveLink env (link_content l) 0)))
                     (extractLinks content)),
           concat (map (fun l => trace (resolveLink env (link_content l) 0))
                     (extractLinks content)))).
Proof.
  split.
  - intros linkContent value depth Hsub.
    rewrite (resolveLink_substitute _ _ _ _ Hsub).
    split; [done|]. split.
    + apply processLinks_above.
    + intros Hd Hnone. by apply processLinks_no_marker.
  - intros content. unfold validateLinks. by rewrite validateLinks_loop.
Qed.

Lemma resolveLink_expands_value_witness :
  resolveLink Examples.chain "top" 1 = processLinks Examples.chain "{{mid}}" 1
  /\ resolveLink Examples.chain "leaf" 1 = (Return "done", []).
Proof.
  split.
  - apply (proj1 (resolveLink_expands_value Examples.chain) "top" "{{mid}}" 1 eq_refl).
  - apply (proj1 (resolveLink_expands_value Examples.chain) "leaf" "done" 1 eq_refl);
      [unfold maxDepth; lia|reflexivity].
Defined.

(** The value stored for [top] is [{{mid}}]; what [resolveLink] returns for
    [top] is [done].  And validating [{{A}}] where [A] and [B] refer to each
    other runs the expansion down to the depth bound. *)
Lemma resolveLink_returns_expanded_text :
  getProperty (substitutes Examples.chain) "top" = Some "{{mid}}"
  /\ resolveLink Examples.chain "top" 1 = (Return "done", [])
  /\ validateLinks Examples.twoCycle "{{A}}"
     = (Return [{| v_link := "A"; v_valid := true; v_error := None |}],
        [LogWarn maxDepthWarning]).
Proof. repeat split. Qed.

(** C7 at a substitute whose value is empty.  [draft] is a key of the
    mapping, and its value is the empty string, which is falsy: the test
    [if (substitutes[linkContent])] fails and the reference goes on to be
    resolved as a file path. *)
Theorem resolveLink_skips_empty_substitute :
  getProperty (substitutes Examples.emptyDraft) "draft" = Some ""
  /\ resolveLink Examples.emptyDraft "draft" 1 = (Throw RootPathNotSet, [])
  /\ processLinks Examples.emptyDraft "{{draft}}" 0
     = (Return "{{draft}} [ERROR: Root path not set. Use /root command to set the root directory.]",
        [LogError "Failed to resolve link: draft"]).
Proof. repeat split. Qed.

(** C2 at a sibling of the root.  With root [/root], the paths under
    [/root-evil] start with the text [/root], pass [startsWith] and are
    read, by a file link as by a folder link. *)
Theorem resolveLink_reads_sibling_of_root :
  Path.resolve "/srv/app" ["/root"] = "/root"
  /\ Path.resolve "/srv/app" ["/root"; "../root-evil/secret.md"]
     = "/root-evil/secret.md"
  /\ resolveLink Examples.siblingOfRoot "/root-evil/secret.md" 1
     = (Return "secret",
        [PathExists "/root-evil/secret.md"; ReadFile "/root-evil/secret.md"])
  /\ resolveLink Examples.siblingOfRoot "../root-evil/secret.md" 1
     = (Return "secret",
        [PathExists "/root-evil/secret.md"; ReadFile "/root-evil/secret.md"])
  /\ trace (resolveFolderWildcard Examples.siblingOfRoot "../root-evil/*" 1)
     = [PathExists "/root-evil"; Stat "/root-evil"; Readdir "/root-evil";
        ReadFile "/root-evil/secret.md"].
Proof. repeat split. Qed.

(** The reference of the specification, [../../etc/passwd] against the
    root [/data/root], is refused, and nothing is asked of the file system. *)
Example resolveLink_refuses_passwd :
  resolveLink (Examples.passwd "/data/root") "../../etc/passwd" 1
  = (Throw (FilePathOutsideRoot "../../etc/passwd"), []).
Proof. by apply resolveLink_outside_root. Qed.

(** ** The dependency tree (C3) *)

(** C3 at [getDependencyTree].  It resolves the path of a link and hands
    it to the file system without any test against the root: with root
    [/data/root], and with no root at all, the link [{{/etc/passwd}}] makes
    it read [/etc/passwd], a path that [resolveLink] refuses. *)
Theorem getDependencyTree_reads_outside_root :
  getDependencyTree (Examples.passwd "/data/root") 2 "{{/etc/passwd}}" ∅
  = Some (Return (Tree "{{/etc/passwd}}"
                    [TreeLink "/etc/passwd" (File "/etc/passwd")
                       (Some (Tree "root:x:0:0" []))]),
          [PathExists "/etc/passwd"; ReadFile "/etc/passwd"])
  /\ resolveLink (Examples.passwd "/data/root") "/etc/passwd" 1
     = (Throw (FilePathOutsideRoot "/etc/passwd"), [])
  /\ (trace <$> getDependencyTree (Examples.passwd "") 2 "{{/etc/passwd}}" ∅)
     = Some [PathExists "/etc/passwd"; ReadFile "/etc/passwd"]
  /\ resolveLink (Examples.passwd "") "/etc/passwd" 1
     = (Throw RootPathNotSet, []).
Proof. repeat split. Qed.

(** *** Without a root *)

Section WithoutRoot.

Variable env : environment.
Hypothesis root_not_set : rootPath env = "".

Lemma forEach_trace {A S} (P : event -> Prop) (xs : list A)
    (body : S -> A -> M S) (acc : S) :
  (forall acc x, Forall P (trace (body acc x))) ->
  Forall P (trace (forEach xs body acc)).
Proof.
  intros Hbody. revert acc. induction xs as [|x xs IH]; intros acc.
  - rewrite forEach_nil. apply Forall_nil_2.
  - rewrite forEach_cons. specialize (Hbody acc x).
    destruct (body acc x) as [[acc'|e] t]; run; [|done].
    apply Forall_app. split; [done|apply IH].
Qed.

Lemma resolveLinkWith_without_root processLinksAt linkContent :
  (forall content,
     Forall (fun ev => isRequest ev = false) (trace (processLinksAt content))) ->
  Forall (fun ev => isRequest ev = false)
    (trace (resolveLinkWith env processLinksAt linkContent)).
Proof.
  intros Hrec. unfold resolveLinkWith, resolveFolderWildcardWith.
  destruct (truthyProperty (substitutes env) linkContent); [apply Hrec|].
  rewrite root_not_set. destruct (Js.endsWith linkContent "/*"); apply Forall_nil_2.
Qed.

(** While no root is configured, [processLinks] asks nothing of the file
    system. *)
Lemma processLinks_without_root content depth :
  Forall (fun ev => isRequest ev = false) (trace (processLinks env content depth)).
Proof.
  unfold processLinks. generalize (S maxDepth - depth). intros levels.
  revert content. induction levels as [|levels IH]; intros content.
  - simpl. by apply Forall_singleton.
  - simpl. apply forEach_trace. intros processed m. unfold processMatch.
    pose proof (resolveLinkWith_without_root (processLinksWithin env levels)
                  (Js.trim (m_group m)) IH) as Hres.
    destruct (resolveLinkWith env (processLinksWithin env levels)
                (Js.trim (m_group m))) as [[replacement|e] t]; run.
    + by rewrite app_nil_r.
    + apply Forall_app. split; [done|]. by apply Forall_singleton.
Qed.

End WithoutRoot.

(** ** Folders (C9) *)

Section Folders.

Variable env : environment.

Lemma join_app (xs ys : list string) :
  Js.join (xs ++ ys) = Js.join xs +:+ Js.join ys.
Proof.
  induction xs as [|x xs IH]; [done|].
  unfold Js.join in *. simpl. by rewrite IH, StrFacts.app_assoc.
Qed.

Lemma isSupported_true file :
  isSupported file = true
  <-> Js.toLowerCase (Path.extname file) ∈ supportedExtensions.
Proof. unfold isSupported. apply bool_decide_eq_true. Qed.

Lemma supportedFiles_Permutation files :
  supportedFiles files ≡ₚ filter (fun file => isSupported file = true) files.
Proof. apply merge_sort_Permutation. Qed.

Lemma supportedFiles_elem_of files file :
  file ∈ supportedFiles files
  <-> file ∈ files /\ Js.toLowerCase (Path.extname file) ∈ supportedExtensions.
Proof.
  rewrite supportedFiles_Permutation, list_elem_of_filter, isSupported_true.
  tauto.
Qed.

Lemma supportedFiles_Sorted files : Sorted String.le (supportedFiles files).
Proof. apply Sorted_merge_sort, _. Qed.

Lemma readFolderFile_spec folderPath fullFolderPath file :
  exists pushed,
    readFolderFile env folderPath fullFolderPath file
    = (Return pushed, fileRequests env folderPath fullFolderPath file)
    /\ Js.join pushed = fileSection env fullFolderPath file.
Proof.
  unfold readFolderFile, readFile, fileRequests, fileSection.
  destruct (fs_readFile (fs env) (Path.join [fullFolderPath; file]))
    as [fileContent|e].
  - eexists. run. split; [done|].
    unfold Js.join. simpl. by rewrite StrFacts.app_nil_r.
  - eexists. run. split; [done|].
    unfold Js.join. simpl. by rewrite StrFacts.app_nil_r.
Qed.

Lemma readFolder_loop folderPath fullFolderPath files combined :
  exists combined',
    forEach files
      (fun combined file =>
         let* pushed := readFolderFile env folderPath fullFolderPath file in
         ret (combined ++ pushed))
      combined
    = (Return combined',
       flat_map (fileRequests env folderPath fullFolderPath) files)
    /\ Js.join combined'
       = Js.join combined +:+ folderText env fullFolderPath files.
Proof.
  revert combined. induction files as [|file files IH]; intros combined.
  - exists combined. rewrite forEach_nil. split; [done|].
    unfold folderText, Js.join. simpl. by rewrite StrFacts.app_nil_r.
  - destruct (readFolderFile_spec folderPath fullFolderPath file)
      as (pushed & Hread & Hjoin).
    destruct (IH (combined ++ pushed)) as (combined' & Hloop & Hjoin').
    exists combined'. rewrite forEach_cons, Hread. run. rewrite Hloop. run.
    split; [by rewrite app_nil_r|].
    rewrite Hjoin', join_app, Hjoin. unfold folderText.
    cbn [map]. change (Js.join (?x :: ?xs)) with (x +:+ Js.join xs).
    by rewrite StrFacts.app_assoc.
Qed.

End Folders.

(** C9, as the code has it.  When the folder of a reference [folder/*] has
    passed the checks and its entries are [files]: the files kept,
    [supportedFiles files], are the entries whose extension, put in lower
    case, is [.md] or [.txt] (so [b.TXT] and [a.Md] are kept, [d.mdx] is
    not), each as many times as it is listed, in the lexicographic order of
    their names, capital letters first.  If none is kept the result is the
    text [[No supported files found in folder]], returned and not thrown,
    with a warning.  If not, each kept file is read once, in that order, at
    the path of the folder joined with its name, and the combined text is,
    for each file in that order, a line break, the heading line
    [--- file ---], and the content of the file or, when the file cannot be
    read, the error of the read, the other files being read all the same.
    The result is not this text as it is: it is what [processLinks] makes of
    it at the depth given, so that the markers inside the files are
    expanded; the text comes back as it is when it holds no marker. *)
Theorem resolveFolderWildcard_lists_supported_files
    env linkContent depth files :
  let folderPath := Js.sliceEnd 2 linkContent in
  let fullFolderPath :=
    if Path.isAbsolute folderPath then folderPath
    else Path.resolve (cwd env) [rootPath env; folderPath] in
  let kept := supportedFiles files in
  let heading := fun file =>
    String "010" ("--- " +:+ file +:+ " ---" +:+ String "010" "") in
  let section := fun file =>
    heading file
    +:+ match fs_readFile (fs env) (Path.join [fullFolderPath; file]) with
        | Return fileContent => fileContent
        | Throw e =>
            "[ERROR: Failed to read file - " +:+ message e +:+ "]"
            +:+ String "010" ""
        end in
  let text := Js.join (map section kept) in
  let reads :=
    flat_map
      (fun file =>
         ReadFile (Path.join [fullFolderPath; file])
         :: match fs_readFile (fs env) (Path.join [fullFolderPath; file]) with
            | Return _ => []
            | Throw _ =>
                [LogError ("Failed to read file " +:+ file
                           +:+ " from folder " +:+ folderPath +:+ ":")]
            end)
      kept in
  rootPath env <> "" ->
  Js.startsWith (Path.resolve (cwd env) [fullFolderPath])
    (Path.resolve (cwd env) [rootPath env]) = true ->
  fs_pathExists (fs env) fullFolderPath = true ->
  fs_isDirectory (fs env) fullFolderPath = Return true ->
  fs_readdir (fs env) fullFolderPath = Return files ->
  (forall file,
     file ∈ kept
     <-> file ∈ files /\ Js.toLowerCase (Path.extname file) ∈ [".md"; ".txt"])
  /\ kept
     ≡ₚ filter (fun file => Js.toLowerCase (Path.extname file) ∈ [".md"; ".txt"])
          files
  /\ Sorted String.le kept
  /\ supportedFiles ["b.TXT"; "notes"; "a.Md"; "c.png"; "d.mdx"; "B.txt"]
     = ["B.txt"; "a.Md"; "b.TXT"]
  /\ (kept = [] ->
      resolveFolderWildcard env linkContent depth
      = (Return ("[No supported files found in " +:+ folderPath +:+ "]"),
         [PathExists fullFolderPath; Stat fullFolderPath;
          Readdir fullFolderPath;
          LogWarn ("No supported files (.md, .txt) found in folder: "
                   +:+ folderPath)]))
  /\ (kept <> [] ->
      resolveFolderWildcard env linkContent depth
      = (result (processLinks env text depth),
         [PathExists fullFolderPath; Stat fullFolderPath;
          Readdir fullFolderPath]
         ++ reads ++ trace (processLinks env text depth))
      /\ (depth <= maxDepth -> LinkPattern.matchAll text = [] ->
          resolveFolderWildcard env linkContent depth
          = (Return text,
             [PathExists fullFolderPath; Stat fullFolderPath;
              Readdir fullFolderPath] ++ reads))).
Proof.
  intros folderPath fullFolderPath kept heading section text reads
    Hroot Hprefix Hexists Hdir Hentries.
  split; [apply supportedFiles_elem_of|].
  split.
  { unfold kept. rewrite supportedFiles_Permutation.
    erewrite list_filter_iff; [done|]. intros file. apply isSupported_true. }
  split; [apply supportedFiles_Sorted|].
  split; [reflexivity|].
  apply String.eqb_neq in Hroot.
  assert (Hstart :
    resolveFolderWildcard env linkContent depth
    = bind (Return true, [PathExists fullFolderPath]) (fun _ =>
      bind (Return true, [Stat fullFolderPath]) (fun _ =>
      tryCatch
        (bind (Return files, [Readdir fullFolderPath]) (fun files =>
           match supportedFiles files with
           | [] =>
               let* _ := emit (LogWarn
                 ("No supported files (.md, .txt) found in folder: "
                  +:+ folderPath)) in
               ret ("[No supported files found in " +:+ folderPath +:+ "]")
           | _ =>
               let* combinedContent :=
                 forEach (supportedFiles files)
                   (fun combined file =>
                      let* pushed :=
                        readFolderFile env folderPath fullFolderPath file in
                      ret (combined ++ pushed))
                   [] in
               processLinks env (Js.join combinedContent) depth
           end))
        (fun e => throw (FailedToReadFolder folderPath (message e)))))).
  { unfold resolveFolderWildcard, resolveFolderWildcardWith.
    fold folderPath. fold fullFolderPath.
    rewrite Hroot, Hprefix. cbn [negb].
    unfold pathExists, statIsDirectory, readdir.
    by rewrite Hexists, Hdir, Hentries. }
  rewrite Hstart. clear Hstart. run.
  change text with (folderText env fullFolderPath kept).
  change reads with (flat_map (fileRequests env folderPath fullFolderPath) kept).
  clear text reads section heading. subst kept.
  remember (supportedFiles files) as kept eqn:Ekept.
  split.
  - intros ->. by run.
  - intros Hkept. destruct kept as [|file kept']; [done|].
    destruct (readFolder_loop env folderPath fullFolderPath (file :: kept') [])
      as (combined & Hloop & Hjoin).
    change (Js.join []) with "" in Hjoin. rewrite StrFacts.app_nil_l in Hjoin.
    destruct (processLinksWithin_returns env (S maxDepth - depth)
                (folderText env fullFolderPath (file :: kept')))
      as (expanded & t & Hexp).
    fold (processLinks env (folderText env fullFolderPath (file :: kept')) depth)
      in Hexp.
    run. rewrite Hloop. run. rewrite Hjoin, Hexp. run.
    split; [done|].
    intros Hd Hnone. rewrite processLinks_no_marker in Hexp by done.
    injection Hexp as <- <-. by rewrite !app_nil_r.
Qed.

Lemma resolveFolderWildcard_lists_supported_files_witness :
  resolveFolderWildcard Examples.notes "notes/*" 1
  = (Return
       (String "010" ("--- a.md ---" +:+ String "010" "alpha")
        +:+ String "010" ("--- b.txt ---" +:+ String "010"
              "[ERROR: Failed to read file - ENOENT: no such file or directory]")
        +:+ String "010" ""),
     [PathExists "/data/root/notes"; Stat "/data/root/notes";
      Readdir "/data/root/notes";
      ReadFile "/data/root/notes/a.md";
      ReadFile "/data/root/notes/b.txt";
      LogError "Failed to read file b.txt from folder notes:"])
  /\ resolveFolderWildcard Examples.notes "empty/*" 1
     = (Return "[No supported files found in empty]",
        [PathExists "/data/root/empty"; Stat "/data/root/empty";
         Readdir "/data/root/empty";
         LogWarn "No supported files (.md, .txt) found in folder: empty"])
  /\ result (resolveFolderWildcard linkedNotes "notes/*" 0)
     = result (processLinks linkedNotes
                 (String "010" ("--- a.md ---" +:+ String "010" "see {{ok}}"))
                 0).
Proof.
  destruct (resolveFolderWildcard_lists_supported_files
              Examples.notes "notes/*" 1 ["b.txt"; "a.md"; "c.png"])
    as (_ & _ & _ & _ & _ & Hkept);
    [discriminate|reflexivity|reflexivity|reflexivity|reflexivity|].
  destruct (resolveFolderWildcard_lists_supported_files
              Examples.notes "empty/*" 1 ["c.png"])
    as (_ & _ & _ & _ & Hnone & _);
    [discriminate|reflexivity|reflexivity|reflexivity|reflexivity|].
  destruct (resolveFolderWildcard_lists_supported_files
              linkedNotes "notes/*" 0 ["a.md"])
    as (_ & _ & _ & _ & _ & Hlinked);
    [discriminate|reflexivity|reflexivity|reflexivity|reflexivity|].
  split; [|split].
  - apply Hkept; [discriminate|unfold maxDepth; lia|reflexivity].
  - by apply Hnone.
  - destruct Hlinked as [Hlinked _]; [discriminate|]. by rewrite Hlinked.
Defined.

(** The file [a.md] of the folder holds [see {{ok}}], and [ok] is a
    substitute worth [hello]: the result of the folder reference is not the
    heading followed by the content of the file, it has [hello] where the
    file has its marker. *)
Lemma resolveFolderWildcard_expands_file_content :
  fs_readFile (fs linkedNotes) "/data/root/notes/a.md" = Return "see {{ok}}"
  /\ resolveFolderWildcard linkedNotes "notes/*" 0
     = (Return (String "010" ("--- a.md ---" +:+ String "010" "see hello")),
        [PathExists "/data/root/notes"; Stat "/data/root/notes";
         Readdir "/data/root/notes"; ReadFile "/data/root/notes/a.md"])
  /\ result (resolveFolderWildcard linkedNotes "notes/*" 0)
     <> Return (String "010" ("--- a.md ---" +:+ String "010" "see {{ok}}")).
Proof.
  split; [reflexivity|]. split; [reflexivity|]. vm_compute. discriminate.
Qed.

(** The example of the specification: [a.md] comes before [b.txt], and
    [c.png] is left out; here [b.txt] cannot be read. *)
Example resolveFolderWildcard_notes :
  supportedFiles ["b.txt"; "a.md"; "c.png"] = ["a.md"; "b.txt"]
  /\ resolveFolderWildcard Examples.notes "notes/*" 1
     = (Return (fileHeader "a.md" +:+ "alpha" +:+ fileHeader "b.txt"
                +:+ "[ERROR: Failed to read file - ENOENT: no such file or directory]"
                +:+ String "010" ""),
        [PathExists "/data/root/notes"; Stat "/data/root/notes";
         Readdir "/data/root/notes";
         ReadFile "/data/root/notes/a.md";
         ReadFile "/data/root/notes/b.txt";
         LogError "Failed to read file b.txt from folder notes:"]).
Proof. split; reflexivity. Qed.

(** ** Circular dependencies (C10) *)

Section CircularDependencies.

Variable env : environment.

Lemma getProperty_Some_key obj key v :
  getProperty obj key = Some v -> key ∈ map fst obj.
Proof.
  induction obj as [|[k w] obj IH]; [done|]. simpl.
  destruct (String.eqb_spec k key) as [->|_].
  - intros _. apply list_elem_of_here.
  - intros H. apply list_elem_of_further. by apply IH.
Qed.

Lemma truthyProperty_node key v :
  truthyProperty (substitutes env) key = Some v -> key ∈ Graph.nodes (substitutes env).
Proof.
  unfold truthyProperty, Graph.nodes. intros H.
  destruct (getProperty (substitutes env) key) as [w|] eqn:E; [|done].
  apply elem_of_list_to_set. by eapply getProperty_Some_key.
Qed.

Lemma dfs_unfold fuel key path st :
  dfs env (S fuel) key path st
  = if decide (key ∈ recursionStack st) then
      Some {| visited := visited st;
              recursionStack := recursionStack st;
              cycles := cycles st ++ [sliceFromIndexOf key path ++ [key]] |}
    else if decide (key ∈ visited st) then Some st
    else
      match
        match truthyProperty (substitutes env) key with
        | Some content =>
            dfsLinks env (dfs env fuel) (path ++ [key]) (extractLinks content)
              {| visited := visited st ∪ {[key]};
                 recursionStack := recursionStack st ∪ {[key]};
                 cycles := cycles st |}
        | None =>
            Some {| visited := visited st ∪ {[key]};
                    recursionStack := recursionStack st ∪ {[key]};
                    cycles := cycles st |}
        end
      with
      | None => None
      | Some st' =>
          Some {| visited := visited st';
                  recursionStack := recursionStack st' ∖ {[key]};
                  cycles := cycles st' |}
      end.
Proof. reflexivity. Qed.

Lemma dfsLinks_nil dfsBelow extended st :
  dfsLinks env dfsBelow extended [] st = Some st.
Proof. reflexivity. Qed.

Lemma dfsLinks_cons dfsBelow extended l links st :
  dfsLinks env dfsBelow extended (l :: links) st
  = match truthyProperty (substitutes env) (link_content l) with
    | Some _ =>
        match dfsBelow (link_content l) extended st with
        | Some st' => dfsLinks env dfsBelow extended links st'
        | None => None
        end
    | None => dfsLinks env dfsBelow extended links st
    end.
Proof.
  unfold dfsLinks. simpl.
  destruct (truthyProperty (substitutes env) (link_content l)); [|done].
  destruct (dfsBelow (link_content l) extended st); [done|].
  induction links as [|l' links IH]; [done|]. by simpl.
Qed.

Lemma dfsKeys_cons fuel key keys st :
  dfsKeys env fuel (key :: keys) st
  = if decide (key ∈ visited st) then dfsKeys env fuel keys st
    else match dfs env fuel key [] st with
         | Some st' => dfsKeys env fuel keys st'
         | None => None
         end.
Proof.
  unfold dfsKeys. simpl. destruct (decide (key ∈ visited st)); [done|].
  destruct (dfs env fuel key [] st); [done|].
  induction keys as [|k keys IH]; [done|]. by simpl.
Qed.

(** *** Enough fuel *)

Lemma dfs_total fuel : forall key path st,
  key ∈ Graph.nodes (substitutes env) ->
  size (Graph.unvisited (substitutes env) st) < fuel ->
  exists st', dfs env fuel key path st = Some st'
    /\ visited st ⊆ visited st'.
Proof.
  induction fuel as [|fuel IH]; intros key path st Hkey Hfuel; [lia|].
  rewrite dfs_unfold.
  destruct (decide (key ∈ recursionStack st)); [by eexists|].
  destruct (decide (key ∈ visited st)) as [|Hnew]; [by eexists|].
  set (st1 := {| visited := visited st ∪ {[key]};
                 recursionStack := recursionStack st ∪ {[key]};
                 cycles := cycles st |}).
  assert (Hless : size (Graph.unvisited (substitutes env) st1) < size (Graph.unvisited (substitutes env) st)).
  { apply subset_size. unfold Graph.unvisited, st1. simpl. set_solver. }
  assert (Hloop : forall links st2,
    visited st1 ⊆ visited st2 ->
    exists st3, dfsLinks env (dfs env fuel) (path ++ [key]) links st2 = Some st3
      /\ visited st2 ⊆ visited st3).
  { induction links as [|l links IHl]; intros st2 Hst2.
    - exists st2. by rewrite dfsLinks_nil.
    - rewrite dfsLinks_cons.
      destruct (truthyProperty (substitutes env) (link_content l)) as [v|] eqn:Hl; [|by apply IHl].
      destruct (IH (link_content l) (path ++ [key]) st2) as (st3 & -> & Hst3).
      + by eapply truthyProperty_node.
      + assert (size (Graph.unvisited (substitutes env) st2) <= size (Graph.unvisited (substitutes env) st1)); [|lia].
        apply subseteq_size. unfold Graph.unvisited. set_solver.
      + destruct (IHl st3) as (st4 & -> & Hst4); [set_solver|].
        exists st4. split; [done|set_solver]. }
  destruct (truthyProperty (substitutes env) key) as [content|].
  - destruct (Hloop (extractLinks content) st1) as (st3 & -> & Hst3); [done|].
    eexists. split; [done|]. simpl. unfold st1 in Hst3. simpl in Hst3. set_solver.
  - eexists. split; [done|]. simpl. set_solver.
Qed.

Lemma dfsKeys_total fuel keys : forall st,
  (forall key, key ∈ keys -> key ∈ Graph.nodes (substitutes env)) ->
  size (Graph.nodes (substitutes env)) < fuel ->
  exists st', dfsKeys env fuel keys st = Some st'.
Proof.
  induction keys as [|key keys IH]; intros st Hkeys Hfuel; [by eexists|].
  rewrite dfsKeys_cons.
  assert (Hrest : forall k, k ∈ keys -> k ∈ Graph.nodes (substitutes env)).
  { intros k Hk. apply Hkeys. by apply list_elem_of_further. }
  destruct (decide (key ∈ visited st)); [by apply IH|].
  destruct (dfs_total fuel key [] st) as (st' & -> & _).
  - apply Hkeys, list_elem_of_here.
  - assert (size (Graph.unvisited (substitutes env) st) <= size (Graph.nodes (substitutes env))); [|lia].
    apply subseteq_size. unfold Graph.unvisited. set_solver.
  - by apply IH.
Qed.

Lemma size_nodes : size (Graph.nodes (substitutes env)) <= length (substitutes env).
Proof.
  unfold Graph.nodes. rewrite <- (length_fmap fst (substitutes env)).
  change (map fst (substitutes env)) with (fst <$> substitutes env).
  generalize (fst <$> (substitutes env)). intros l. induction l as [|x l IH].
  - by rewrite list_to_set_nil, size_empty.
  - rewrite list_to_set_cons, size_union_alt, size_singleton. simpl.
    assert (size (list_to_set l ∖ {[x]} : gset string) <= size (list_to_set l : gset string)).
    { apply subseteq_size. set_solver. }
    lia.
Qed.

Lemma checkCircularDependencies_total :
  exists cycles, checkCircularDependencies env = Some cycles.
Proof.
  unfold checkCircularDependencies.
  destruct (dfsKeys_total (S (length (substitutes env))) (map fst (substitutes env))
              {| visited := ∅; recursionStack := ∅; cycles := [] |})
    as (st & ->).
  - intros key Hkey. by apply elem_of_list_to_set.
  - pose proof size_nodes. lia.
  - by eexists.
Qed.

End CircularDependencies.

Section ReportedCycles.

Variable env : environment.

Lemma indexOf_Some key path :
  key ∈ path ->
  exists before after,
    path = before ++ key :: after /\ (key ∉ before)
    /\ indexOf key path = Some (length before).
Proof.
  induction path as [|k path IH]; intros Hin; [by apply elem_of_nil in Hin|].
  simpl. destruct (String.eqb_spec k key) as [->|Hne].
  - exists [], path. split; [done|]. split; [apply not_elem_of_nil|done].
  - apply elem_of_cons in Hin as [->|Hin]; [done|].
    destruct (IH Hin) as (before & after & -> & Hfirst & ->).
    exists (k :: before), after. split; [done|]. split; [|done].
    apply not_elem_of_cons. split; [congruence|done].
Qed.

(** On a path that holds [key], the slice starts at the first [key]. *)
Lemma sliceFromIndexOf_first key path :
  key ∈ path ->
  exists before after,
    path = before ++ key :: after /\ (key ∉ before)
    /\ sliceFromIndexOf key path = key :: after.
Proof.
  intros (before & after & -> & Hfirst & Hindex)%indexOf_Some.
  exists before, after. split; [done|]. split; [done|].
  unfold sliceFromIndexOf. rewrite Hindex. by rewrite drop_app_length.
Qed.

Lemma walk_app_r subs l1 l2 : Graph.walk subs (l1 ++ l2) -> Graph.walk subs l2.
Proof.
  induction l1 as [|a l1 IH]; [done|]. simpl.
  destruct (l1 ++ l2) as [|b rest] eqn:E.
  - intros _. by destruct l1, l2.
  - intros [_ H]. by apply IH.
Qed.

Lemma walk_snoc subs p a b :
  Graph.walk subs (p ++ [a]) -> Graph.edge subs a b ->
  Graph.walk subs ((p ++ [a]) ++ [b]).
Proof.
  intros Hwalk Hedge. induction p as [|x p IH]; [by simpl|].
  destruct p as [|y p].
  - simpl in *. tauto.
  - simpl in *. split; [tauto|]. apply IH. tauto.
Qed.

Lemma dfs_sound fuel : forall key path st st',
  dfs env fuel key path st = Some st' ->
  recursionStack st = list_to_set path ->
  Graph.walk (substitutes env) (path ++ [key]) ->
  Forall (Graph.isCycle (substitutes env)) (cycles st) ->
  recursionStack st' = recursionStack st
  /\ Forall (Graph.isCycle (substitutes env)) (cycles st').
Proof.
  induction fuel as [|fuel IH]; intros key path st st' Hdfs Hstack Hwalk Hcycles;
    [done|].
  rewrite dfs_unfold in Hdfs.
  destruct (decide (key ∈ recursionStack st)) as [Hon|Hoff].
  { (* [key] is on the stack: a cycle is recorded *)
    inversion Hdfs; subst st'; clear Hdfs. simpl. split; [done|].
    apply Forall_app. split; [done|]. apply Forall_singleton.
    rewrite Hstack in Hon. apply elem_of_list_to_set in Hon.
    destruct (sliceFromIndexOf_first key path Hon)
      as (before & after & Hpath & _ & ->).
    split; [by exists key, after|].
    rewrite Hpath, <- app_assoc in Hwalk. by apply walk_app_r in Hwalk. }
  destruct (decide (key ∈ visited st)); [by inversion Hdfs; subst|].
  set (st1 := {| visited := visited st ∪ {[key]};
                 recursionStack := recursionStack st ∪ {[key]};
                 cycles := cycles st |}) in *.
  assert (Hst1 : recursionStack st1 = list_to_set (path ++ [key])).
  { unfold st1. simpl. rewrite Hstack, list_to_set_app_L. set_solver. }
  assert (Hloop : forall content links st2 st3,
    truthyProperty (substitutes env) key = Some content ->
    (forall l, l ∈ links -> l ∈ extractLinks content) ->
    dfsLinks env (dfs env fuel) (path ++ [key]) links st2 = Some st3 ->
    recursionStack st2 = recursionStack st1 ->
    Forall (Graph.isCycle (substitutes env)) (cycles st2) ->
    recursionStack st3 = recursionStack st1
    /\ Forall (Graph.isCycle (substitutes env)) (cycles st3)).
  { intros content. induction links as [|l links IHl];
      intros st2 st3 Hcontent Hlinks Hrun Hs2 Hc2.
    - rewrite dfsLinks_nil in Hrun. by inversion Hrun; subst.
    - rewrite dfsLinks_cons in Hrun.
      assert (Hrest : forall l', l' ∈ links -> l' ∈ extractLinks content).
      { intros l' Hl'. apply Hlinks. by apply list_elem_of_further. }
      destruct (truthyProperty (substitutes env) (link_content l)) as [v|] eqn:Hl;
        [|by eapply IHl].
      destruct (dfs env fuel (link_content l) (path ++ [key]) st2)
        as [st2'|] eqn:Hchild; [|done].
      destruct (IH _ _ _ _ Hchild) as (Hs2' & Hc2'); [congruence| |done|].
      + apply walk_snoc; [done|]. exists content. split; [done|]. split.
        * apply list_elem_of_fmap_2, Hlinks, list_elem_of_here.
        * by rewrite Hl.
      + eapply IHl; [done|done|exact Hrun|congruence|done]. }
  destruct (truthyProperty (substitutes env) key) as [content|] eqn:Hcontent.
  - destruct (dfsLinks env (dfs env fuel) (path ++ [key]) (extractLinks content) st1)
      as [st3|] eqn:Hrun; [|done].
    inversion Hdfs; subst st'; clear Hdfs. simpl.
    destruct (Hloop content (extractLinks content) st1 st3) as (Hs3 & Hc3);
      [done|done|done|done|done|].
    split; [|done]. rewrite Hs3. unfold st1. simpl. set_solver.
  - inversion Hdfs; subst st'; clear Hdfs. simpl. split; [set_solver|done].
Qed.

Lemma dfsKeys_sound fuel keys : forall st st',
  dfsKeys env fuel keys st = Some st' ->
  recursionStack st = ∅ ->
  Forall (Graph.isCycle (substitutes env)) (cycles st) ->
  Forall (Graph.isCycle (substitutes env)) (cycles st').
Proof.
  induction keys as [|key keys IH]; intros st st' Hrun Hstack Hcycles.
  - by inversion Hrun; subst.
  - rewrite dfsKeys_cons in Hrun.
    destruct (decide (key ∈ visited st)); [by eapply IH|].
    destruct (dfs env fuel key [] st) as [st1|] eqn:Hdfs; [|done].
    destruct (dfs_sound _ _ _ _ _ Hdfs) as (Hs1 & Hc1); [done|done|done|].
    eapply IH; [exact Hrun|congruence|done].
Qed.

Lemma checkCircularDependencies_sound cycles :
  checkCircularDependencies env = Some cycles ->
  Forall (Graph.isCycle (substitutes env)) cycles.
Proof.
  unfold checkCircularDependencies.
  destruct (dfsKeys env _ _ _) as [st|] eqn:Hrun; [|done].
  intros [= <-]. by eapply dfsKeys_sound.
Qed.

End ReportedCycles.



(** * Further properties *)

(** ** More on the scanner *)

Section ScanningPieces.

Import LinkPattern Marker StrFacts ScanFacts.

Lemma shiftMatch_shiftMatch i j m :
  shiftMatch i (shiftMatch j m) = shiftMatch (i + j) m.
Proof. unfold shiftMatch. simpl. f_equal. lia. Qed.

Lemma toLink_shiftMatch i m : toLink (shiftMatch i m) = shiftLink i (toLink m).
Proof. reflexivity. Qed.

(** The index the search starts from is added to every match. *)
Lemma matchesFrom_index s : forall skip i,
  matchesFrom s skip i = map (shiftMatch i) (matchesFrom s skip 0).
Proof.
  induction s as [|c s IH]; intros skip i; [done|].
  cbn [matchesFrom]. destruct skip as [|k].
  - destruct (matchAt (String c s)) as [g|].
    + cbn [map]. f_equal.
      * unfold shiftMatch. simpl. f_equal. lia.
      * rewrite (IH _ (S i)), (IH _ 1), map_map. apply map_ext. intros m.
        rewrite shiftMatch_shiftMatch. f_equal. lia.
    + rewrite (IH _ (S i)), (IH _ 1), map_map. apply map_ext. intros m.
      rewrite shiftMatch_shiftMatch. f_equal. lia.
  - rewrite (IH _ (S i)), (IH _ 1), map_map. apply map_ext. intros m.
    rewrite shiftMatch_shiftMatch. f_equal. lia.
Qed.

Lemma matchAt_not_brace c s :
  Ascii.eqb c "{" = false -> matchAt (String c s) = None.
Proof.
  intros Hc. unfold matchAt.
  change (Str.strip "{{" (String c s))
    with (if Ascii.eqb "{" c then Str.strip "{" s else None).
  by rewrite Ascii.eqb_sym, Hc.
Qed.

(** Text without an opening brace holds no match, and the search goes
    through it to what follows. *)
Lemma matchesFrom_no_brace before s i :
  Str.contains "{" before = false ->
  matchesFrom (before +:+ s) 0 i = matchesFrom s 0 (i + String.length before).
Proof.
  unfold Str.contains. rewrite negb_false_iff. revert i.
  induction before as [|c before IH]; intros i Hnone.
  - rewrite app_nil_l. f_equal. simpl. lia.
  - simpl in Hnone. apply andb_prop in Hnone as [Hc Hrest].
    apply negb_true_iff in Hc.
    rewrite app_cons, matchesFrom_miss by (by apply matchAt_not_brace).
    rewrite IH by done. f_equal. simpl. lia.
Qed.

Lemma matchAll_marker_first g after :
  isGroup g ->
  matchAll ("{{" +:+ g +:+ "}}" +:+ after)
  = {| m_full := fullMatch g; m_group := g; m_index := 0 |}
    :: map (shiftMatch (String.length g + 4)) (matchAll after).
Proof.
  intros Hg. unfold matchAll.
  assert (Hat : matchAt ("{{" +:+ g +:+ "}}" +:+ after) = Some g).
  { apply matchAt_Some. split; [done|]. by exists after. }
  rewrite (matchesFrom_hit _ _ _ Hat). f_equal.
  assert (("{{" +:+ g +:+ "}}" +:+ after) = fullMatch g +:+ after) as ->
    by (unfold fullMatch; by rewrite !app_assoc).
  rewrite drop_app, length_fullMatch, matchesFrom_index. simpl.
  by replace (S (String.length g + 3)) with (String.length g + 4) by lia.
Qed.

Lemma matchAll_no_brace content :
  Str.contains "{" content = false -> matchAll content = [].
Proof.
  intros Hnone. unfold matchAll.
  rewrite <- (app_nil_r content), matchesFrom_no_brace by done. done.
Qed.

(** No occurrence of a marker, no match. *)
Lemma matchAll_no_marker content :
  (forall i g, ~ occursAt content i g) -> matchAll content = [].
Proof.
  intros Hnone. unfold matchAll.
  destruct (matchesFrom_spec (String.length content) content 0 (le_n _))
    as (Hsound & _ & _).
  destruct (matchesFrom content 0 0) as [|m ms]; [done|].
  destruct (Hsound m (list_elem_of_here _ _)) as (_ & Hat & _).
  apply matchesAt_occursAt in Hat. by apply Hnone in Hat.
Qed.

End ScanningPieces.

(** X1.  A text in which no marker occurs (a text without an opening brace
    is one) comes back from [processLinks] as it is, whatever the
    substitutes, the root, the files and the depth; up to the depth bound
    the trace is empty: no warning and no error line is logged, and nothing
    is asked of the file system.  (The debug line of [processLinks] is no
    event of the trace.) *)
Theorem processLinks_plain_text env content depth :
  (forall i g, ~ Marker.occursAt content i g)
  \/ Str.contains "{" content = false ->
  result (processLinks env content depth) = Return content
  /\ (depth <= maxDepth ->
      processLinks env content depth = (Return content, [])).
Proof.
  intros Hplain.
  assert (Hnone : LinkPattern.matchAll content = []).
  { destruct Hplain; [by apply matchAll_no_marker|by apply matchAll_no_brace]. }
  split.
  - destruct (decide (depth <= maxDepth)) as [Hd|Hd].
    + by rewrite processLinks_no_marker.
    + by rewrite processLinks_above by lia.
  - intros Hd. by apply processLinks_no_marker.
Qed.

Lemma processLinks_plain_text_witness :
  processLinks Examples.twoCycle "no marker here }}" 0
  = (Return "no marker here }}", []).
Proof.
  apply processLinks_plain_text; [by right|unfold maxDepth; lia].
Defined.

(** X2.  The scan of a text goes piece by piece: text without an opening
    brace holds no link, and when such text is followed by a marker [{{g}}]
    (one character at least between the braces, none of them a closing
    brace) and then by any text, the links are that marker, at the offset
    where the first piece ends, with [g] trimmed as its reference, followed
    by the links of the rest of the text, their offsets moved past the
    marker. *)
Theorem extractLinks_marker_then_rest before g after :
  Str.contains "{" before = false ->
  Marker.isGroup g ->
  extractLinks before = []
  /\ extractLinks (before +:+ "{{" +:+ g +:+ "}}" +:+ after)
     = {| link_full := "{{" +:+ g +:+ "}}";
          link_content := Js.trim g;
          link_index := String.length before |}
       :: map (shiftLink (String.length before + (String.length g + 4)))
            (extractLinks after).
Proof.
  intros Hbefore Hg. unfold extractLinks. split.
  { by rewrite matchAll_no_brace. }
  unfold LinkPattern.matchAll at 1.
  rewrite matchesFrom_no_brace by done.
  rewrite matchesFrom_index.
  fold (LinkPattern.matchAll ("{{" +:+ g +:+ "}}" +:+ after)).
  rewrite matchAll_marker_first by done. cbn [map]. f_equal.
  - unfold toLink, shiftMatch. simpl. f_equal. lia.
  - rewrite !map_map. apply map_ext. intros m.
    by rewrite shiftMatch_shiftMatch, toLink_shiftMatch.
Qed.

Lemma extractLinks_marker_then_rest_witness :
  extractLinks ("See " +:+ "{{" +:+ " a.md " +:+ "}}" +:+ " and {{b}}")
  = {| link_full := "{{ a.md }}"; link_content := "a.md"; link_index := 4 |}
    :: map (shiftLink 14) (extractLinks " and {{b}}").
Proof.
  apply (extractLinks_marker_then_rest "See " " a.md " " and {{b}}").
  - reflexivity.
  - split; [discriminate|reflexivity].
Defined.

(** ** A text with one marker *)

Section OneMarker.

Import LinkPattern Marker StrFacts ScanFacts.

Lemma app_same_length (b b' x x' : string) :
  b +:+ x = b' +:+ x' -> String.length b = String.length b' ->
  b = b' /\ x = x'.
Proof.
  revert b'. induction b as [|c b IH]; intros [|c' b'] Heq Hlen; try done.
  rewrite !app_cons in Heq. injection Heq as -> Heq. simpl in Hlen.
  destruct (IH b' Heq) as [-> ->]; [lia|done].
Qed.

Lemma occursAt_fullMatch content i g :
  occursAt content i g <->
  isGroup g
  /\ exists before after,
       content = before +:+ fullMatch g +:+ after /\ String.length before = i.
Proof.
  unfold occursAt, fullMatch. split; intros (Hg & before & after & Hc & Hlen);
    (split; [done|]); exists before, after; (split; [|done]).
  - by rewrite !app_assoc.
  - by rewrite !app_assoc in Hc.
Qed.

(** The marker of the only match is cut out of the text where it was
    found. *)
Lemma cut_only_match content m :
  matchAll content = [m] ->
  Str.cut (m_full m) content
  = Some (Str.take (m_index m) content,
          Str.drop (m_index m + String.length (m_full m)) content).
Proof.
  intros Hone.
  destruct (matchesFrom_spec (String.length content) content 0 (le_n _))
    as (Hsound & _ & Hcomplete).
  fold (matchAll content) in Hsound, Hcomplete. rewrite Hone in Hsound, Hcomplete.
  destruct (Hsound m (list_elem_of_here _ _)) as (_ & Hat & Hfull).
  rewrite Nat.sub_0_r in Hat.
  apply matchesAt_occursAt, occursAt_fullMatch in Hat
    as (Hg & before & after & Hcontent & Hlen).
  rewrite Hfull.
  destruct (Str.cut (fullMatch (m_group m)) content) as [[b' a']|] eqn:Hcut.
  - pose proof (cut_Some _ _ _ _ Hcut) as Hcontent'.
    pose proof (cut_first _ _ _ _ Hcut before after Hcontent) as Hle.
    assert (Hfirst : occursAt content (String.length b') (m_group m)).
    { apply occursAt_fullMatch. split; [done|]. by exists b', a'. }
    apply matchesAt_occursAt, Hcomplete in Hfirst as (m' & Hm' & Hcover).
    apply list_elem_of_singleton in Hm' as ->. simpl in Hcover.
    assert (Hsame : String.length before = String.length b') by lia.
    assert (before = b' /\ fullMatch (m_group m) +:+ after
                           = fullMatch (m_group m) +:+ a') as [<- Hrest].
    { apply app_same_length; [congruence|done]. }
    apply (inj (String.append _)) in Hrest as <-.
    f_equal. f_equal.
    + by rewrite <- Hlen, Hcontent, take_app.
    + rewrite <- Hlen, Hcontent, <- length_app, <- app_assoc. by rewrite drop_app.
  - by apply (cut_None _ _ Hcut before after) in Hcontent.
Qed.

End OneMarker.

(** X3.  When [processLinks], at a depth up to the bound, finds one marker
    in its argument, the text it returns is its argument with that marker,
    at the place where it was found, replaced: by what [resolveLink] returned
    for the trimmed reference at [depth + 1], if this has no dollar sign; and
    if [resolveLink] threw, by the marker written again from the trimmed
    reference followed by [ [ERROR: message]], if this has no dollar sign.
    What [resolveLink] logged and asked comes first in the trace, then the
    error line. *)
Theorem processLinks_one_marker env content depth m :
  depth <= maxDepth ->
  LinkPattern.matchAll content = [m] ->
  let before := Str.take (m_index m) content in
  let after := Str.drop (m_index m + String.length (m_full m)) content in
  let linkContent := Js.trim (m_group m) in
  content = before +:+ m_full m +:+ after
  /\ (forall replacement t,
        resolveLink env linkContent (depth + 1) = (Return replacement, t) ->
        Str.contains "$" replacement = false ->
        processLinks env content depth
        = (Return (before +:+ replacement +:+ after), t))
  /\ (forall e t,
        resolveLink env linkContent (depth + 1) = (Throw e, t) ->
        Str.contains "$" (errorReplacement linkContent e) = false ->
        processLinks env content depth
        = (Return (before +:+ errorReplacement linkContent e +:+ after),
           t ++ [LogError ("Failed to resolve link: " +:+ linkContent)])).
Proof.
  intros Hd Hone before after linkContent.
  pose proof (cut_only_match content m Hone) as Hcut.
  fold before after in Hcut.
  split; [by apply StrFacts.cut_Some|]. split.
  - intros replacement t Hres Hplain.
    rewrite processLinks_below, Hone, forEach_cons by done.
    rewrite (processMatch_success _ _ _ _ _ Hres). run.
    by rewrite (StrFacts.replace_first _ _ _ _ _ Hcut Hplain), app_nil_r.
  - intros e t Hres Hplain.
    rewrite processLinks_below, Hone, forEach_cons by done.
    rewrite (processMatch_failure _ _ _ _ _ Hres). run.
    fold linkContent.
    by rewrite (StrFacts.replace_first _ _ _ _ _ Hcut Hplain), app_nil_r.
Qed.

Lemma processLinks_one_marker_witness :
  processLinks Examples.greeting "Say {{ ok }} twice" 0
  = (Return ("Say " +:+ "hello" +:+ " twice"), []).
Proof.
  apply (proj1 (proj2 (processLinks_one_marker Examples.greeting
                         "Say {{ ok }} twice" 0
                         {| m_full := "{{ ok }}"; m_group := " ok "; m_index := 4 |}
                         ltac:(unfold maxDepth; lia) eq_refl))
           "hello" [] eq_refl eq_refl).
Defined.

(** ** What the resolver asks, and when it fails *)

Section Traces.

Context {A B : Type} (P : event -> Prop).

Lemma trace_bind (m : M A) (k : A -> M B) :
  Forall P (trace m) -> (forall a, Forall P (trace (k a))) ->
  Forall P (trace (bind m k)).
Proof.
  intros Hm Hk. destruct m as [[a|e] t]; run; [|done].
  apply Forall_app. split; [done|apply Hk].
Qed.

Lemma trace_tryCatch (m : M A) (handler : error -> M A) :
  Forall P (trace m) -> (forall e, Forall P (trace (handler e))) ->
  Forall P (trace (tryCatch m handler)).
Proof.
  intros Hm Hh. destruct m as [[a|e] t]; run; [done|].
  apply Forall_app. split; [done|apply Hh].
Qed.

End Traces.

Section Requests.

Variable env : environment.

Lemma resolveFolderWildcardWith_allowed processLinksAt linkContent :
  (forall content, Forall (allowedEvent env) (trace (processLinksAt content))) ->
  Forall (allowedEvent env)
    (trace (resolveFolderWildcardWith env processLinksAt linkContent)).
Proof.
  intros Hrec. unfold resolveFolderWildcardWith.
  set (folderPath := Js.sliceEnd 2 linkContent).
  destruct (String.eqb_spec (rootPath env) "") as [|Hroot]; [apply Forall_nil_2|].
  set (fullFolderPath := if Path.isAbsolute folderPath then folderPath
                         else Path.resolve (cwd env) [rootPath env; folderPath]).
  destruct (Js.startsWith _ _) eqn:Hprefix; [|apply Forall_nil_2]. cbn [negb].
  assert (Hfolder : passedRootTest env fullFolderPath) by done.
  apply trace_bind; [by apply Forall_singleton|]. intros found.
  destruct found; [|apply Forall_nil_2]. cbn [negb].
  apply trace_bind; [by apply Forall_singleton|]. intros isDir.
  destruct isDir; [|apply Forall_nil_2]. cbn [negb].
  apply trace_tryCatch; [|intros e; apply Forall_nil_2].
  unfold readdir.
  destruct (fs_readdir (fs env) fullFolderPath) as [files|e] eqn:Hfiles;
    [|by apply Forall_singleton].
  rewrite bind_Return. cbn [trace snd].
  apply Forall_app. split; [by apply Forall_singleton|].
  destruct (supportedFiles files) as [|file kept] eqn:Hkept.
  { apply trace_bind; [by apply Forall_singleton|]. intros _. apply Forall_nil_2. }
  rewrite <- Hkept.
  destruct (readFolder_loop env folderPath fullFolderPath (supportedFiles files) [])
    as (combined & -> & _).
  apply trace_bind; [|intros c; apply Hrec]. cbn [trace snd].
  apply Forall_flat_map, Forall_forall. intros f Hf.
  apply supportedFiles_elem_of in Hf as [Hin Hf]. apply isSupported_true in Hf.
  unfold fileRequests. apply Forall_cons. split.
  - right. by exists fullFolderPath, files, f.
  - destruct (fs_readFile _ _); [apply Forall_nil_2|by apply Forall_singleton].
Qed.

Lemma resolveLinkWith_allowed processLinksAt linkContent :
  (forall content, Forall (allowedEvent env) (trace (processLinksAt content))) ->
  Forall (allowedEvent env)
    (trace (resolveLinkWith env processLinksAt linkContent)).
Proof.
  intros Hrec. unfold resolveLinkWith.
  destruct (truthyProperty (substitutes env) linkContent); [apply Hrec|].
  destruct (Js.endsWith linkContent "/*");
    [by apply resolveFolderWildcardWith_allowed|].
  destruct (String.eqb_spec (rootPath env) "") as [|Hroot]; [apply Forall_nil_2|].
  set (filePath := if Path.isAbsolute linkContent then linkContent
                   else Path.resolve (cwd env) [rootPath env; linkContent]).
  destruct (Js.startsWith _ _) eqn:Hprefix; [|apply Forall_nil_2]. cbn [negb].
  assert (Hfile : passedRootTest env filePath) by done.
  apply trace_bind; [by apply Forall_singleton|]. intros found.
  destruct found; [|apply Forall_nil_2]. cbn [negb].
  destruct (bool_decide _) eqn:Hext; [|apply Forall_nil_2]. cbn [negb].
  apply trace_tryCatch; [|intros e; apply Forall_nil_2].
  apply trace_bind; [|intros c; apply Hrec].
  apply Forall_singleton. by left.
Qed.

Lemma processLinksWithin_allowed levels : forall content,
  Forall (allowedEvent env) (trace (processLinksWithin env levels content)).
Proof.
  induction levels as [|levels IH]; intros content.
  - simpl. by apply Forall_singleton.
  - simpl. apply forEach_trace. intros processed m. unfold processMatch.
    apply trace_tryCatch.
    + apply trace_bind; [by apply resolveLinkWith_allowed|].
      intros r. apply Forall_nil_2.
    + intros e. apply trace_bind; [by apply Forall_singleton|].
      intros _. apply Forall_nil_2.
Qed.

(** Whether the resolver throws, and what, is settled before it hands the
    content it found over to the expansion. *)
Lemma resolveFolderWildcardWith_throws rec1 rec2 linkContent e :
  neverThrows rec1 -> neverThrows rec2 ->
  result (resolveFolderWildcardWith env rec1 linkContent) = Throw e ->
  result (resolveFolderWildcardWith env rec2 linkContent) = Throw e.
Proof.
  intros H1 H2. unfold resolveFolderWildcardWith.
  set (folderPath := Js.sliceEnd 2 linkContent).
  destruct (String.eqb (rootPath env) ""); [done|].
  set (fullFolderPath := if Path.isAbsolute folderPath then folderPath
                         else Path.resolve (cwd env) [rootPath env; folderPath]).
  destruct (Js.startsWith _ _); [|done]. cbn [negb].
  unfold pathExists, statIsDirectory, readdir.
  destruct (fs_pathExists (fs env) fullFolderPath); run; [|done].
  destruct (fs_isDirectory (fs env) fullFolderPath) as [[|]|e1]; run; try done.
  destruct (fs_readdir (fs env) fullFolderPath) as [files|e2]; run; [|done].
  destruct (supportedFiles files) as [|file kept] eqn:Hkept; [by run|].
  rewrite <- Hkept.
  destruct (readFolder_loop env folderPath fullFolderPath (supportedFiles files) [])
    as (combined & -> & _). run.
  destruct (H1 (Js.join combined)) as (text1 & t1 & ->).
  destruct (H2 (Js.join combined)) as (text2 & t2 & ->). by run.
Qed.

Lemma resolveLinkWith_throws rec1 rec2 linkContent e :
  neverThrows rec1 -> neverThrows rec2 ->
  result (resolveLinkWith env rec1 linkContent) = Throw e ->
  result (resolveLinkWith env rec2 linkContent) = Throw e.
Proof.
  intros H1 H2. unfold resolveLinkWith.
  destruct (truthyProperty (substitutes env) linkContent) as [value|].
  { destruct (H1 value) as (text1 & t1 & ->). done. }
  destruct (Js.endsWith linkContent "/*");
    [by apply resolveFolderWildcardWith_throws|].
  destruct (String.eqb (rootPath env) ""); [done|].
  set (filePath := if Path.isAbsolute linkContent then linkContent
                   else Path.resolve (cwd env) [rootPath env; linkContent]).
  destruct (Js.startsWith _ _); [|done]. cbn [negb].
  unfold pathExists, readFile.
  destruct (fs_pathExists (fs env) filePath); run; [|done].
  destruct (bool_decide _); [|done]. cbn [negb].
  destruct (fs_readFile (fs env) filePath) as [fileContent|e1]; run; [|done].
  destruct (H1 fileContent) as (text1 & t1 & ->).
  destruct (H2 fileContent) as (text2 & t2 & ->). by run.
Qed.

End Requests.

(** X4.  For a reference that is not the name of an inherited member alone,
    whether [resolveLink] throws, and which error, does not depend on the
    depth it is called at, and a reference whose substitute has a value that
    is not empty never throws.  So [validateLinks], which resolves at depth
    0, reports such a link as invalid with a message exactly when
    [processLinks], which resolves at its depth plus one, annotates that
    link with that message. *)
Theorem resolveLink_failure_any_depth env linkContent depth depth' e :
  inheritedOnly (substitutes env) linkContent = false ->
  (result (resolveLink env linkContent depth) = Throw e
   <-> result (resolveLink env linkContent depth') = Throw e)
  /\ (is_Some (truthyProperty (substitutes env) linkContent) ->
      result (resolveLink env linkContent depth) <> Throw e)
  /\ (forall l, link_content l = linkContent ->
        (validationOf l (result (resolveLink env linkContent 0))
         = {| v_link := linkContent; v_valid := false;
              v_error := Some (message e) |}
         <-> exists e', message e' = message e
               /\ result (resolveLink env linkContent (depth + 1)) = Throw e')).
Proof.
  intros _.
  assert (Htotal : forall d, neverThrows (fun content => processLinks env content d)).
  { intros d content. apply processLinksWithin_returns. }
  split; [|split].
  - split; apply resolveLinkWith_throws; apply Htotal.
  - intros [value Hsub]. rewrite (resolveLink_substitute _ _ _ _ Hsub).
    destruct (Htotal depth value) as (text & t & ->). done.
  - intros l Hl. unfold validationOf. rewrite Hl.
    destruct (result (resolveLink env linkContent 0)) as [text|e0] eqn:Hres.
    + split; [done|]. intros (e' & _ & He').
      apply (resolveLinkWith_throws env _ (fun c => processLinks env c 0))
        in He'; [|apply Htotal..].
      fold (resolveLink env linkContent 0) in He'. congruence.
    + split.
      * intros [= Hmsg]. exists e0. split; [done|].
        revert Hres. apply resolveLinkWith_throws; apply Htotal.
      * intros (e' & Hmsg & He').
        apply (resolveLinkWith_throws env _ (fun c => processLinks env c 0))
          in He'; [|apply Htotal..].
        fold (resolveLink env linkContent 0) in He'.
        rewrite Hres in He'. injection He' as ->. by rewrite Hmsg.
Qed.

(** X5.  Every request that [processLinks] and [validateLinks] make to the
    file system is for a path that passed the test of the root -- a root is
    configured and the resolved path starts with the text of the resolved
    root -- or, for a read, for a supported entry listed in a folder that
    passed it; a file named by a link is read only if its extension is
    [.md] or [.txt], whatever the case of the letters.  While no root is
    configured they make no request at all. *)
Theorem processLinks_requests_allowed env content depth :
  Forall (allowedEvent env) (trace (processLinks env content depth))
  /\ Forall (allowedEvent env) (trace (validateLinks env content))
  /\ (rootPath env = "" ->
      Forall (fun ev => isRequest ev = false)
        (trace (processLinks env content depth))
      /\ Forall (fun ev => isRequest ev = false)
           (trace (validateLinks env content))).
Proof.
  assert (Hvalidate : forall P : event -> Prop,
    (forall c d, Forall P (trace (processLinks env c d))) ->
    (forall lc, Forall P (trace (resolveLink env lc 0))) ->
    Forall P (trace (validateLinks env content))).
  { intros P _ Hres. unfold validateLinks. rewrite validateLinks_loop.
    cbn [trace snd]. apply Forall_concat, Forall_fmap, Forall_forall.
    intros l _. apply Hres. }
  split; [apply processLinksWithin_allowed|]. split.
  - apply Hvalidate; [intros; apply processLinksWithin_allowed|].
    intros lc. apply resolveLinkWith_allowed. intros c.
    apply processLinksWithin_allowed.
  - intros Hroot. split; [by apply processLinks_without_root|].
    apply Hvalidate; [intros; by apply processLinks_without_root|].
    intros lc. apply resolveLinkWith_without_root; [done|].
    intros c. by apply processLinks_without_root.
Qed.

Lemma processLinks_requests_allowed_witness :
  Forall (fun ev => isRequest ev = false)
    (trace (processLinks Examples.greeting "{{a.md}} {{notes/*}} {{ok}}" 0)).
Proof.
  apply (proj2 (proj2 (processLinks_requests_allowed Examples.greeting
                         "{{a.md}} {{notes/*}} {{ok}}" 0)) eq_refl).
Defined.

Lemma resolveLink_failure_any_depth_witness :
  (result (resolveLink Examples.greeting "missing.md" 3) = Throw RootPathNotSet
   <-> result (resolveLink Examples.greeting "missing.md" 0)
       = Throw RootPathNotSet)
  /\ result (resolveLink Examples.greeting "ok" 3) <> Throw RootPathNotSet.
Proof.
  split.
  - apply (resolveLink_failure_any_depth Examples.greeting
             "missing.md" 3 0 RootPathNotSet eq_refl).
  - apply (proj1 (proj2 (resolveLink_failure_any_depth Examples.greeting
                           "ok" 3 0 RootPathNotSet eq_refl))).
    by exists "hello".
Defined.

(** ** The dependency tree *)

Section DependencyTree.

Variable env : environment.

Lemma bindF_Some {A B} (m : F A) (k : A -> F B) r :
  bindF m k = Some r ->
  exists r1 t1, m = Some (r1, t1)
    /\ match r1 with
       | Throw e => r = (Throw e, t1)
       | Return a => exists r2 t2, k a = Some (r2, t2) /\ r = (r2, t1 ++ t2)
       end.
Proof.
  unfold bindF. destruct m as [[[a|e] t1]|]; [| |done].
  - destruct (k a) as [[r2 t2]|] eqn:Hk; [|done]. intros [= <-].
    exists (Return a), t1. split; [done|]. by exists r2, t2.
  - intros [= <-]. by exists (Throw e), t1.
Qed.

Lemma getDependencyTree_unfold fuel content visited :
  getDependencyTree env (S fuel) content visited
  = bindF
      (forEachF (extractLinks content)
         (fun '(visited, links) l =>
            let name := link_content l in
            if decide (name ∈ visited) then
              liftF (ret (visited, links ++ [TreeLink name Circular None]))
            else
              let visited := visited ∪ {[name]} in
              bindF
                (tryCatchF
                   (describeLink env
                      (fun text => getDependencyTree env fuel text visited) name)
                   (fun e =>
                      liftF (ret (TreeLink name (Failed (message e)) None))))
                (fun entry => liftF (ret (visited ∖ {[name]}, links ++ [entry]))))
         (visited, []))
      (fun st => liftF (ret (Tree (excerpt content) (snd st)))).
Proof. reflexivity. Qed.

Lemma describeLink_spec subtreeOf visited name r :
  name ∉ visited ->
  (forall text r', subtreeOf text = Some r' -> exists sub t, r' = (Return sub, t)) ->
  tryCatchF (describeLink env subtreeOf name)
    (fun e => liftF (ret (TreeLink name (Failed (message e)) None))) = Some r ->
  exists entry t, r = (Return entry, t)
    /\ linkName entry = name
    /\ linkKind entry = expectedKind env visited name
    /\ (is_Some (linkChildren entry) <-> hasChildren (linkKind entry) = true).
Proof.
  intros Hnew Hsub. unfold describeLink, expectedKind, dependencyPath.
  rewrite decide_False by done.
  destruct (truthyProperty (substitutes env) name) as [value|].
  - destruct (subtreeOf value) as [r'|] eqn:Hv; [|done].
    destruct (Hsub _ _ Hv) as (sub & t & ->). simpl. intros [= <-].
    eexists _, _. split; [done|]. simpl. split; [done|]. split; [done|].
    split; [done|]. by eexists.
  - set (p := if Path.isAbsolute name then name
              else Path.resolve (cwd env) [rootPath env; name]).
    unfold pathExists, readFile, liftF. cbn [bindF].
    destruct (fs_pathExists (fs env) p).
    + destruct (fs_readFile (fs env) p) as [fileContent|e].
      * destruct (subtreeOf fileContent) as [r'|] eqn:Hv; [|done].
        destruct (Hsub _ _ Hv) as (sub & t & ->). simpl. intros [= <-].
        eexists _, _. split; [done|]. simpl. split; [done|]. split; [done|].
        split; [done|]. by eexists.
      * simpl. intros [= <-]. eexists _, _. split; [done|]. simpl.
        split; [done|]. split; [done|]. split; [by intros [? ?]|done].
    + simpl. intros [= <-]. eexists _, _. split; [done|]. simpl.
      split; [done|]. split; [done|]. split; [by intros [? ?]|done].
Qed.

Lemma getDependencyTree_loop fuel visited :
  (forall text v r', getDependencyTree env fuel text v = Some r' ->
     exists sub t, r' = (Return sub, t)) ->
  forall links acc r,
  forEachF links
    (fun '(visited, links) l =>
       let name := link_content l in
       if decide (name ∈ visited) then
         liftF (ret (visited, links ++ [TreeLink name Circular None]))
       else
         let visited := visited ∪ {[name]} in
         bindF
           (tryCatchF
              (describeLink env
                 (fun text => getDependencyTree env fuel text visited) name)
              (fun e => liftF (ret (TreeLink name (Failed (message e)) None))))
           (fun entry => liftF (ret (visited ∖ {[name]}, links ++ [entry]))))
    (visited, acc) = Some r ->
  exists entries t,
    r = (Return (visited, acc ++ entries), t)
    /\ Forall2 (entryFor env visited) links entries.
Proof.
  intros IH. induction links as [|l links IHl]; intros acc r Hrun.
  - injection Hrun as <-. exists [], []. by rewrite app_nil_r.
  - cbn [forEachF] in Hrun. apply bindF_Some in Hrun as (r1 & t1 & Hbody & Hrest).
    assert (Hentry : exists entry, r1 = Return (visited, acc ++ [entry])
                                   /\ entryFor env visited l entry).
    { cbv zeta in Hbody.
      destruct (decide (link_content l ∈ visited)) as [Hin|Hnew].
      - injection Hbody as <- <-. eexists. split; [done|].
        unfold entryFor, expectedKind. rewrite decide_True by done. simpl.
        split; [done|]. split; [done|]. split; [by intros [? ?]|done].
      - apply bindF_Some in Hbody as (r0 & t0 & Hdesc & Hret).
        apply (describeLink_spec _ visited) in Hdesc
          as (entry & t & [= -> ->] & Hname & Hkind & Hchildren); [|done|].
        + destruct Hret as (r2 & t2 & [= <- <-] & [= -> ->]).
          exists entry. split; [|done].
          do 3 f_equal. set_solver.
        + intros text r'. apply IH. }
    destruct Hentry as (entry & -> & Hentry).
    destruct Hrest as (r2 & t2 & Htail & ->).
    apply IHl in Htail as (entries & t & [= -> ->] & Hall).
    exists (entry :: entries), (t1 ++ t). split.
    + by rewrite <- app_assoc.
    + by apply Forall2_cons.
Qed.

Lemma getDependencyTree_returns fuel : forall content visited r,
  getDependencyTree env fuel content visited = Some r ->
  exists entries t,
    r = (Return (Tree (excerpt content) entries), t)
    /\ Forall2 (entryFor env visited) (extractLinks content) entries.
Proof.
  induction fuel as [|fuel IH]; intros content visited r Hrun; [done|].
  rewrite getDependencyTree_unfold in Hrun.
  apply bindF_Some in Hrun as (r1 & t1 & Hloop & Hrest).
  apply getDependencyTree_loop in Hloop as (entries & t & [= -> ->] & Hall).
  - destruct Hrest as (r2 & t2 & [= <- <-] & ->).
    by exists entries, (t ++ []).
  - intros text v r' Hr'. apply IH in Hr' as (e' & t' & -> & _). by eexists _, _.
Qed.

End DependencyTree.

(** X6.  When [getDependencyTree] returns, it returns a tree and throws
    nothing, whatever the file system does.  The tree carries the first 100
    characters of the text, with three dots after them when the text is
    longer, and one entry for each link of the text, in the order of the
    scan, named by the reference of the link.  For a reference that is not
    the name of an inherited member alone, the type of the entry is told by
    the reference: [circular] if the reference is among the names above it;
    otherwise [substitute] if it is a substitute with a value that is not
    empty; otherwise [missing] if its path does not exist, [error] with the
    message if the file cannot be read, and [file] with its path if it can.
    Only [substitute] and [file] entries have children. *)
Theorem getDependencyTree_entries env fuel content visited r :
  getDependencyTree env fuel content visited = Some r ->
  exists entries t,
    r = (Return (Tree (excerpt content) entries), t)
    /\ map linkName entries = map link_content (extractLinks content)
    /\ Forall2
         (fun l entry =>
            inheritedOnly (substitutes env) (link_content l) = false ->
            linkKind entry = expectedKind env visited (link_content l))
         (extractLinks content) entries
    /\ Forall (fun entry =>
                 is_Some (linkChildren entry)
                 <-> hasChildren (linkKind entry) = true) entries.
Proof.
  intros Hrun. apply getDependencyTree_returns in Hrun as (entries & t & -> & Hall).
  exists entries, t. split; [done|].
  induction Hall as [|l entry links entries (Hname & Hkind & Hchildren) _ IH].
  - split; [done|]. split; constructor.
  - destruct IH as (IH1 & IH2 & IH3). simpl.
    split; [by rewrite Hname, IH1|]. split; [by constructor|].
    by apply Forall_cons.
Qed.

Lemma getDependencyTree_entries_witness :
  exists entries t,
    getDependencyTree Examples.twoCycle 3 "{{A}} {{x.md}}" {["A"]}
    = Some (Return (Tree "{{A}} {{x.md}}" entries), t)
    /\ map linkName entries = ["A"; "x.md"]
    /\ map linkKind entries = [Circular; Missing].
Proof.
  assert (Hrun :
    getDependencyTree Examples.twoCycle 3 "{{A}} {{x.md}}" ({["A"]} : gset string)
    = Some (Return (Tree "{{A}} {{x.md}}"
                      [TreeLink "A" Circular None;
                       TreeLink "x.md" Missing None]),
            [PathExists "/srv/app/x.md"])).
  { vm_compute. reflexivity. }
  destruct (getDependencyTree_entries _ _ _ _ _ Hrun)
    as (entries & t & Hr & Hnames & Hkinds & _).
  exists entries, t. rewrite Hrun. split; [by rewrite Hr|].
  split; [exact Hnames|]. injection Hr as <-. reflexivity.
Defined.

Section DependencyTreeFuel.

Variable env : environment.

Hypothesis files_without_links : forall p text,
  fs_readFile (fs env) p = Return text -> extractLinks text = [].

Lemma getDependencyTree_no_link fuel text visited :
  extractLinks text = [] ->
  getDependencyTree env (S fuel) text visited
  = Some (Return (Tree (excerpt text) []), []).
Proof. intros H. rewrite getDependencyTree_unfold, H. reflexivity. Qed.

Lemma describeLink_total subtreeOf name :
  (forall value, truthyProperty (substitutes env) name = Some value ->
     is_Some (subtreeOf value)) ->
  (forall text, extractLinks text = [] -> is_Some (subtreeOf text)) ->
  (forall text r', subtreeOf text = Some r' -> exists sub t, r' = (Return sub, t)) ->
  is_Some
    (tryCatchF (describeLink env subtreeOf name)
       (fun e => liftF (ret (TreeLink name (Failed (message e)) None)))).
Proof.
  intros Hsub Hfile Hshape. unfold describeLink.
  destruct (truthyProperty (substitutes env) name) as [value|].
  - destruct (Hsub value eq_refl) as [r Hr]. rewrite Hr.
    destruct (Hshape _ _ Hr) as (sub & t & ->). by eexists.
  - unfold pathExists, readFile, liftF. cbn [bindF].
    destruct (fs_pathExists (fs env) _); [|by eexists].
    destruct (fs_readFile (fs env) _) as [fileContent|e] eqn:Hread; [|by eexists].
    destruct (Hfile fileContent) as [r Hr]; [by eapply files_without_links|].
    rewrite Hr. destruct (Hshape _ _ Hr) as (sub & t & ->). by eexists.
Qed.

Lemma forEachF_cons_Some {A S} (x : A) (xs : list A) (body : S -> A -> F S)
    (acc acc' : S) (t : list event) :
  body acc x = Some (Return acc', t) ->
  forEachF (x :: xs) body acc
  = match forEachF xs body acc' with
    | None => None
    | Some (r, t2) => Some (r, t ++ t2)
    end.
Proof. intros H. cbn [forEachF]. unfold bindF. by rewrite H. Qed.

Lemma getDependencyTree_total fuel : forall content visited,
  size (Graph.nodes (substitutes env) ∖ visited) + 2 <= fuel ->
  is_Some (getDependencyTree env fuel content visited).
Proof.
  induction fuel as [|fuel IH]; intros content visited Hfuel; [lia|].
  rewrite getDependencyTree_unfold.
  match goal with |- context [forEachF _ ?b _] => set (body := b) end.
  assert (Hshape : forall text v r', getDependencyTree env fuel text v = Some r' ->
                     exists sub t, r' = (Return sub, t)).
  { intros text v r' Hr'.
    apply getDependencyTree_returns in Hr' as (e' & t' & -> & _). by eexists _, _. }
  assert (Hbody : forall acc l,
    exists entry t, body (visited, acc) l = Some (Return (visited, acc ++ [entry]), t)).
  { intros acc l. unfold body. cbv beta iota zeta.
    destruct (decide (link_content l ∈ visited)) as [Hin|Hnew]; [by eexists _, _|].
    destruct (describeLink_total
                (fun text => getDependencyTree env fuel text
                               (visited ∪ {[link_content l]}))
                (link_content l)) as [r Hr].
    - intros value Hvalue. apply IH.
      assert (size (Graph.nodes (substitutes env) ∖ (visited ∪ {[link_content l]}))
              < size (Graph.nodes (substitutes env) ∖ visited)); [|lia].
      apply subset_size. apply truthyProperty_node in Hvalue. set_solver.
    - intros text Htext. destruct fuel as [|fuel']; [lia|].
      rewrite getDependencyTree_no_link by done. by eexists.
    - intros text r'. apply Hshape.
    - pose proof Hr as Hentry.
      apply (describeLink_spec _ _ visited) in Hentry
        as (entry & t & -> & _); [|done|intros text r'; apply Hshape].
      rewrite Hr. cbn [liftF ret bindF].
      replace ((visited ∪ {[link_content l]}) ∖ {[link_content l]})
        with visited by set_solver.
      by eexists _, _. }
  assert (Hloop : forall links acc,
    exists entries t,
      forEachF links body (visited, acc) = Some (Return (visited, acc ++ entries), t)).
  { induction links as [|l links IHl]; intros acc.
    - exists [], []. by rewrite app_nil_r.
    - destruct (Hbody acc l) as (entry & t & Hstep).
      destruct (IHl (acc ++ [entry])) as (entries & t' & Hrest).
      rewrite (forEachF_cons_Some _ _ _ _ _ _ Hstep), Hrest.
      eexists (_ :: entries), _. by rewrite <- app_assoc. }
  destruct (Hloop (extractLinks content) []) as (entries & t & ->). by eexists.
Qed.

End DependencyTreeFuel.

(** X7.  When the files that can be read hold no marker,
    [getDependencyTree] comes to an end on every text, whatever the
    substitutes, and so when substitutes refer to themselves or to each
    other: its calls never nest deeper than the number of substitutes plus
    two, each nested call being for a name that is not among the names above
    it. *)
Theorem getDependencyTree_terminates env content visited :
  (forall p text,
     fs_readFile (fs env) p = Return text -> extractLinks text = []) ->
  exists tree t,
    getDependencyTree env (length (substitutes env) + 2) content visited
    = Some (Return tree, t).
Proof.
  intros Hfiles.
  destruct (getDependencyTree_total env Hfiles
              (length (substitutes env) + 2) content visited) as [r Hr].
  - assert (size (Graph.nodes (substitutes env) ∖ visited)
            <= size (Graph.nodes (substitutes env))) by (apply subseteq_size; set_solver).
    pose proof (size_nodes env). lia.
  - pose proof Hr as Hshape.
    apply getDependencyTree_returns in Hshape as (entries & t & -> & _).
    by eexists _, _.
Qed.

Lemma getDependencyTree_terminates_witness :
  exists tree t,
    getDependencyTree Examples.twoCycle 4 "{{A}} and {{B}}" ∅
    = Some (Return tree, t).
Proof.
  apply (getDependencyTree_terminates Examples.twoCycle "{{A}} and {{B}}" ∅).
  intros p text H. discriminate H.
Defined.

(** ** What the cycle detection finds *)

Section CycleDetection.

Variable env : environment.

(** A call of [dfs] only adds visited names and cycles, and leaves the
    recursion stack as it found it. *)
Lemma dfs_frame fuel : forall key path st st',
  dfs env fuel key path st = Some st' ->
  visited st ⊆ visited st'
  /\ recursionStack st' = recursionStack st
  /\ exists extra, cycles st' = cycles st ++ extra.
Proof.
  induction fuel as [|fuel IH]; intros key path st st' Hdfs; [done|].
  rewrite dfs_unfold in Hdfs.
  destruct (decide (key ∈ recursionStack st)) as [Hon|Hoff].
  { inversion Hdfs; subst st'. simpl. split; [done|]. split; [done|].
    by eexists. }
  destruct (decide (key ∈ visited st)) as [|Hnew].
  { inversion Hdfs; subst st'. split; [done|]. split; [done|].
    exists []. by rewrite app_nil_r. }
  set (st1 := {| visited := visited st ∪ {[key]};
                 recursionStack := recursionStack st ∪ {[key]};
                 cycles := cycles st |}) in *.
  assert (Hloop : forall links st2 st3,
    dfsLinks env (dfs env fuel) (path ++ [key]) links st2 = Some st3 ->
    visited st2 ⊆ visited st3
    /\ recursionStack st3 = recursionStack st2
    /\ exists extra, cycles st3 = cycles st2 ++ extra).
  { induction links as [|l links IHl]; intros st2 st3 Hrun.
    - rewrite dfsLinks_nil in Hrun. inversion Hrun; subst st3.
      split; [done|]. split; [done|]. exists []. by rewrite app_nil_r.
    - rewrite dfsLinks_cons in Hrun.
      destruct (truthyProperty (substitutes env) (link_content l)); [|by apply IHl].
      destruct (dfs env fuel (link_content l) (path ++ [key]) st2)
        as [st2'|] eqn:Hchild; [|done].
      destruct (IH _ _ _ _ Hchild) as (Hv & Hs & e1 & Hc).
      destruct (IHl _ _ Hrun) as (Hv' & Hs' & e2 & Hc').
      split; [set_solver|]. split; [congruence|].
      exists (e1 ++ e2). by rewrite Hc', Hc, app_assoc. }
  destruct (truthyProperty (substitutes env) key) as [content|].
  - destruct (dfsLinks env (dfs env fuel) (path ++ [key]) (extractLinks content) st1)
      as [st3|] eqn:Hrun; [|done].
    inversion Hdfs; subst st'; clear Hdfs. simpl.
    destruct (Hloop _ _ _ Hrun) as (Hv & Hs & extra & Hc).
    unfold st1 in Hv, Hs, Hc. simpl in Hv, Hs, Hc.
    split; [set_solver|]. split; [set_solver|]. by exists extra.
  - inversion Hdfs; subst st'; clear Hdfs. simpl.
    split; [set_solver|]. split; [set_solver|]. exists []. by rewrite app_nil_r.
Qed.

Lemma cycles_unchanged {A} (l e1 e2 : list A) :
  (l ++ e1) ++ e2 = l -> e1 = [] /\ e2 = [].
Proof.
  intros H. apply (f_equal length) in H. rewrite !length_app in H.
  destruct e1, e2; simpl in H; try lia. done.
Qed.

(** A call of [dfs] that records no cycle ends with [key] visited, and with
    the names it is done with still closed under the edges and ranked. *)
Lemma dfs_quiet fuel : forall key path st st',
  dfs env fuel key path st = Some st' ->
  cycles st' = cycles st ->
  (exists rank, settled (substitutes env) st rank) ->
  key ∈ visited st' /\ (key ∉ recursionStack st)
  /\ exists rank, settled (substitutes env) st' rank.
Proof.
  induction fuel as [|fuel IH]; intros key path st st' Hdfs Hquiet [rank Hrank];
    [done|].
  rewrite dfs_unfold in Hdfs.
  destruct (decide (key ∈ recursionStack st)) as [Hon|Hoff].
  { inversion Hdfs; subst st'. simpl in Hquiet.
    apply (f_equal length) in Hquiet. rewrite length_app in Hquiet.
    simpl in Hquiet. lia. }
  destruct (decide (key ∈ visited st)) as [Hold|Hnew].
  { inversion Hdfs; subst st'. split; [done|]. split; [done|]. by exists rank. }
  set (st1 := {| visited := visited st ∪ {[key]};
                 recursionStack := recursionStack st ∪ {[key]};
                 cycles := cycles st |}) in *.
  assert (Hrank1 : settled (substitutes env) st1 rank).
  { intros a b Ha Hoffa Hedge. unfold st1 in *. simpl in *.
    destruct (Hrank a b) as (Hb & Hoffb & Hlt); [set_solver|set_solver|done|].
    split; [set_solver|]. split; [|done].
    intros [?|Heq%elem_of_singleton]%elem_of_union; [done|]. by subst b. }
  assert (Hloop : forall links st2 st3,
    dfsLinks env (dfs env fuel) (path ++ [key]) links st2 = Some st3 ->
    cycles st3 = cycles st2 ->
    recursionStack st2 = recursionStack st1 ->
    (exists rank2, settled (substitutes env) st2 rank2) ->
    visited st2 ⊆ visited st3
    /\ recursionStack st3 = recursionStack st1
    /\ (exists rank3, settled (substitutes env) st3 rank3)
    /\ forall l, l ∈ links ->
         is_Some (truthyProperty (substitutes env) (link_content l)) ->
         link_content l ∈ visited st3
         /\ link_content l ∉ recursionStack st1).
  { induction links as [|l links IHl]; intros st2 st3 Hrun Hc Hs Hr.
    - rewrite dfsLinks_nil in Hrun. inversion Hrun; subst st3.
      split; [done|]. split; [done|]. split; [done|].
      intros l Hl. by apply elem_of_nil in Hl.
    - rewrite dfsLinks_cons in Hrun.
      destruct (truthyProperty (substitutes env) (link_content l)) as [v|] eqn:Hl.
      + destruct (dfs env fuel (link_content l) (path ++ [key]) st2)
          as [st2'|] eqn:Hchild; [|done].
        destruct (dfs_frame _ _ _ _ _ Hchild) as (Hv & Hs' & e1 & Hc1).
        assert (Hframe : exists e2, cycles st3 = cycles st2' ++ e2).
        { clear - Hrun IH. revert st2' Hrun.
          induction links as [|l' links IHl']; intros st2' Hrun.
          - rewrite dfsLinks_nil in Hrun. inversion Hrun; subst st3.
            exists []. by rewrite app_nil_r.
          - rewrite dfsLinks_cons in Hrun.
            destruct (truthyProperty (substitutes env) (link_content l'));
              [|by apply IHl'].
            destruct (dfs env fuel (link_content l') (path ++ [key]) st2')
              as [st4|] eqn:Hchild; [|done].
            destruct (dfs_frame _ _ _ _ _ Hchild) as (_ & _ & e1 & Hc1).
            destruct (IHl' _ Hrun) as (e2 & Hc2).
            exists (e1 ++ e2). by rewrite Hc2, Hc1, app_assoc. }
        destruct Hframe as (e2 & Hc2).
        rewrite Hc2, Hc1 in Hc. apply cycles_unchanged in Hc as [-> ->].
        rewrite app_nil_r in Hc1, Hc2.
        destruct (IH _ _ _ _ Hchild Hc1 Hr) as (Hin & Hoffl & Hr').
        destruct (IHl _ _ Hrun) as (Hv3 & Hs3 & Hr3 & Hlinks);
          [by rewrite Hc2|congruence|done|].
        split; [set_solver|]. split; [done|]. split; [done|].
        intros l' [->|Hl']%elem_of_cons Htruthy.
        * split; [set_solver|congruence].
        * by apply Hlinks.
      + destruct (IHl _ _ Hrun) as (Hv3 & Hs3 & Hr3 & Hlinks); [done|done|done|].
        split; [done|]. split; [done|]. split; [done|].
        intros l' [->|Hl']%elem_of_cons Htruthy.
        * rewrite Hl in Htruthy. by destruct Htruthy.
        * by apply Hlinks. }
  destruct (truthyProperty (substitutes env) key) as [content|] eqn:Hcontent.
  - destruct (dfsLinks env (dfs env fuel) (path ++ [key]) (extractLinks content) st1)
      as [st3|] eqn:Hrun; [|done].
    inversion Hdfs; subst st'; clear Hdfs. simpl in Hquiet |- *.
    destruct (Hloop _ _ _ Hrun) as (Hv3 & Hs3 & [rank3 Hr3] & Hlinks);
      [done|done|by exists rank|].
    unfold st1 in Hv3, Hs3, Hlinks. simpl in Hv3, Hs3, Hlinks.
    split; [set_solver|]. split; [done|].
    exists (fun x =>
      if decide (x = key)
      then S (max_list (rank3 <$> (link_content <$> extractLinks content)))
      else rank3 x).
    intros a b Ha Hoffa Hedge. simpl in Ha, Hoffa |- *.
    destruct (decide (a = key)) as [->|Hne].
    + destruct Hedge as (content' & Hcontent' & Htarget & Htruthy).
      assert (content' = content) as -> by congruence.
      apply list_elem_of_fmap in Htarget as (l & -> & Hl).
      destruct (Hlinks l Hl Htruthy) as (Hb & Hoffb).
      split; [done|]. split; [set_solver|].
      rewrite decide_False by set_solver.
      assert (rank3 (link_content l)
              <= max_list (rank3 <$> (link_content <$> extractLinks content)));
        [|lia].
      apply max_list_elem_of_le. apply list_elem_of_fmap_2.
      by apply list_elem_of_fmap_2.
    + destruct (Hr3 a b) as (Hb & Hoffb & Hlt); [done|set_solver|done|].
      split; [done|]. split; [set_solver|].
      rewrite decide_False by set_solver. done.
  - inversion Hdfs; subst st'; clear Hdfs. simpl in Hquiet |- *.
    split; [set_solver|]. split; [done|]. exists rank.
    intros a b Ha Hoffa Hedge. simpl in Ha, Hoffa |- *.
    destruct (decide (a = key)) as [->|Hne].
    + destruct Hedge as (content' & Hcontent' & _). congruence.
    + destruct (Hrank a b) as (Hb & Hoffb & Hlt); [set_solver|set_solver|done|].
      split; [set_solver|]. split; [set_solver|done].
Qed.

Lemma dfsKeys_frame fuel keys : forall st st',
  dfsKeys env fuel keys st = Some st' ->
  visited st ⊆ visited st'
  /\ recursionStack st' = recursionStack st
  /\ exists extra, cycles st' = cycles st ++ extra.
Proof.
  induction keys as [|key keys IH]; intros st st' Hrun.
  - inversion Hrun; subst st'. split; [done|]. split; [done|].
    exists []. by rewrite app_nil_r.
  - rewrite dfsKeys_cons in Hrun.
    destruct (decide (key ∈ visited st)); [by apply IH|].
    destruct (dfs env fuel key [] st) as [st1|] eqn:Hdfs; [|done].
    destruct (dfs_frame _ _ _ _ _ Hdfs) as (Hv & Hs & e1 & Hc).
    destruct (IH _ _ Hrun) as (Hv' & Hs' & e2 & Hc').
    split; [set_solver|]. split; [congruence|].
    exists (e1 ++ e2). by rewrite Hc', Hc, app_assoc.
Qed.

Lemma dfsKeys_quiet fuel keys : forall st st',
  dfsKeys env fuel keys st = Some st' ->
  cycles st' = cycles st ->
  (exists rank, settled (substitutes env) st rank) ->
  (forall key, key ∈ keys -> key ∈ visited st')
  /\ exists rank, settled (substitutes env) st' rank.
Proof.
  induction keys as [|key keys IH]; intros st st' Hrun Hquiet Hrank.
  - inversion Hrun; subst st'. split; [|done].
    intros key Hkey. by apply elem_of_nil in Hkey.
  - rewrite dfsKeys_cons in Hrun.
    destruct (decide (key ∈ visited st)) as [Hold|Hnew].
    + destruct (IH _ _ Hrun Hquiet Hrank) as (Hkeys & Hrank').
      destruct (dfsKeys_frame _ _ _ _ Hrun) as (Hv & _).
      split; [|done]. intros k [->|Hk]%elem_of_cons; [set_solver|by apply Hkeys].
    + destruct (dfs env fuel key [] st) as [st1|] eqn:Hdfs; [|done].
      destruct (dfs_frame _ _ _ _ _ Hdfs) as (_ & _ & e1 & Hc1).
      destruct (dfsKeys_frame _ _ _ _ Hrun) as (Hv & _ & e2 & Hc2).
      rewrite Hc2, Hc1 in Hquiet. apply cycles_unchanged in Hquiet as [-> ->].
      rewrite app_nil_r in Hc1, Hc2.
      destruct (dfs_quiet _ _ _ _ _ Hdfs Hc1 Hrank) as (Hin & _ & Hrank1).
      destruct (IH _ _ Hrun Hc2 Hrank1) as (Hkeys & Hrank').
      split; [|done]. intros k [->|Hk]%elem_of_cons; [set_solver|by apply Hkeys].
Qed.

(** A rank that goes down along every edge leaves no room for a cycle. *)
Lemma walk_rank (rank : string -> nat) :
  (forall a b, Graph.edge (substitutes env) a b -> rank b < rank a) ->
  forall inner a z,
    Graph.walk (substitutes env) (a :: inner ++ [z]) -> rank z < rank a.
Proof.
  intros Hdown. induction inner as [|b inner IH]; intros a z Hwalk.
  - simpl in Hwalk. apply Hdown. tauto.
  - change (Graph.edge (substitutes env) a b
            /\ Graph.walk (substitutes env) (b :: inner ++ [z])) in Hwalk.
    destruct Hwalk as [Hedge Hwalk]. apply Hdown in Hedge. apply IH in Hwalk. lia.
Qed.

Lemma checkCircularDependencies_complete :
  checkCircularDependencies env = Some [] -> acyclic (substitutes env).
Proof.
  unfold checkCircularDependencies.
  destruct (dfsKeys env _ _ _) as [st|] eqn:Hrun; [|done].
  intros [= Hnone] c [(key & inner & ->) Hwalk].
  destruct (dfsKeys_frame _ _ _ _ Hrun) as (_ & Hstack & _). simpl in Hstack.
  destruct (dfsKeys_quiet _ _ _ _ Hrun) as (Hkeys & rank & Hrank); [done| |].
  { exists (fun _ => 0). intros a b Ha. simpl in Ha. set_solver. }
  assert (Hdown : forall a b, Graph.edge (substitutes env) a b -> rank b < rank a).
  { intros a b Hedge. destruct (Hrank a b) as (_ & _ & Hlt); [| |done|done].
    - apply Hkeys. destruct Hedge as (content & Hcontent & _).
      apply truthyProperty_node in Hcontent.
      by apply elem_of_list_to_set in Hcontent.
    - rewrite Hstack. set_solver. }
  pose proof (walk_rank rank Hdown inner key key Hwalk). lia.
Qed.

End CycleDetection.

Section SimpleCycles.

Variable env : environment.

(** The names of a walk, but for its last one, all have an edge that leaves
    them: they are substitutes with a value. *)
Lemma walk_sources l : forall z,
  Graph.walk (substitutes env) (l ++ [z]) ->
  forall a, a ∈ l -> is_Some (truthyProperty (substitutes env) a).
Proof.
  induction l as [|x l IH]; intros z Hwalk a Ha; [by apply elem_of_nil in Ha|].
  assert (Hx : is_Some (truthyProperty (substitutes env) x)
               /\ Graph.walk (substitutes env) (l ++ [z])).
  { destruct l as [|y l]; simpl in Hwalk.
    - destruct Hwalk as [(content & -> & _) _]. by split.
    - destruct Hwalk as [(content & -> & _) Hrest]. by split. }
  apply elem_of_cons in Ha as [->|Ha]; [tauto|]. eapply IH; [|done]. apply Hx.
Qed.

(** While the path has no name twice and the recursion stack holds the
    names of the path, the cycles [dfs] records have no name twice but for
    the one that closes them. *)
Lemma dfs_simple fuel : forall key path st st',
  dfs env fuel key path st = Some st' ->
  recursionStack st = list_to_set path ->
  NoDup path ->
  Forall simpleCycle (cycles st) ->
  Forall simpleCycle (cycles st').
Proof.
  induction fuel as [|fuel IH]; intros key path st st' Hdfs Hstack Hpath Hcycles;
    [done|].
  rewrite dfs_unfold in Hdfs.
  destruct (decide (key ∈ recursionStack st)) as [Hon|Hoff].
  { inversion Hdfs; subst st'; clear Hdfs. simpl.
    apply Forall_app. split; [done|]. apply Forall_singleton.
    rewrite Hstack in Hon. apply elem_of_list_to_set in Hon.
    destruct (sliceFromIndexOf_first key path Hon)
      as (before & after & Hbefore & _ & ->).
    exists key, after. split; [done|].
    rewrite Hbefore in Hpath. by apply NoDup_app in Hpath as (_ & _ & Hpath). }
  destruct (decide (key ∈ visited st)); [by inversion Hdfs; subst|].
  set (st1 := {| visited := visited st ∪ {[key]};
                 recursionStack := recursionStack st ∪ {[key]};
                 cycles := cycles st |}) in *.
  assert (Hst1 : recursionStack st1 = list_to_set (path ++ [key])).
  { unfold st1. simpl. by rewrite Hstack, list_to_set_snoc_L. }
  assert (Hpath1 : NoDup (path ++ [key])).
  { apply NoDup_app. split; [done|]. split; [|apply NoDup_singleton].
    intros x Hx ->%list_elem_of_singleton. apply Hoff. rewrite Hstack.
    by apply elem_of_list_to_set. }
  assert (Hloop : forall links st2 st3,
    dfsLinks env (dfs env fuel) (path ++ [key]) links st2 = Some st3 ->
    recursionStack st2 = recursionStack st1 ->
    Forall simpleCycle (cycles st2) ->
    Forall simpleCycle (cycles st3)).
  { induction links as [|l links IHl]; intros st2 st3 Hrun Hs2 Hc2.
    - rewrite dfsLinks_nil in Hrun. by inversion Hrun; subst.
    - rewrite dfsLinks_cons in Hrun.
      destruct (truthyProperty (substitutes env) (link_content l)); [|by eapply IHl].
      destruct (dfs env fuel (link_content l) (path ++ [key]) st2)
        as [st2'|] eqn:Hchild; [|done].
      destruct (dfs_frame _ _ _ _ _ _ Hchild) as (_ & Hs2' & _).
      eapply IHl; [exact Hrun|congruence|].
      eapply IH; [exact Hchild|congruence|done|done]. }
  destruct (truthyProperty (substitutes env) key) as [content|].
  - destruct (dfsLinks env (dfs env fuel) (path ++ [key]) (extractLinks content) st1)
      as [st3|] eqn:Hrun; [|done].
    inversion Hdfs; subst st'; clear Hdfs. simpl. by eapply Hloop.
  - by inversion Hdfs; subst st'.
Qed.

Lemma dfsKeys_simple fuel keys : forall st st',
  dfsKeys env fuel keys st = Some st' ->
  recursionStack st = ∅ ->
  Forall simpleCycle (cycles st) ->
  Forall simpleCycle (cycles st').
Proof.
  induction keys as [|key keys IH]; intros st st' Hrun Hstack Hcycles.
  - by inversion Hrun; subst.
  - rewrite dfsKeys_cons in Hrun.
    destruct (decide (key ∈ visited st)); [by eapply IH|].
    destruct (dfs env fuel key [] st) as [st1|] eqn:Hdfs; [|done].
    destruct (dfs_frame _ _ _ _ _ _ Hdfs) as (_ & Hs1 & _).
    eapply IH; [exact Hrun|congruence|].
    eapply dfs_simple; [exact Hdfs|done|apply NoDup_nil_2|done].
Qed.

(** A cycle without repetition names at most as many substitutes as there
    are. *)
Lemma simpleCycle_length key inner :
  NoDup (key :: inner) ->
  (forall a, a ∈ key :: inner -> is_Some (truthyProperty (substitutes env) a)) ->
  length (key :: inner ++ [key]) <= S (length (substitutes env)).
Proof.
  intros Hnodup Hnodes.
  assert (length (key :: inner) <= size (Graph.nodes (substitutes env))).
  { rewrite <- (size_list_to_set (C := gset string)) by done.
    apply subseteq_size. intros a Ha%elem_of_list_to_set.
    destruct (Hnodes a Ha) as [v Hv]. by eapply truthyProperty_node. }
  pose proof (size_nodes env). simpl in *. rewrite length_app. simpl. lia.
Qed.

End SimpleCycles.

(** X8.  [checkCircularDependencies] returns for every substitute mapping,
    and the list it returns is empty exactly when the substitutes have no
    circular reference: when no walk from a substitute along the markers of
    the values, through substitutes with a value, comes back to where it
    started.  So no cycle escapes the traversal, whatever the order of the
    keys and of the markers. *)
Theorem checkCircularDependencies_finds_cycles env :
  exists cycles,
    checkCircularDependencies env = Some cycles
    /\ (cycles = [] <-> acyclic (substitutes env)).
Proof.
  destruct (checkCircularDependencies_total env) as (cycles & Hrun).
  exists cycles. split; [done|]. split.
  - intros ->. by apply checkCircularDependencies_complete.
  - intros Hacyclic. apply checkCircularDependencies_sound in Hrun.
    destruct cycles as [|c cycles]; [done|].
    apply Forall_cons in Hrun as [Hc _]. by apply Hacyclic in Hc.
Qed.

(** X9.  Every cycle that [checkCircularDependencies] reports starts and
    ends with the same name and names nothing else twice; all its names are
    substitutes with a value that is not empty, so that a reported cycle has
    at most one entry more than there are substitutes. *)
Theorem checkCircularDependencies_cycles_simple env cycles :
  checkCircularDependencies env = Some cycles ->
  Forall
    (fun c =>
       simpleCycle c
       /\ (forall name, name ∈ c ->
             is_Some (truthyProperty (substitutes env) name))
       /\ length c <= S (length (substitutes env)))
    cycles.
Proof.
  intros Hrun.
  assert (Hsimple : Forall simpleCycle cycles).
  { unfold checkCircularDependencies in Hrun.
    destruct (dfsKeys env _ _ _) as [st|] eqn:Hkeys; [|done].
    injection Hrun as <-. by eapply dfsKeys_simple. }
  apply checkCircularDependencies_sound in Hrun.
  rewrite Forall_forall in Hrun, Hsimple. apply Forall_forall. intros c Hc.
  destruct (Hsimple c Hc) as (key & inner & -> & Hnodup).
  destruct (Hrun _ Hc) as [_ Hwalk].
  assert (Hnames : forall a, a ∈ key :: inner ->
            is_Some (truthyProperty (substitutes env) a)).
  { by apply (walk_sources env (key :: inner) key). }
  split; [by exists key, inner|]. split.
  - intros name Hname. change (name ∈ (key :: inner) ++ [key]) in Hname.
    apply elem_of_app in Hname as [Hname|Hname].
    + by apply Hnames.
    + apply list_elem_of_singleton in Hname as ->.
      apply Hnames, list_elem_of_here.
  - by apply simpleCycle_length.
Qed.

Lemma checkCircularDependencies_cycles_simple_witness :
  Forall
    (fun c =>
       simpleCycle c
       /\ (forall name, name ∈ c ->
             is_Some (truthyProperty (substitutes Examples.twoCycle) name))
       /\ length c <= S (length (substitutes Examples.twoCycle)))
    [["A"; "B"; "A"]].
Proof.
  apply (checkCircularDependencies_cycles_simple Examples.twoCycle).
  reflexivity.
Defined.

(** ** The traversal of [DataManager.validateData] *)

Section ValidateData.

Variable env : environment.

Lemma getProperty_is_Some obj key :
  key ∈ map fst obj -> is_Some (getProperty obj key).
Proof.
  induction obj as [|[k v] obj IH]; [by intros ?%elem_of_nil|].
  simpl. destruct (String.eqb_spec k key) as [->|Hne]; [done|].
  intros [?|Hin]%elem_of_cons; [done|]. by apply IH.
Qed.

Lemma inheritedOnly_key obj key :
  key ∈ map fst obj -> inheritedOnly obj key = false.
Proof.
  intros [v Hv]%getProperty_is_Some. unfold inheritedOnly. rewrite Hv.
  apply andb_false_r.
Qed.

Lemma checkCircular_unfold fuel key path st :
  inheritedOnly (substitutes env) key = false ->
  DataManager.checkCircular env (S fuel) key path st
  = if decide (key ∈ DataManager.recursionStack st) then
      Some (DataManager.Checked
              {| DataManager.visited := DataManager.visited st;
                 DataManager.recursionStack := DataManager.recursionStack st;
                 DataManager.issues :=
                   DataManager.issues st
                   ++ [DataManager.circularIssue path key] |})
    else if decide (key ∈ DataManager.visited st) then
      Some (DataManager.Checked st)
    else
      match
        match truthyProperty (substitutes env) key with
        | Some content =>
            DataManager.checkLinks env (DataManager.checkCircular env fuel)
              (path ++ [key])
              (DataManager.matchTexts content)
              {| DataManager.visited := DataManager.visited st ∪ {[key]};
                 DataManager.recursionStack :=
                   DataManager.recursionStack st ∪ {[key]};
                 DataManager.issues := DataManager.issues st |}
        | None =>
            Some (DataManager.Checked
                    {| DataManager.visited := DataManager.visited st ∪ {[key]};
                       DataManager.recursionStack :=
                         DataManager.recursionStack st ∪ {[key]};
                       DataManager.issues := DataManager.issues st |})
        end
      with
      | Some (DataManager.Checked st') =>
          Some (DataManager.Checked
                  {| DataManager.visited := DataManager.visited st';
                     DataManager.recursionStack :=
                       DataManager.recursionStack st' ∖ {[key]};
                     DataManager.issues := DataManager.issues st' |})
      | Some (DataManager.TypeError message) =>
          Some (DataManager.TypeError message)
      | None => None
      end.
Proof.
  intros Hown. cbn [DataManager.checkCircular].
  unfold DataManager.getMember, truthyProperty. unfold inheritedOnly in Hown.
  destruct (getProperty (substitutes env) key) as [[|c s]|]; [done|done|].
  rewrite andb_true_r in Hown. by rewrite Hown.
Qed.

Lemma checkLinks_nil checkBelow extended st :
  DataManager.checkLinks env checkBelow extended [] st
  = Some (DataManager.Checked st).
Proof. reflexivity. Qed.

Lemma checkLinks_cons checkBelow extended link links st :
  inheritedOnly (substitutes env) (DataManager.sliceInner link) = false ->
  DataManager.checkLinks env checkBelow extended (link :: links) st
  = match truthyProperty (substitutes env) (DataManager.sliceInner link) with
    | Some _ =>
        match checkBelow (DataManager.sliceInner link) extended st with
        | Some (DataManager.Checked st') =>
            DataManager.checkLinks env checkBelow extended links st'
        | Some (DataManager.TypeError message) =>
            Some (DataManager.TypeError message)
        | None => None
        end
    | None => DataManager.checkLinks env checkBelow extended links st
    end.
Proof.
  intros Hown. unfold DataManager.checkLinks. cbn [foldl].
  unfold DataManager.getMember, truthyProperty. unfold inheritedOnly in Hown.
  assert (Hstuck : forall other links,
    match other with
    | Some (DataManager.Checked _) => False
    | _ => True
    end ->
    foldl
      (fun acc link =>
         match acc with
         | Some (DataManager.Checked st) =>
             match
               match getProperty (substitutes env) (DataManager.sliceInner link)
               with
               | Some value => DataManager.Own value
               | None =>
                   if bool_decide
                        (DataManager.sliceInner link ∈ objectPrototypeNames)
                   then DataManager.Inherited
                   else DataManager.Undefined
               end
             with
             | DataManager.Own (String _ _) | DataManager.Inherited =>
                 checkBelow (DataManager.sliceInner link) extended st
             | DataManager.Own EmptyString | DataManager.Undefined =>
                 Some (DataManager.Checked st)
             end
         | Some (DataManager.TypeError message) =>
             Some (DataManager.TypeError message)
         | None => None
         end)
      other links = other).
  { intros other links' Hother.
    induction links' as [|l' links' IH]; [done|]. cbn [foldl].
    by destruct other as [[st'|message]|]. }
  destruct (getProperty (substitutes env) (DataManager.sliceInner link))
    as [[|c s]|]; [done| |].
  - destruct (checkBelow (DataManager.sliceInner link) extended st)
      as [[st'|message]|]; [done|by apply Hstuck..].
  - rewrite andb_true_r in Hown. by rewrite Hown.
Qed.

Lemma checkKeys_cons fuel key keys st :
  DataManager.checkKeys env fuel (key :: keys) st
  = match DataManager.checkCircular env fuel key [] st with
    | Some (DataManager.Checked st') => DataManager.checkKeys env fuel keys st'
    | Some (DataManager.TypeError message) =>
        Some (DataManager.TypeError message)
    | None => None
    end.
Proof.
  unfold DataManager.checkKeys. cbn [foldl].
  destruct (DataManager.checkCircular env fuel key [] st)
    as [[st'|message]|]; [done| |].
  - induction keys as [|k keys IH]; [done|]. by cbn [foldl].
  - induction keys as [|k keys IH]; [done|]. by cbn [foldl].
Qed.

Lemma sliceInner_fullMatch g : DataManager.sliceInner (LinkPattern.fullMatch g) = g.
Proof.
  unfold DataManager.sliceInner, LinkPattern.fullMatch, Js.sliceEnd.
  change (Str.drop 2 ("{{" +:+ g +:+ "}}")) with (g +:+ "}}").
  rewrite StrFacts.length_app. simpl String.length.
  replace (String.length g + 2 - 2) with (String.length g) by lia.
  apply StrFacts.take_app.
Qed.

Lemma joinWith_cons sep p q rest :
  DataManager.joinWith sep (p :: q :: rest)
  = p +:+ sep +:+ DataManager.joinWith sep (q :: rest).
Proof. reflexivity. Qed.

Lemma joinWith_snoc sep l x :
  l <> [] ->
  DataManager.joinWith sep (l ++ [x]) = DataManager.joinWith sep l +:+ sep +:+ x.
Proof.
  induction l as [|p l IH]; [done|]. intros _.
  destruct l as [|q l]; [done|].
  change ((p :: q :: l) ++ [x]) with (p :: (q :: l) ++ [x]).
  change ((q :: l) ++ [x]) with (q :: l ++ [x]) at 1.
  rewrite joinWith_cons. change (q :: l ++ [x]) with ((q :: l) ++ [x]).
  rewrite IH by done. rewrite joinWith_cons. by rewrite !StrFacts.app_assoc.
Qed.

Lemma joinWith_app sep l1 l2 :
  l2 <> [] ->
  exists prefix,
    DataManager.joinWith sep (l1 ++ l2) = prefix +:+ DataManager.joinWith sep l2.
Proof.
  intros Hl2. induction l1 as [|p l1 [prefix IH]]; [by exists ""|].
  destruct (l1 ++ l2) as [|q rest] eqn:E.
  { by destruct l1, l2. }
  exists (p +:+ sep +:+ prefix).
  change ((p :: l1) ++ l2) with (p :: l1 ++ l2). rewrite E, joinWith_cons, IH.
  by rewrite !StrFacts.app_assoc.
Qed.

(** The issue written when [key] is met on the path names the cycle. *)
Lemma circularIssue_reports key path :
  key ∈ path ->
  reports (sliceFromIndexOf key path ++ [key]) (DataManager.circularIssue path key).
Proof.
  intros Hin.
  destruct (sliceFromIndexOf_first key path Hin)
    as (before & after & Hpath & _ & ->).
  unfold reports, DataManager.circularIssue.
  assert (Hne : path <> []) by (rewrite Hpath; by destruct before).
  rewrite <- (joinWith_snoc " -> " path key Hne).
  rewrite Hpath, <- app_assoc.
  destruct (joinWith_app " -> " before ((key :: after) ++ [key])) as [prefix ->];
    [done|].
  by exists prefix.
Qed.

(** With the same fuel, [dfs] and [DataManager.checkCircular] go the same
    way. *)
Lemma checkCircular_dfs fuel : forall key path st cs,
  trimmedMarkers (substitutes env) = true ->
  ownMarkers (substitutes env) = true ->
  inheritedOnly (substitutes env) key = false ->
  inStep st cs ->
  recursionStack st = list_to_set path ->
  inStepOption (dfs env fuel key path st)
    (DataManager.checkCircular env fuel key path cs).
Proof.
  induction fuel as [|fuel IH];
    intros key path st cs Htrim Hown Hkey Hstep Hstack; [done|].
  destruct Hstep as (Hv & Hs & Hc).
  rewrite dfs_unfold, checkCircular_unfold by done. rewrite <- Hv, <- Hs.
  destruct (decide (key ∈ recursionStack st)) as [Hon|Hoff].
  { simpl. split; [done|]. split; [done|]. simpl.
    apply Forall2_app; [done|]. constructor; [|constructor].
    apply circularIssue_reports. rewrite Hstack in Hon.
    by apply elem_of_list_to_set in Hon. }
  destruct (decide (key ∈ visited st)); [done|].
  set (st1 := {| visited := visited st ∪ {[key]};
                 recursionStack := recursionStack st ∪ {[key]};
                 cycles := cycles st |}).
  set (cs1 := {| DataManager.visited := visited st ∪ {[key]};
                 DataManager.recursionStack := recursionStack st ∪ {[key]};
                 DataManager.issues := DataManager.issues cs |}).
  assert (Hstep1 : inStep st1 cs1) by done.
  assert (Hst1 : recursionStack st1 = list_to_set (path ++ [key])).
  { unfold st1. simpl. by rewrite Hstack, list_to_set_snoc_L. }
  assert (Hfinish : forall r c,
    inStepOption r c ->
    inStepOption
      match r with
      | None => None
      | Some st' =>
          Some {| visited := visited st';
                  recursionStack := recursionStack st' ∖ {[key]};
                  cycles := cycles st' |}
      end
      match c with
      | Some (DataManager.Checked st') =>
          Some (DataManager.Checked
                  {| DataManager.visited := DataManager.visited st';
                     DataManager.recursionStack :=
                       DataManager.recursionStack st' ∖ {[key]};
                     DataManager.issues := DataManager.issues st' |})
      | Some (DataManager.TypeError message) =>
          Some (DataManager.TypeError message)
      | None => None
      end).
  { intros [st'|] [[cs'|message]|]; simpl; try done.
    intros (Hv' & Hs' & Hc'). split; [done|]. split; [|done]. simpl.
    by rewrite Hs'. }
  destruct (truthyProperty (substitutes env) key) as [content|] eqn:Hcontent;
    [|by apply (Hfinish (Some st1) (Some (DataManager.Checked cs1)))].
  apply Hfinish. unfold extractLinks, DataManager.matchTexts.
  assert (Hentry : In (key, content) (substitutes env)).
  { clear - Hcontent. unfold truthyProperty in Hcontent.
    destruct (getProperty (substitutes env) key) as [v|] eqn:Hget; [|done].
    assert (v = content) as -> by (by destruct v; inversion Hcontent).
    clear Hcontent. induction (substitutes env) as [|[k w] obj IHobj];
      [done|].
    simpl in Hget. destruct (String.eqb_spec k key) as [->|_].
    - left. congruence.
    - right. by apply IHobj. }
  assert (Hms : forall m, m ∈ LinkPattern.matchAll content ->
            m_full m = LinkPattern.fullMatch (m_group m)
            /\ Js.trim (m_group m) = m_group m
            /\ inheritedOnly (substitutes env) (m_group m) = false).
  { intros m Hm. split; [|split].
    - destruct (ScanFacts.matchesFrom_spec (String.length content) content 0
                  (le_n _)) as (Hsound & _).
      by destruct (Hsound m Hm) as (_ & _ & Hfull).
    - unfold trimmedMarkers in Htrim. rewrite forallb_forall in Htrim.
      specialize (Htrim _ Hentry). simpl in Htrim.
      rewrite forallb_forall in Htrim.
      apply String.eqb_eq, Htrim. by apply list_elem_of_In.
    - unfold ownMarkers in Hown. rewrite forallb_forall in Hown.
      specialize (Hown _ Hentry). simpl in Hown.
      rewrite forallb_forall in Hown.
      apply negb_true_iff, Hown. by apply list_elem_of_In. }
  clear Hentry. revert Hms Hstep1 Hst1. generalize st1 cs1.
  generalize (LinkPattern.matchAll content).
  induction l as [|m ms IHms]; intros st2 cs2 Hms Hstep2 Hst2; [done|].
  cbn [map].
  destruct (Hms m (list_elem_of_here _ _)) as (Hfull & Htrimmed & Hownm).
  assert (Hlink : DataManager.sliceInner (m_full m) = link_content (toLink m)).
  { rewrite Hfull, sliceInner_fullMatch. simpl. by rewrite Htrimmed. }
  assert (Hownl : inheritedOnly (substitutes env) (link_content (toLink m))
                  = false).
  { simpl. by rewrite Htrimmed. }
  rewrite dfsLinks_cons, checkLinks_cons by (by rewrite Hlink).
  rewrite Hlink.
  assert (Hrest : forall m', m' ∈ ms ->
            m_full m' = LinkPattern.fullMatch (m_group m')
            /\ Js.trim (m_group m') = m_group m'
            /\ inheritedOnly (substitutes env) (m_group m') = false).
  { intros m' Hm'. apply Hms. by apply list_elem_of_further. }
  destruct (truthyProperty (substitutes env) (link_content (toLink m)));
    [|by apply IHms].
  pose proof (IH (link_content (toLink m)) (path ++ [key]) st2 cs2
                Htrim Hown Hownl Hstep2 Hst2) as Hchild.
  destruct (dfs env fuel (link_content (toLink m)) (path ++ [key]) st2)
    as [st3|] eqn:Hdfs;
    destruct (DataManager.checkCircular env fuel (link_content (toLink m))
                (path ++ [key]) cs2)
      as [[cs3|message]|]; simpl in Hchild; try done.
  apply IHms; [done|done|].
  destruct (dfs_frame _ _ _ _ _ _ Hdfs) as (_ & Hs3 & _). congruence.
Qed.

Lemma checkKeys_dfsKeys fuel keys : forall st cs,
  trimmedMarkers (substitutes env) = true ->
  ownMarkers (substitutes env) = true ->
  (forall key, key ∈ keys -> key ∈ map fst (substitutes env)) ->
  inStep st cs ->
  recursionStack st = ∅ ->
  inStepOption (dfsKeys env (S fuel) keys st)
    (DataManager.checkKeys env (S fuel) keys cs).
Proof.
  induction keys as [|key keys IH];
    intros st cs Htrim Hown Hkeys Hstep Hstack; [done|].
  assert (Hkey : inheritedOnly (substitutes env) key = false).
  { apply inheritedOnly_key, Hkeys, list_elem_of_here. }
  assert (Hrest : forall k, k ∈ keys -> k ∈ map fst (substitutes env)).
  { intros k Hk. apply Hkeys. by apply list_elem_of_further. }
  rewrite dfsKeys_cons, checkKeys_cons.
  pose proof (checkCircular_dfs (S fuel) key [] st cs Htrim Hown Hkey Hstep)
    as Hchild.
  destruct (decide (key ∈ visited st)) as [Hold|Hnew].
  - rewrite checkCircular_unfold by done.
    destruct Hstep as (Hv & Hs & Hc). rewrite <- Hv, <- Hs, Hstack.
    rewrite decide_False by set_solver. rewrite decide_True by done.
    by apply IH.
  - specialize (Hchild ltac:(by rewrite Hstack)).
    destruct (dfs env (S fuel) key [] st) as [st1|] eqn:Hdfs;
      destruct (DataManager.checkCircular env (S fuel) key [] cs)
        as [[cs1|message]|];
      simpl in Hchild; try done.
    apply IH; [done|done|done|done|].
    destruct (dfs_frame _ _ _ _ _ _ Hdfs) as (_ & Hs1 & _). congruence.
Qed.

End ValidateData.

(** X10.  [DataManager.validateData] has a traversal of its own for the
    circular references of the substitutes; it takes the names of the
    markers as they are written, where the link processor trims them, and
    it calls [content.match] on whatever the mapping gives for a name.  When
    no marker of a value has white space around its name, and none gives
    the name of an inherited member alone, it returns, with one issue for
    each cycle that [checkCircularDependencies] reports, in the same order,
    the issue ending with the names of that cycle joined by arrows; the only
    other issue it can add is that of a root path that is set where nothing
    exists.  So it returns no issue exactly when the substitutes have no
    circular reference and the root is not missing.  Without the two
    conditions it differs: for the substitute [A] with value [see {{ A }}]
    the link processor reports the cycle [A, A] and [validateData] reports
    nothing, and for [A] with value [{{constructor}}] it does not return:
    the [TypeError] of [content.match] leaves it. *)
Theorem validateData_circular_issues env :
  (trimmedMarkers (substitutes env) = true ->
   ownMarkers (substitutes env) = true ->
   exists cycles circular t,
     checkCircularDependencies env = Some cycles
     /\ Forall2 reports cycles circular
     /\ DataManager.validateData env
        = Some (DataManager.Returns
                  (circular
                   ++ if rootMissing env then [DataManager.rootIssue env]
                      else []) t)
     /\ (circular
         ++ (if rootMissing env then [DataManager.rootIssue env] else [])
         = []
         <-> acyclic (substitutes env) /\ rootMissing env = false))
  /\ checkCircularDependencies spacedSelfReference = Some [["A"; "A"]]
  /\ DataManager.validateData spacedSelfReference
     = Some (DataManager.Returns [] [])
  /\ DataManager.validateData inheritedMarker
     = Some (DataManager.Throws "content.match is not a function").
Proof.
  split; [|by repeat split]. intros Htrim Hown.
  destruct (checkCircularDependencies_total env) as (cycles & Hrun).
  pose proof Hrun as Hcycles. unfold checkCircularDependencies in Hcycles.
  pose proof (checkKeys_dfsKeys env (length (substitutes env))
                (map fst (substitutes env))
                {| visited := ∅; recursionStack := ∅; cycles := [] |}
                {| DataManager.visited := ∅; DataManager.recursionStack := ∅;
                   DataManager.issues := [] |} Htrim Hown
                ltac:(done)) as Hstep.
  destruct (dfsKeys env _ _ _) as [st|] eqn:Hkeys; [|done].
  injection Hcycles as <-.
  unfold DataManager.validateData.
  assert (Hstart : inStep {| visited := ∅; recursionStack := ∅; cycles := [] |}
                     {| DataManager.visited := ∅;
                        DataManager.recursionStack := ∅;
                        DataManager.issues := [] |}).
  { split; [done|]. split; [done|]. constructor. }
  specialize (Hstep Hstart eq_refl).
  destruct (DataManager.checkKeys env _ _ _) as [[cs|message]|]; try done.
  destruct Hstep as (_ & _ & Hreports).
  exists (cycles st), (DataManager.issues cs).
  assert (Hiff : DataManager.issues cs = [] <-> acyclic (substitutes env)).
  { split.
    - intros Hnone. rewrite Hnone in Hreports.
      apply Forall2_nil_inv_r in Hreports.
      apply checkCircularDependencies_complete. by rewrite Hrun, Hreports.
    - intros Hacyclic. apply checkCircularDependencies_sound in Hrun.
      destruct Hreports as [|c i cs' is' _ _]; [done|].
      apply Forall_cons in Hrun as [Hc _]. by apply Hacyclic in Hc. }
  assert (Hroot : (if rootMissing env then [DataManager.rootIssue env] else [])
                  = [] <-> rootMissing env = false).
  { by destruct (rootMissing env). }
  assert (Htail : exists t,
    DataManager.reportIssues env cs
    = (Return
         (DataManager.issues cs
          ++ if rootMissing env then [DataManager.rootIssue env] else []), t)).
  { unfold DataManager.reportIssues, rootMissing, pathExists.
    destruct (rootPath env) as [|c root];
      [|destruct (fs_pathExists (fs env) (String c root))];
      destruct (DataManager.issues cs) as [|i is'];
      cbn -[DataManager.rootIssue]; rewrite ?app_nil_r; by eexists. }
  destruct Htail as (t & Htail). exists t.
  split; [done|]. split; [done|]. split; [by rewrite Htail|].
  split.
  - intros [Hnone Hnoroot]%app_eq_nil. split; [by apply Hiff|by apply Hroot].
  - intros [Hacyclic Hnoroot]. apply Hiff in Hacyclic. apply Hroot in Hnoroot.
    by rewrite Hacyclic, Hnoroot.
Qed.

Lemma validateData_circular_issues_witness :
  exists cycles circular t,
    checkCircularDependencies Examples.twoCycle = Some cycles
    /\ Forall2 reports cycles circular
    /\ DataManager.validateData Examples.twoCycle
       = Some (DataManager.Returns
                 (circular
                  ++ if rootMissing Examples.twoCycle
                     then [DataManager.rootIssue Examples.twoCycle]
                     else []) t)
    /\ (circular
        ++ (if rootMissing Examples.twoCycle
            then [DataManager.rootIssue Examples.twoCycle] else [])
        = []
        <-> acyclic (substitutes Examples.twoCycle)
            /\ rootMissing Examples.twoCycle = false).
Proof.
  apply (proj1 (validateData_circular_issues Examples.twoCycle));
    reflexivity.
Defined.

(** ** Which log lines are written *)

Section LoggerLevels.

Variable penv : Logger.processEnv.

(** The level in force is one of the four names only for these settings. *)
Lemma levels_logLevel n :
  Logger.levels (Logger.logLevel penv) = Logger.LevelNumber n ->
  (n = 0 /\ Logger.LOG_LEVEL penv = Some "error")
  \/ (n = 1 /\ Logger.LOG_LEVEL penv = Some "warn")
  \/ (n = 2 /\ (Logger.LOG_LEVEL penv = None
                \/ Logger.LOG_LEVEL penv = Some ""
                \/ Logger.LOG_LEVEL penv = Some "info"))
  \/ (n = 3 /\ Logger.LOG_LEVEL penv = Some "debug").
Proof.
  unfold Logger.logLevel.
  destruct (Logger.LOG_LEVEL penv) as [[|c s]|].
  - intros [= <-]. right. right. left. tauto.
  - unfold Logger.levels.
    destruct (String.eqb_spec (String c s) "error") as [->|_];
      [intros [= <-]; tauto|].
    destruct (String.eqb_spec (String c s) "warn") as [->|_];
      [intros [= <-]; tauto|].
    destruct (String.eqb_spec (String c s) "info") as [->|_];
      [intros [= <-]; tauto|].
    destruct (String.eqb_spec (String c s) "debug") as [->|_];
      [intros [= <-]; tauto|].
    by destruct (bool_decide _).
  - intros [= <-]. right. right. left. tauto.
Qed.

(** A call at one of the four levels writes when the level in force is one
    of the four as well, and is not below it. *)
Lemma log_written level message n :
  Logger.levels level = Logger.LevelNumber n ->
  Logger.log penv level message <> []
  <-> exists m,
        Logger.levels (Logger.logLevel penv) = Logger.LevelNumber m /\ n <= m.
Proof.
  intros Hlevel. unfold Logger.log, Logger.shouldLog. rewrite Hlevel.
  destruct (Logger.levels (Logger.logLevel penv)) as [m|text|];
    cbn [Logger.lessOrEqual].
  - destruct (Nat.leb_spec n m).
    + split; [|done]. intros _. by exists m.
    + split; [done|]. intros (m' & [= <-] & ?). lia.
  - split; [done|]. by intros (m & ? & _).
  - split; [done|]. by intros (m & ? & _).
Qed.

Lemma log_silent level message n :
  Logger.levels level = Logger.LevelNumber n ->
  Logger.error penv message = [] ->
  Logger.log penv level message = [].
Proof.
  intros Hlevel. unfold Logger.error, Logger.log, Logger.shouldLog.
  rewrite Hlevel. change (Logger.levels "error") with (Logger.LevelNumber 0).
  by destruct (Logger.levels (Logger.logLevel penv)) as [m|text|].
Qed.

End LoggerLevels.

Lemma leb_refl s : String.leb s s = true.
Proof. by destruct (String.leb_total s s). Qed.

(** X11.  Which calls of the logger write a line depends on two variables of
    the process.  An error is written when [LOG_LEVEL] is not set, is empty,
    or is one of [error], [warn], [info] and [debug], and for any other
    value, such as [DEBUG], none of [error], [warn], [info] and [debug]
    writes anything; a warning is written for the same settings but
    [error]; a debug line is written only when [DEBUG_MODE] is [true] and
    [LOG_LEVEL] is [debug] as well.  The test of [log] compares what the
    table of levels gives, and the table inherits members like any object:
    under [LOG_LEVEL=constructor] the four calls are silent, and
    [log('constructor', ...)] itself writes its line.  So the warning of
    [processLinks] above the depth bound is written by the default settings
    and is silent under [LOG_LEVEL=error]. *)
Theorem logger_written_lines penv message :
  (Logger.error penv message <> []
   <-> Logger.LOG_LEVEL penv = None
       \/ Logger.LOG_LEVEL penv = Some ""
       \/ Logger.LOG_LEVEL penv = Some "error"
       \/ Logger.LOG_LEVEL penv = Some "warn"
       \/ Logger.LOG_LEVEL penv = Some "info"
       \/ Logger.LOG_LEVEL penv = Some "debug")
  /\ (Logger.warn penv message <> []
      <-> Logger.LOG_LEVEL penv = None
          \/ Logger.LOG_LEVEL penv = Some ""
          \/ Logger.LOG_LEVEL penv = Some "warn"
          \/ Logger.LOG_LEVEL penv = Some "info"
          \/ Logger.LOG_LEVEL penv = Some "debug")
  /\ (Logger.debug penv message <> []
      <-> Logger.DEBUG_MODE penv = Some "true"
          /\ Logger.LOG_LEVEL penv = Some "debug")
  /\ (Logger.error penv message = [] ->
      forall text,
        Logger.error penv text = [] /\ Logger.warn penv text = []
        /\ Logger.info penv text = [] /\ Logger.debug penv text = [])
  /\ (forall name text,
        name ∈ objectPrototypeNames ->
        Logger.LOG_LEVEL penv = Some name ->
        Logger.error penv text = []
        /\ Logger.log penv name text = [(name, text)])
  /\ (forall env content depth,
        maxDepth < depth ->
        Logger.written penv (trace (processLinks env content depth))
        = Logger.warn penv
            "Maximum recursion depth (10) reached while processing links").
Proof.
  split; [|split; [|split; [|split; [|split]]]].
  - unfold Logger.error.
    rewrite (log_written penv "error" message 0) by done. split.
    + intros (m & Hm & _). apply levels_logLevel in Hm. tauto.
    + unfold Logger.logLevel.
      intros [->|[->|[->|[->|[->| ->]]]]]; eexists; (split; [reflexivity|lia]).
  - unfold Logger.warn.
    rewrite (log_written penv "warn" message 1) by done. split.
    + intros (m & Hm & Hle). apply levels_logLevel in Hm.
      destruct Hm as [[-> _]|Hm]; [lia|]. tauto.
    + unfold Logger.logLevel.
      intros [->|[->|[->|[->| ->]]]]; eexists; (split; [reflexivity|lia]).
  - unfold Logger.debug, Logger.debugMode. split.
    + destruct (Logger.DEBUG_MODE penv) as [value|]; [|done].
      destruct (String.eqb_spec value "true") as [->|_]; [|done].
      rewrite (log_written penv "debug" message 3) by done.
      intros (m & Hm & Hle). apply levels_logLevel in Hm.
      split; [done|]. destruct Hm as [[-> _]|[[-> _]|[[-> _]|[_ Hm]]]];
        try lia. done.
    + intros [-> Hlevel]. simpl.
      rewrite (log_written penv "debug" message 3) by done.
      unfold Logger.logLevel. rewrite Hlevel. by exists 3.
  - intros Hsilent text.
    assert (Hlog : forall level n,
      Logger.levels level = Logger.LevelNumber n ->
      Logger.log penv level text = []).
    { intros level n Hlevel. apply (log_silent penv level text n Hlevel).
      revert Hsilent. unfold Logger.error, Logger.log.
      by destruct (Logger.shouldLog penv "error"). }
    split; [by apply (Hlog "error" 0)|]. split; [by apply (Hlog "warn" 1)|].
    split; [by apply (Hlog "info" 2)|].
    unfold Logger.debug. destruct (Logger.debugMode penv); [|done].
    by apply (Hlog "debug" 3).
  - intros name text Hname Hlevel.
    unfold Logger.error, Logger.log, Logger.shouldLog, Logger.logLevel.
    rewrite Hlevel.
    repeat (apply elem_of_cons in Hname as [->|Hname];
            [split; [reflexivity|]; cbn; by rewrite ?leb_refl|]).
    by apply elem_of_nil in Hname.
  - intros env content depth Hdepth.
    rewrite processLinks_above by done. simpl. by rewrite app_nil_r.
Qed.

Lemma logger_written_lines_witness :
  Logger.written {| Logger.LOG_LEVEL := Some "error"; Logger.DEBUG_MODE := None |}
    (trace (processLinks Examples.twoCycle "{{A}}" 11))
  = []
  /\ Logger.log
       {| Logger.LOG_LEVEL := Some "constructor"; Logger.DEBUG_MODE := None |}
       "constructor" "line"
     = [("constructor", "line")].
Proof.
  assert (Hdepth : maxDepth < 11) by (unfold maxDepth; lia).
  assert (Hname : "constructor" ∈ objectPrototypeNames)
    by apply list_elem_of_here.
  split.
  - exact (proj2 (proj2 (proj2 (proj2 (proj2
             (logger_written_lines
                {| Logger.LOG_LEVEL := Some "error"; Logger.DEBUG_MODE := None |}
                "")))))
             Examples.twoCycle "{{A}}" 11 Hdepth).
  - exact (proj2 (proj1 (proj2 (proj2 (proj2 (proj2
             (logger_written_lines
                {| Logger.LOG_LEVEL := Some "constructor";
                   Logger.DEBUG_MODE := None |}
                "")))))
             "constructor" "line" Hname eq_refl)).
Defined.

(** ** The depth matters only through the bound *)

Section DepthStability.

Variable env : environment.
Variable ev : event.

Lemma notin_bind {A B} (m : M A) (k : A -> M B) :
  ev ∉ trace (bind m k) ->
  (ev ∉ trace m) /\ forall a, result m = Return a -> ev ∉ trace (k a).
Proof.
  destruct m as [[a|e] t]; run.
  - rewrite elem_of_app. intros Hq. split; [tauto|].
    intros a' [= <-]. tauto.
  - intros Hq. split; [done|]. intros a' [=].
Qed.

Lemma notin_tryCatch {A} (m : M A) (handler : error -> M A) :
  ev ∉ trace (tryCatch m handler) -> ev ∉ trace m.
Proof.
  destruct m as [[a|e] t]; run; [done|]. rewrite elem_of_app. tauto.
Qed.

(** A loop whose bodies agree wherever the first one is free of [ev]. *)
Lemma forEach_stable {A S} (xs : list A) (body1 body2 : S -> A -> M S) :
  (forall acc x, ev ∉ trace (body1 acc x) -> body2 acc x = body1 acc x) ->
  forall acc,
    ev ∉ trace (forEach xs body1 acc) ->
    forEach xs body2 acc = forEach xs body1 acc.
Proof.
  intros Hbody. induction xs as [|x xs IH]; intros acc Hq; [done|].
  rewrite !forEach_cons in *. apply notin_bind in Hq as [Hx Hrest].
  rewrite (Hbody acc x Hx).
  destruct (body1 acc x) as [[acc'|e] t]; [|done].
  rewrite !bind_Return. by rewrite IH by by apply Hrest.
Qed.

Lemma resolveFolderWildcardWith_stable rec1 rec2 linkContent :
  (forall content, ev ∉ trace (rec1 content) -> rec2 content = rec1 content) ->
  ev ∉ trace (resolveFolderWildcardWith env rec1 linkContent) ->
  resolveFolderWildcardWith env rec2 linkContent
  = resolveFolderWildcardWith env rec1 linkContent.
Proof.
  intros Hrec. unfold resolveFolderWildcardWith.
  set (folderPath := Js.sliceEnd 2 linkContent).
  destruct (String.eqb (rootPath env) ""); [done|].
  set (fullFolderPath := if Path.isAbsolute folderPath then folderPath
                         else Path.resolve (cwd env) [rootPath env; folderPath]).
  destruct (Js.startsWith _ _); [|done]. cbn [negb].
  unfold pathExists, statIsDirectory, readdir.
  destruct (fs_pathExists (fs env) fullFolderPath); run; [|done].
  destruct (fs_isDirectory (fs env) fullFolderPath) as [[|]|e1]; run; try done.
  destruct (fs_readdir (fs env) fullFolderPath) as [files|e2]; run; [|done].
  destruct (supportedFiles files) as [|file kept] eqn:Hkept; [done|].
  rewrite <- Hkept.
  destruct (readFolder_loop env folderPath fullFolderPath (supportedFiles files) [])
    as (combined & -> & _). run.
  pose proof (Hrec (Js.join combined)) as Hsame.
  destruct (rec1 (Js.join combined)) as [[text|e] t]; run; intros Hq;
    rewrite Hsame; run; try done; simpl;
    intros Hin; apply Hq; cbn [negb trace snd result fst throw];
    rewrite !elem_of_app; tauto.
Qed.

Lemma resolveLinkWith_stable rec1 rec2 linkContent :
  (forall content, ev ∉ trace (rec1 content) -> rec2 content = rec1 content) ->
  ev ∉ trace (resolveLinkWith env rec1 linkContent) ->
  resolveLinkWith env rec2 linkContent = resolveLinkWith env rec1 linkContent.
Proof.
  intros Hrec. unfold resolveLinkWith.
  destruct (truthyProperty (substitutes env) linkContent) as [value|];
    [apply Hrec|].
  destruct (Js.endsWith linkContent "/*");
    [by apply resolveFolderWildcardWith_stable|].
  destruct (String.eqb (rootPath env) ""); [done|].
  set (filePath := if Path.isAbsolute linkContent then linkContent
                   else Path.resolve (cwd env) [rootPath env; linkContent]).
  destruct (Js.startsWith _ _); [|done]. cbn [negb].
  unfold pathExists, readFile.
  destruct (fs_pathExists (fs env) filePath); run; [|done].
  destruct (bool_decide _); [|done]. cbn [negb].
  destruct (fs_readFile (fs env) filePath) as [fileContent|e1]; run; [|done].
  pose proof (Hrec fileContent) as Hsame.
  destruct (rec1 fileContent) as [[text|e] t]; run; intros Hq;
    rewrite Hsame; run; try done; simpl;
    intros Hin; apply Hq; cbn [negb trace snd result fst throw];
    rewrite !elem_of_app; tauto.
Qed.

Lemma processMatch_stable resolve1 resolve2 processed m :
  (ev ∉ trace (resolve1 (Js.trim (m_group m))) ->
   resolve2 (Js.trim (m_group m)) = resolve1 (Js.trim (m_group m))) ->
  ev ∉ trace (processMatch resolve1 processed m) ->
  processMatch resolve2 processed m = processMatch resolve1 processed m.
Proof.
  intros Hsame Hq. unfold processMatch in *.
  apply notin_tryCatch, notin_bind in Hq as [Hq _]. by rewrite Hsame.
Qed.

End DepthStability.

Section DepthStabilityLevels.

Variable env : environment.

(** One level more changes nothing for an expansion that did not reach the
    bound. *)
Lemma processLinksWithin_stable levels : forall content,
  withinBound (trace (processLinksWithin env levels content)) ->
  processLinksWithin env (S levels) content
  = processLinksWithin env levels content.
Proof.
  induction levels as [|levels IH]; intros content Hq.
  { exfalso. apply Hq. simpl. apply list_elem_of_here. }
  change (forEach (LinkPattern.matchAll content)
            (processMatch
               (resolveLinkWith env (processLinksWithin env (S levels))))
            content
          = forEach (LinkPattern.matchAll content)
              (processMatch
                 (resolveLinkWith env (processLinksWithin env levels)))
              content).
  apply forEach_stable with (ev := LogWarn maxDepthWarning); [|exact Hq].
  intros processed m. apply processMatch_stable.
  apply resolveLinkWith_stable. exact IH.
Qed.

Lemma processLinksWithin_more more levels content :
  withinBound (trace (processLinksWithin env levels content)) ->
  processLinksWithin env (more + levels) content
  = processLinksWithin env levels content.
Proof.
  intros Hq. induction more as [|more IH]; [done|].
  change (S more + levels) with (S (more + levels)).
  rewrite processLinksWithin_stable; [done|]. by rewrite IH.
Qed.

End DepthStabilityLevels.

(** X12.  The depth at which [processLinks] is called matters to its result
    only through the bound: when the trace of an expansion does not hold the
    warning of the bound, the same text expanded at any lower depth gives
    the same result with the same trace, that is with the same warnings, the
    same error lines and the same requests to the file system, in the same
    order; and so for [resolveLink].  A result that differs from the one at
    depth 0 has met the bound.  (The debug lines, which carry the depth, are
    no events of the trace.) *)
Theorem processLinks_depth_only_through_bound env content depth depth' :
  depth' <= depth ->
  (withinBound (trace (processLinks env content depth)) ->
   processLinks env content depth' = processLinks env content depth)
  /\ (withinBound (trace (resolveLink env content depth)) ->
      resolveLink env content depth' = resolveLink env content depth).
Proof.
  intros Hle.
  assert (Hprocess : forall text,
    withinBound (trace (processLinks env text depth)) ->
    processLinks env text depth' = processLinks env text depth).
  { intros text Hq. unfold processLinks in *.
    replace (S maxDepth - depth')
      with ((S maxDepth - depth' - (S maxDepth - depth)) + (S maxDepth - depth))
      by lia.
    by apply processLinksWithin_more. }
  split; [apply Hprocess|]. unfold resolveLink.
  apply resolveLinkWith_stable. exact Hprocess.
Qed.

Lemma processLinks_depth_only_through_bound_witness :
  processLinks Examples.chain "{{top}}" 0
  = processLinks Examples.chain "{{top}}" 7.
Proof.
  assert (Hle : 0 <= 7) by lia.
  apply (proj1 (processLinks_depth_only_through_bound Examples.chain
                  "{{top}}" 7 0 Hle)).
  vm_compute. apply not_elem_of_nil.
Defined.

(** ** Expansion, marker by marker *)

Section MarkerByMarker.

Import LinkPattern Marker StrFacts ScanFacts.

Variable env : environment.

Lemma contains_cons c d s :
  Str.contains c (String d s) = false ->
  Ascii.eqb d c = false /\ Str.contains c s = false.
Proof.
  unfold Str.contains. rewrite !negb_false_iff. simpl.
  intros [Hd Hs]%andb_prop. by apply negb_true_iff in Hd.
Qed.

Lemma all_app p s t : Str.all p (s +:+ t) = Str.all p s && Str.all p t.
Proof.
  induction s as [|d s IH]; [done|]. rewrite app_cons. simpl.
  by rewrite IH, andb_assoc.
Qed.

Lemma contains_app c s t :
  Str.contains c s = false -> Str.contains c t = false ->
  Str.contains c (s +:+ t) = false.
Proof.
  unfold Str.contains. rewrite !negb_false_iff, all_app.
  by intros -> ->.
Qed.

(** Text without an opening brace, put in front, does not move the first
    occurrence of a pattern that starts with one. *)
Lemma cut_prefix prefix pattern s :
  Str.contains "{" prefix = false ->
  Str.cut (String "{" pattern) (prefix +:+ s)
  = match Str.cut (String "{" pattern) s with
    | Some (before, after) => Some (prefix +:+ before, after)
    | None => None
    end.
Proof.
  induction prefix as [|c prefix IH]; intros Hnone.
  - rewrite app_nil_l. by destruct (Str.cut _ s) as [[before after]|].
  - apply contains_cons in Hnone as [Hc Hnone]. rewrite app_cons.
    change (Str.cut (String "{" pattern) (String c (prefix +:+ s)))
      with (match (if Ascii.eqb "{" c then Str.strip pattern (prefix +:+ s)
                   else None) with
            | Some rest => Some (EmptyString, rest)
            | None =>
                match Str.cut (String "{" pattern) (prefix +:+ s) with
                | Some (before, after) => Some (String c before, after)
                | None => None
                end
            end).
    rewrite Ascii.eqb_sym, Hc, IH by done.
    by destruct (Str.cut _ s) as [[before after]|].
Qed.

Lemma replace_prefix prefix pattern s replacement :
  Str.contains "{" prefix = false ->
  Str.contains "$" replacement = false ->
  Js.replace (prefix +:+ s) (String "{" pattern) replacement
  = prefix +:+ Js.replace s (String "{" pattern) replacement.
Proof.
  intros Hprefix Hplain. unfold Js.replace. rewrite cut_prefix by done.
  destruct (Str.cut _ s) as [[before after]|]; [|done].
  by rewrite !getSubstitution_plain, app_assoc by done.
Qed.

Lemma replace_whole s replacement :
  Str.contains "$" replacement = false ->
  Js.replace s s replacement = replacement.
Proof.
  intros Hplain. unfold Js.replace.
  assert (Str.cut s s = Some ("", "")) as ->.
  { destruct s as [|c s]; [done|].
    change (Str.cut (String c s) (String c s))
      with (match Str.strip (String c s) (String c s) with
            | Some rest => Some (EmptyString, rest)
            | None =>
                match Str.cut (String c s) s with
                | Some (before, after) => Some (String c before, after)
                | None => None
                end
            end).
    rewrite <- (app_nil_r (String c s)) at 2. by rewrite strip_app. }
  rewrite getSubstitution_plain by done. by rewrite app_nil_l, app_nil_r.
Qed.

(** What one turn of the loop does, told by [replacementOf]. *)
Lemma processMatch_replacementOf depth processed m :
  exists t,
    processMatch (fun linkContent => resolveLink env linkContent (depth + 1))
      processed m
    = (Return (Js.replace processed (m_full m)
                 (replacementOf env depth (m_group m))), t)
    /\ forall processed',
         trace (processMatch
                  (fun linkContent => resolveLink env linkContent (depth + 1))
                  processed' m) = t.
Proof.
  unfold replacementOf.
  destruct (resolveLink env (Js.trim (m_group m)) (depth + 1))
    as [[replacement|e] t] eqn:Hres.
  - exists t. split; [by apply processMatch_success|].
    intros processed'. by rewrite (processMatch_success _ _ _ _ _ Hres).
  - eexists. split; [by apply processMatch_failure|].
    intros processed'. by rewrite (processMatch_failure _ _ _ _ _ Hres).
Qed.

(** The loop goes on in the same way behind text without an opening brace. *)
Lemma forEach_prefix depth prefix ms : forall processed,
  Str.contains "{" prefix = false ->
  Forall (fun m => m_full m = fullMatch (m_group m)
                   /\ Str.contains "$" (replacementOf env depth (m_group m))
                      = false) ms ->
  exists text t,
    forEach ms
      (processMatch (fun linkContent => resolveLink env linkContent (depth + 1)))
      processed = (Return text, t)
    /\ forEach ms
         (processMatch (fun linkContent => resolveLink env linkContent (depth + 1)))
         (prefix +:+ processed) = (Return (prefix +:+ text), t).
Proof.
  intros processed Hprefix Hms. revert processed.
  induction ms as [|m ms IH]; intros processed; [by exists processed, []|].
  apply Forall_cons in Hms as [[Hfull Hplain] Hms].
  rewrite !forEach_cons.
  destruct (processMatch_replacementOf depth processed m) as (t & Hstep & Htrace).
  pose proof (processMatch_replacementOf depth (prefix +:+ processed) m)
    as (t' & Hstep' & _).
  assert (t' = t) as -> by (by rewrite <- (Htrace (prefix +:+ processed)), Hstep').
  rewrite Hstep, Hstep', !bind_Return.
  assert (Js.replace (prefix +:+ processed) (m_full m)
            (replacementOf env depth (m_group m))
          = prefix +:+ Js.replace processed (m_full m)
                         (replacementOf env depth (m_group m))) as ->.
  { rewrite Hfull. unfold fullMatch. rewrite !app_cons, app_nil_l.
    by apply replace_prefix. }
  destruct (IH Hms (Js.replace processed (m_full m)
                      (replacementOf env depth (m_group m))))
    as (text & t2 & -> & ->).
  by exists text, (t ++ t2).
Qed.

(** The loop does not read the offsets of the matches. *)
Lemma forEach_shiftMatch resolve offset ms : forall processed,
  forEach (map (shiftMatch offset) ms) (processMatch resolve) processed
  = forEach ms (processMatch resolve) processed.
Proof.
  induction ms as [|m ms IH]; intros processed; [done|].
  cbn [map]. rewrite !forEach_cons.
  change (processMatch resolve processed (shiftMatch offset m))
    with (processMatch resolve processed m).
  destruct (processMatch resolve processed m) as [[text|e] t]; [|done].
  by rewrite !bind_Return, IH.
Qed.

Lemma matchAll_full content m :
  m ∈ matchAll content -> m_full m = fullMatch (m_group m).
Proof.
  intros Hm.
  destruct (matchesFrom_spec (String.length content) content 0 (le_n _))
    as (Hsound & _).
  by destruct (Hsound m Hm) as (_ & _ & Hfull).
Qed.

End MarkerByMarker.

(** X13.  [processLinks] goes through a text marker by marker.  When a text
    starts with a piece without an opening brace, followed by a marker, and
    what takes the place of that marker has no opening brace and no dollar
    sign, then, at a depth up to the bound, the result is that piece, then
    what [processLinks] makes of the marker alone, then what it makes of
    the rest of the text alone; the log lines and the requests are those of
    the marker followed by those of the rest.  What takes the place of the
    later markers must have no dollar sign either; it may hold braces, and
    the later markers may fail. *)
Theorem processLinks_marker_then_rest env depth before g after :
  depth <= maxDepth ->
  Str.contains "{" before = false ->
  Marker.isGroup g ->
  Str.contains "{" (replacementOf env depth g) = false ->
  Str.contains "$" (replacementOf env depth g) = false ->
  Forall (fun m => Str.contains "$" (replacementOf env depth (m_group m)) = false)
    (LinkPattern.matchAll after) ->
  exists t1 rest t2,
    processLinks env (LinkPattern.fullMatch g) depth
    = (Return (replacementOf env depth g), t1)
    /\ processLinks env after depth = (Return rest, t2)
    /\ processLinks env (before +:+ LinkPattern.fullMatch g +:+ after) depth
       = (Return (before +:+ replacementOf env depth g +:+ rest), t1 ++ t2).
Proof.
  intros Hdepth Hbefore Hg Hbrace Hdollar Hrest.
  set (first := {| m_full := LinkPattern.fullMatch g; m_group := g;
                   m_index := 0 |}).
  assert (Hone : LinkPattern.matchAll (LinkPattern.fullMatch g) = [first]).
  { pose proof (matchAll_marker_first g "" Hg) as Hfirst.
    unfold LinkPattern.fullMatch. by rewrite StrFacts.app_nil_r in Hfirst. }
  assert (Hall : LinkPattern.matchAll
                   (before +:+ LinkPattern.fullMatch g +:+ after)
                 = shiftMatch (String.length before) first
                   :: map (shiftMatch (String.length before))
                        (map (shiftMatch (String.length g + 4))
                           (LinkPattern.matchAll after))).
  { unfold LinkPattern.matchAll at 1. rewrite matchesFrom_no_brace by done.
    rewrite matchesFrom_index.
    fold (LinkPattern.matchAll (LinkPattern.fullMatch g +:+ after)).
    unfold LinkPattern.fullMatch. rewrite !StrFacts.app_assoc.
    by rewrite (matchAll_marker_first g after Hg). }
  rewrite !processLinks_below by done. rewrite Hone, Hall.
  rewrite !forEach_cons.
  change (processMatch _ ?p (shiftMatch (String.length before) first))
    with (processMatch
            (fun linkContent => resolveLink env linkContent (depth + 1)) p first).
  destruct (processMatch_replacementOf env depth (LinkPattern.fullMatch g)
              first)
    as (t1 & Hstep1 & Htrace).
  pose proof (processMatch_replacementOf env depth
                (before +:+ LinkPattern.fullMatch g +:+ after) first)
    as (t1' & Hstep & _).
  assert (t1' = t1) as ->
    by (by rewrite <- (Htrace (before +:+ LinkPattern.fullMatch g +:+ after)),
          Hstep).
  rewrite Hstep1, Hstep, !bind_Return, forEach_nil. cbn [first m_full m_group].
  rewrite replace_whole by done.
  assert (Js.replace (before +:+ LinkPattern.fullMatch g +:+ after)
            (LinkPattern.fullMatch g)
            (replacementOf env depth g)
          = (before +:+ replacementOf env depth g) +:+ after) as ->.
  { unfold LinkPattern.fullMatch at 2. rewrite !StrFacts.app_cons, StrFacts.app_nil_l.
    rewrite replace_prefix by done.
    change (String "{" (String "{" (g +:+ "}}"))) with (LinkPattern.fullMatch g).
    unfold Js.replace.
    assert (Str.cut (LinkPattern.fullMatch g) (LinkPattern.fullMatch g +:+ after)
            = Some ("", after)) as ->.
    { unfold LinkPattern.fullMatch. rewrite !StrFacts.app_cons, StrFacts.app_nil_l.
      change (Str.cut (String "{" (String "{" (g +:+ "}}")))
                (String "{" (String "{" ((g +:+ "}}") +:+ after))))
        with (match Str.strip (String "{" (String "{" (g +:+ "}}")))
                      (String "{" (String "{" (g +:+ "}}")) +:+ after) with
              | Some rest => Some (EmptyString, rest)
              | None =>
                  match Str.cut (String "{" (String "{" (g +:+ "}}")))
                          (String "{" ((g +:+ "}}") +:+ after)) with
                  | Some (b, a) => Some (String "{" b, a)
                  | None => None
                  end
              end).
      by rewrite StrFacts.strip_app. }
    by rewrite StrFacts.getSubstitution_plain, StrFacts.app_nil_l,
      StrFacts.app_assoc by done. }
  rewrite !forEach_shiftMatch.
  destruct (forEach_prefix env depth (before +:+ replacementOf env depth g)
              (LinkPattern.matchAll after) after)
    as (rest & t2 & Hafter & Hwhole).
  { by apply contains_app. }
  { apply Forall_forall. intros m Hm. split; [by eapply matchAll_full|].
    rewrite Forall_forall in Hrest. by apply Hrest. }
  exists t1, rest, t2. cbn [ret result trace fst snd].
  rewrite Hafter, Hwhole. cbn [result trace fst snd].
  by rewrite List.app_nil_r, StrFacts.app_assoc.
Qed.


Lemma processLinks_marker_then_rest_witness :
  exists t1 rest t2,
    processLinks Examples.greeting (LinkPattern.fullMatch "ok") 0
    = (Return (replacementOf Examples.greeting 0 "ok"), t1)
    /\ processLinks Examples.greeting " to {{you}}, {{ok}}" 0 = (Return rest, t2)
    /\ processLinks Examples.greeting
         ("Say " +:+ LinkPattern.fullMatch "ok" +:+ " to {{you}}, {{ok}}") 0
       = (Return ("Say " +:+ replacementOf Examples.greeting 0 "ok" +:+ rest),
          t1 ++ t2).
Proof.
  assert (Hdepth : 0 <= maxDepth) by (unfold maxDepth; lia).
  assert (Hg : Marker.isGroup "ok") by (by split).
  apply (processLinks_marker_then_rest Examples.greeting 0 "Say " "ok"
           " to {{you}}, {{ok}}" Hdepth eq_refl Hg eq_refl eq_refl).
  assert (Hall : LinkPattern.matchAll " to {{you}}, {{ok}}"
                 = [ {| m_full := "{{you}}"; m_group := "you"; m_index := 4 |};
                     {| m_full := "{{ok}}"; m_group := "ok"; m_index := 13 |} ])
    by reflexivity.
  rewrite Hall. repeat constructor.
Defined.
